(** * PyPML: the parking monitor of [pypml/pypml.py], embedded and verified

    The class [ParkingMonitor] keeps three dictionaries (parkings, rerouters,
    vehicles), a set of passengers and a travel-time structure, all mutated in
    place.  The embedding threads one [State] record through a state-and-error
    monad: a Python exception leaves the mutations made before it in place, so
    a computation returns the state it reached together with either a value or
    the exception raised.

    Conventions of the embedding.
    - Python [int] is [Z]; Python [float] (simulation time, positions, travel
      times, mu and sigma) is [Q]: the code only stores and compares floats.
    - A [dict] is a [gmap], a [set] a [gset]; loops over a dict walk
      [map_to_list], loops over a set walk [elements].
    - TraCI is an oracle: what it returns during one call is an argument of
      the function that asks for it.  Calls that only talk to TraCI
      (subscribe, unsubscribe) and logging leave the state alone and are left
      out.
    - [random.normalvariate] followed by [round] is an argument [draw : Z]. *)

From Stdlib Require Import ZArith QArith Ascii String List Sorting.Sorted Lia.
From stdpp Require Import base option gmap sets list strings fin_maps.

Local Open Scope string_scope.
Local Open Scope list_scope.
Local Open Scope Z_scope.

(** ** Exceptions

    The source raises plain [Exception] objects told apart by their message,
    and the interpreter raises [KeyError] and [IndexError]. *)

Inductive Exc : Type :=
| ParkingDoesNotExist (parking : string)
    (* 'Parking {} does not exist.' *)
| VClassNotInitialized (vclass parking : string)
    (* 'vClass "{}" not initialized in parking {}.' *)
| TravelTimeNotInitialized
    (* 'Estimated travel time structure for parkings is not initialized.' *)
| VClassesMismatch (field parking : string)
    (* 'The vClasses in "{}" of {} must be all and only {} ...' *)
| TotalCapacityMismatch (parking : string) (total expected : Z)
    (* 'The total capacity for parking area {} is {} but it must be ...' *)
| OccupancyOverCapacity (parking vclass : string) (occupied capacity : Z)
    (* 'The occupancy in parking area {} for vType {} is {} of {}.' *)
| TotalOccupancyMismatch (parking : string) (total expected : Z)
    (* 'The total occupancy for parking area {} is {} but it must be ...' *)
| SubscriptionsWithoutCapacity (parking : string)
    (* 'Parking subscriptions for parking {} cannot be set without ...' *)
| SubscriptionExceedsCapacity (parking key : string)
    (* 'In parking {}, subscription for {} exceed the capacity [{}/{}].' *)
| VehicleCannotBeRemoved (vehicle area : string)
    (* '[{}] Vehicle {} cannot be removed from area {}.' *)
| KeyError (key : string)
| IndexError.

Inductive Outcome (A : Type) : Type :=
| Ok (a : A)
| Raise (e : Exc).
Arguments Ok {A} a.
Arguments Raise {A} e.

#[global] Instance Outcome_ret : MRet Outcome := fun A a => Ok a.
#[global] Instance Outcome_bind : MBind Outcome := fun A B f o =>
  match o with
  | Ok a => f a
  | Raise e => Raise e
  end.

Definition is_Raise {A} (o : Outcome A) : Prop := ∃ e, o = Raise e.

(** A left fold whose body may raise: the shape of every [for] loop of the
    source that updates local variables. *)
Fixpoint foldO {A B} (f : B → A → Outcome B) (b : B) (l : list A) : Outcome B :=
  match l with
  | [] => Ok b
  | a :: l' => match f b a with
               | Ok b' => foldO f b' l'
               | Raise e => Raise e
               end
  end.

(** ** Data model *)

(** The attributes of a <parkingArea> element that the code reads, with
    [float(endPos)] already taken. *)
Record Sumo : Type := mkSumo {
  sumo_id : string;
  sumo_lane : string;
  sumo_endPos : Q;
}.

Record Uncertainty : Type := mkUncertainty {
  mu : Q;
  sigma : Q;
}.

(** [subscriptions_by_class] maps a class to a tuple [(num, vehicles)] whose
    second component is a [set] object that [subscribe_vehicle_to_parking]
    and [remove_subscribed_vehicle] mutate in place.  [copy.deepcopy] keeps
    the sharing that its argument has: two classes given the same set object
    share one set object in the copy.  So the tuples hold references and the
    set objects live in a store of their own; a reference always has its
    object in Python, and one without is read as the empty set. *)
Record Subscriptions : Type := mkSubscriptions {
  sub_entries : gmap string (Z * nat);
  sub_objects : gmap nat (gset string);
}.

(** The tuple seen when reading [subscriptions_by_class[vclass]]. *)
Definition sub_lookup (s : Subscriptions) (vclass : string) : option (Z * gset string) :=
  match sub_entries s !! vclass with
  | Some (num, ref) => Some (num, sub_objects s !!! ref)
  | None => None
  end.

(** The dictionary as a reader sees it, sharing forgotten. *)
Definition sub_view (s : Subscriptions) : gmap string (Z * gset string) :=
  (λ e : Z * nat, (e.1, sub_objects s !!! e.2)) <$> sub_entries s.

Definition no_subscriptions : Subscriptions := mkSubscriptions ∅ ∅.

Record Parking : Type := mkParking {
  sumo : Sumo;
  total_capacity : Z;
  total_occupancy : Z;
  occupancy_series : list (Z * Q);
  occupancy_by_class : gmap string (gset string);
  projections_by_class : gmap string (gset string);
  capacity_by_class : gmap string Z;
  subscriptions_by_class : Subscriptions;
  uncertainty : Uncertainty;
}.

(** A parking is a Python dict indexed by field name.  [getitem] is
    [parking[key]]: [None] stands for the [KeyError] of a key that the
    dict does not have. *)
Inductive Value : Type :=
| VSumo (s : Sumo)
| VInt (z : Z)
| VSeries (l : list (Z * Q))
| VVehicles (m : gmap string (gset string))
| VCapacity (m : gmap string Z)
| VSubscriptions (s : Subscriptions)
| VUncertainty (u : Uncertainty).

Definition getitem (p : Parking) (key : string) : option Value :=
  match key with
  | "sumo" => Some (VSumo (sumo p))
  | "total_capacity" => Some (VInt (total_capacity p))
  | "total_occupancy" => Some (VInt (total_occupancy p))
  | "occupancy_series" => Some (VSeries (occupancy_series p))
  | "occupancy_by_class" => Some (VVehicles (occupancy_by_class p))
  | "projections_by_class" => Some (VVehicles (projections_by_class p))
  | "capacity_by_class" => Some (VCapacity (capacity_by_class p))
  | "subscriptions_by_class" => Some (VSubscriptions (subscriptions_by_class p))
  | "uncertainty" => Some (VUncertainty (uncertainty p))
  | _ => None
  end.

(** A stop as TraCI reports it:
    (lane, endPos, stoppingPlaceID, stopFlags, duration, until). *)
Record Stop : Type := mkStop {
  stop_lane : string;
  stop_endPos : Q;
  stopping_place : string;
  stop_flags : Z;
  stop_duration : Q;
  stop_until : Q;
}.

Record Vehicle : Type := mkVehicle {
  veh_id : string;
  departure : Q;
  edge : string;
  stops : list Stop;
  history : list (list Stop);
  vClass : string;
  passengers : list string;
  arrived : option Q;
  final_stop_arrival : option Q;   (* the key is absent until first set *)
}.

Record Router : Type := mkRouter {
  router_id : string;
  edges : list string;
  intervals : list (Z * list (string * bool));
}.

Record SpecificConf : Type := mkSpecificConf {
  conf_capacity_by_class : option (gmap string Z);
  conf_subscriptions_by_class : option Subscriptions;
  conf_uncertainty : option Uncertainty;
}.

Record Options : Type := mkOptions {
  blacklist : list string;
  vclasses : gset string;
  specific_conf : gmap string SpecificConf;
  only_parkings : bool;
}.

Record State : Type := mkState {
  _options : Options;
  _parking_db : gmap string Parking;
  _routers_db : gmap string Router;
  _vehicles_db : gmap string Vehicle;
  _passengers_db : gset string;
  _edges_routers_mapping : gmap string (list string);
  _blacklisted_edges_pairs : gmap string (list string);
  _static_parking_travel_time : gmap string (list (Q * string));
  _traci_starting_stop_subscriptions : option (list string);
  _traci_ending_stop_subscriptions : option (list string);
}.

(** ** The state-and-error monad *)

Definition M (A : Type) : Type := State → State * Outcome A.

#[global] Instance M_ret : MRet M := fun A a st => (st, Ok a).
#[global] Instance M_bind : MBind M := fun A B f m st =>
  match m st with
  | (st', Ok a) => f a st'
  | (st', Raise e) => (st', Raise e)
  end.

Definition raise {A} (e : Exc) : M A := fun st => (st, Raise e).
Definition gets {A} (f : State → A) : M A := fun st => (st, Ok (f st)).
Definition modify (f : State → State) : M unit := fun st => (f st, Ok tt).
Definition lift {A} (o : Outcome A) : M A := fun st => (st, o).

Fixpoint foldM {A B} (f : B → A → M B) (b : B) (l : list A) : M B :=
  match l with
  | [] => mret b
  | a :: l' => b' ← f b a; foldM f b' l'
  end.

Fixpoint forM_ {A} (f : A → M unit) (l : list A) : M unit :=
  match l with
  | [] => mret tt
  | a :: l' => f a;; forM_ f l'
  end.

(** Field updates ([d[key] = value] on a parking and on the monitor). *)

Definition with_total_occupancy (occupancy : Z) (series : list (Z * Q)) (p : Parking) : Parking :=
  mkParking (sumo p) (total_capacity p) occupancy series
            (occupancy_by_class p) (projections_by_class p) (capacity_by_class p)
            (subscriptions_by_class p) (uncertainty p).

Definition with_occupancy_by_class (m : gmap string (gset string)) (p : Parking) : Parking :=
  mkParking (sumo p) (total_capacity p) (total_occupancy p) (occupancy_series p)
            m (projections_by_class p) (capacity_by_class p)
            (subscriptions_by_class p) (uncertainty p).

Definition with_projections_by_class (m : gmap string (gset string)) (p : Parking) : Parking :=
  mkParking (sumo p) (total_capacity p) (total_occupancy p) (occupancy_series p)
            (occupancy_by_class p) m (capacity_by_class p)
            (subscriptions_by_class p) (uncertainty p).

Definition with_capacity_by_class (m : gmap string Z) (p : Parking) : Parking :=
  mkParking (sumo p) (total_capacity p) (total_occupancy p) (occupancy_series p)
            (occupancy_by_class p) (projections_by_class p) m
            (subscriptions_by_class p) (uncertainty p).

Definition with_subscriptions_by_class (s : Subscriptions) (p : Parking) : Parking :=
  mkParking (sumo p) (total_capacity p) (total_occupancy p) (occupancy_series p)
            (occupancy_by_class p) (projections_by_class p) (capacity_by_class p)
            s (uncertainty p).

Definition with_uncertainty (u : Uncertainty) (p : Parking) : Parking :=
  mkParking (sumo p) (total_capacity p) (total_occupancy p) (occupancy_series p)
            (occupancy_by_class p) (projections_by_class p) (capacity_by_class p)
            (subscriptions_by_class p) u.

Definition with_parking_db (f : gmap string Parking → gmap string Parking) (st : State) : State :=
  mkState (_options st) (f (_parking_db st)) (_routers_db st) (_vehicles_db st)
          (_passengers_db st) (_edges_routers_mapping st) (_blacklisted_edges_pairs st)
          (_static_parking_travel_time st)
          (_traci_starting_stop_subscriptions st) (_traci_ending_stop_subscriptions st).

Definition with_vehicles_db (f : gmap string Vehicle → gmap string Vehicle) (st : State) : State :=
  mkState (_options st) (_parking_db st) (_routers_db st) (f (_vehicles_db st))
          (_passengers_db st) (_edges_routers_mapping st) (_blacklisted_edges_pairs st)
          (_static_parking_travel_time st)
          (_traci_starting_stop_subscriptions st) (_traci_ending_stop_subscriptions st).

Definition with_passengers_db (f : gset string → gset string) (st : State) : State :=
  mkState (_options st) (_parking_db st) (_routers_db st) (_vehicles_db st)
          (f (_passengers_db st)) (_edges_routers_mapping st) (_blacklisted_edges_pairs st)
          (_static_parking_travel_time st)
          (_traci_starting_stop_subscriptions st) (_traci_ending_stop_subscriptions st).

Definition with_blacklisted_edges_pairs
    (f : gmap string (list string) → gmap string (list string)) (st : State) : State :=
  mkState (_options st) (_parking_db st) (_routers_db st) (_vehicles_db st)
          (_passengers_db st) (_edges_routers_mapping st) (f (_blacklisted_edges_pairs st))
          (_static_parking_travel_time st)
          (_traci_starting_stop_subscriptions st) (_traci_ending_stop_subscriptions st).

Definition with_static_parking_travel_time
    (f : gmap string (list (Q * string)) → gmap string (list (Q * string))) (st : State) : State :=
  mkState (_options st) (_parking_db st) (_routers_db st) (_vehicles_db st)
          (_passengers_db st) (_edges_routers_mapping st) (_blacklisted_edges_pairs st)
          (f (_static_parking_travel_time st))
          (_traci_starting_stop_subscriptions st) (_traci_ending_stop_subscriptions st).

Definition with_stop_subscriptions (starting ending : option (list string)) (st : State) : State :=
  mkState (_options st) (_parking_db st) (_routers_db st) (_vehicles_db st)
          (_passengers_db st) (_edges_routers_mapping st) (_blacklisted_edges_pairs st)
          (_static_parking_travel_time st) starting ending.

(** [self._parking_db[parking]] where the key is known to be there or a
    [KeyError] is due. *)
Definition parking_of (parking : string) : M Parking := fun st =>
  match _parking_db st !! parking with
  | Some p => (st, Ok p)
  | None => (st, Raise (KeyError parking))
  end.

Definition update_parking (parking : string) (f : Parking → Parking) : M unit :=
  modify (with_parking_db (alter f parking)).

(** ** Parking validation (source lines 894-953) *)

Definition check_parking_capacity (opts : Options) (parking : string) (p : Parking)
    : Outcome unit :=
  if decide (dom (capacity_by_class p) ≠ vclasses opts)
  then Raise (VClassesMismatch "capacity_by_class" parking)
  else
    let total := fold_left (λ total value, total + value)
                           (map_to_list (capacity_by_class p)).*2 0 in
    if decide (total ≠ total_capacity p)
    then Raise (TotalCapacityMismatch parking total (total_capacity p))
    else Ok tt.

Definition _validate_parking_capacity (parking : string) : M unit :=
  p ← parking_of parking;
  opts ← gets _options;
  lift (check_parking_capacity opts parking p).

(** Body of the loop over [occupancy_by_class.items()], [total] being the
    loop variable. *)
Definition count_occupancy (parking : string) (p : Parking) (total : Z)
    (item : string * gset string) : Outcome Z :=
  let '(v_class, value) := item in
  let len := Z.of_nat (size value) in
  if decide (capacity_by_class p ≠ ∅) then
    match capacity_by_class p !! v_class with
    | None => Raise (KeyError v_class)
    | Some capacity =>
        if decide (len > capacity)
        then Raise (OccupancyOverCapacity parking v_class len capacity)
        else Ok (total + len)
    end
  else Ok (total + len).

Definition check_parking_occupancy (opts : Options) (parking : string) (p : Parking)
    : Outcome unit :=
  if decide (dom (occupancy_by_class p) ≠ vclasses opts)
  then Raise (VClassesMismatch "occupancy_by_class" parking)
  else
    total ← foldO (count_occupancy parking p) 0 (map_to_list (occupancy_by_class p));
    if decide (total ≠ total_occupancy p)
    then Raise (TotalOccupancyMismatch parking total (total_occupancy p))
    else Ok tt.

Definition _validate_parking_occupancy (parking : string) : M unit :=
  p ← parking_of parking;
  opts ← gets _options;
  lift (check_parking_occupancy opts parking p).

(** Body of the loop over [subscriptions_by_class.items()]. *)
Definition check_subscription (parking : string) (p : Parking) (_ : unit)
    (item : string * (Z * nat)) : Outcome unit :=
  let '(key, value) := item in
  match capacity_by_class p !! key with
  | None => Raise (KeyError key)
  | Some capacity =>
      if decide (value.1 > capacity)
      then Raise (SubscriptionExceedsCapacity parking key)
      else Ok tt
  end.

Definition check_parking_subscriptions (opts : Options) (parking : string) (p : Parking)
    : Outcome unit :=
  if decide (capacity_by_class p = ∅)
  then Raise (SubscriptionsWithoutCapacity parking)
  else if decide (dom (sub_entries (subscriptions_by_class p)) ≠ vclasses opts)
  then Raise (VClassesMismatch "subscriptions_by_class" parking)
  else
    foldO (check_subscription parking p) tt
          (map_to_list (sub_entries (subscriptions_by_class p))).

Definition _validate_parking_subscriptions (parking : string) : M unit :=
  p ← parking_of parking;
  opts ← gets _options;
  lift (check_parking_subscriptions opts parking p).

(** ** Capacity and subscription accessors (source lines 722-794, 868-890) *)

Definition get_parking_capacity_vclass (parking : string) (st : State)
    : Outcome (gmap string Z) :=
  match _parking_db st !! parking with
  | Some p => Ok (capacity_by_class p)
  | None => Raise (ParkingDoesNotExist parking)
  end.

Definition set_parking_capacity_vclass (parking : string) (capacities : gmap string Z)
    : M unit :=
  db ← gets _parking_db;
  match db !! parking with
  | Some _ =>
      update_parking parking (with_capacity_by_class capacities);;
      _validate_parking_capacity parking
  | None => raise (ParkingDoesNotExist parking)
  end.

Definition get_parking_subscriptions (parking : string) (st : State)
    : Outcome Subscriptions :=
  match _parking_db st !! parking with
  | Some p => Ok (subscriptions_by_class p)
  | None => Raise (ParkingDoesNotExist parking)
  end.

(** The deep copy of [subscriptions] is a mapping of the same shape, with
    the same sharing between its tuples. *)
Definition set_parking_subscriptions (parking : string) (subscriptions : Subscriptions)
    : M unit :=
  db ← gets _parking_db;
  match db !! parking with
  | Some _ =>
      update_parking parking (with_subscriptions_by_class subscriptions);;
      _validate_parking_subscriptions parking
  | None => raise (ParkingDoesNotExist parking)
  end.

(** [vehicles.add(vehicle)] and [vehicles.remove(vehicle)] act on the set
    object that the tuple refers to. *)
Definition set_object (ref : nat) (vehicles : gset string) (s : Subscriptions) : Subscriptions :=
  mkSubscriptions (sub_entries s) (<[ref := vehicles]> (sub_objects s)).

Definition subscribe_vehicle_to_parking (parking vclass vehicle : string) : M bool :=
  db ← gets _parking_db;
  match db !! parking with
  | Some p =>
      match sub_entries (subscriptions_by_class p) !! vclass with
      | Some (_capacity, ref) =>
          let vehicles := sub_objects (subscriptions_by_class p) !!! ref in
          if decide (vehicle ∈ vehicles) then mret false
          else if decide (Z.of_nat (size vehicles) < _capacity) then
            update_parking parking
              (λ p, with_subscriptions_by_class
                      (set_object ref (vehicles ∪ {[vehicle]}) (subscriptions_by_class p)) p);;
            mret true
          else mret false
      | None => raise (VClassNotInitialized vclass parking)
      end
  | None => raise (ParkingDoesNotExist parking)
  end.

Definition remove_subscribed_vehicle (parking vclass vehicle : string) : M bool :=
  db ← gets _parking_db;
  match db !! parking with
  | Some p =>
      match sub_entries (subscriptions_by_class p) !! vclass with
      | Some (_capacity, ref) =>
          let vehicles := sub_objects (subscriptions_by_class p) !!! ref in
          if decide (vehicle ∈ vehicles) then
            update_parking parking
              (λ p, with_subscriptions_by_class
                      (set_object ref (vehicles ∖ {[vehicle]}) (subscriptions_by_class p)) p);;
            mret true
          else mret false
      | None => raise (VClassNotInitialized vclass parking)
      end
  | None => raise (ParkingDoesNotExist parking)
  end.

(** ** Parking lookup and projections (source lines 646-653, 798-806) *)

Definition get_parking (parking : string) (st : State) : Outcome (option Parking) :=
  match _parking_db st !! parking with
  | Some p => Ok (Some p)
  | None => Ok None
  end.

Definition get_parking_iterator (st : State) : list Parking :=
  (map_to_list (_parking_db st)).*2.

Definition get_parking_projections (parking : string) (st : State) : Outcome Value :=
  match _parking_db st !! parking with
  | Some p =>
      match getitem p "projection_by_class" with
      | Some v => Ok v
      | None => Raise (KeyError "projection_by_class")
      end
  | None => Raise (ParkingDoesNotExist parking)
  end.

(** ** Free places (source lines 810-866)

    The function returns an [int] or a [dict], hence the two constructors.
    [draw] stands for [round(random.normalvariate(mu, sigma))]. *)

Inductive FreePlaces : Type :=
| FreeTotal (n : Z)
| FreeByClass (m : gmap string Z).

(** Body of the loop over [projections_by_class.items()]; the loop variables
    are [(total_projections, occupancy)]. *)
Definition add_projections (acc : Z * gmap string (gset string))
    (item : string * gset string) : Outcome (Z * gmap string (gset string)) :=
  let '(total_projections, occupancy) := acc in
  let '(key, vehicles) := item in
  match occupancy !! key with
  | Some occupied =>
      Ok (total_projections + Z.of_nat (size vehicles),
          <[key := occupied ∪ vehicles]> occupancy)
  | None => Raise (KeyError key)
  end.

(** Body of the loop over [subscriptions_by_class.items()]; the loop
    variables are [subscriptions], [occupancy], [total_subscriptions] and
    [partial_subscriptions]. *)
Definition add_subscriptions
    (acc : gmap string Z * gmap string (gset string) * Z * Z)
    (item : string * (Z * gset string))
    : Outcome (gmap string Z * gmap string (gset string) * Z * Z) :=
  let '(subscriptions, occupancy, total_subscriptions, partial_subscriptions) := acc in
  let '(key, (num, veh)) := item in
  let subscriptions := <[key := num - Z.of_nat (size veh)]> subscriptions in
  match occupancy !! key with
  | Some occupied =>
      Ok (subscriptions, <[key := occupied ∪ veh]> occupancy,
          total_subscriptions + num,
          partial_subscriptions + (num - Z.of_nat (size veh)))
  | None => Raise (KeyError key)
  end.

(** Body of the loop over [occupancy.items()] that turns the capacities into
    remainders; the loop variable is [current_capacity]. *)
Definition subtract_occupancy (error : Z) (with_subscriptions : bool)
    (subscriptions : gmap string Z) (current_capacity : gmap string Z)
    (item : string * gset string) : Outcome (gmap string Z) :=
  let '(key, vehicles) := item in
  match current_capacity !! key with
  | None => Raise (KeyError key)
  | Some capacity =>
      let remainder := capacity + error - Z.of_nat (size vehicles) in
      if with_subscriptions && bool_decide (subscriptions ≠ ∅) then
        match subscriptions !! key with
        | Some reserved => Ok (<[key := remainder - reserved]> current_capacity)
        | None => Raise (KeyError key)
        end
      else Ok (<[key := remainder]> current_capacity)
  end.

Definition get_free_places (draw : Z) (parking : string) (with_uncertainty : bool)
    (vclass : option string) (with_projections with_subscriptions : bool)
    (st : State) : Outcome FreePlaces :=
  match _parking_db st !! parking with
  | None => Raise (ParkingDoesNotExist parking)
  | Some p =>
      let error := if with_uncertainty then draw else 0 in
      let current_capacity := capacity_by_class p in
      let total_occupancy := total_occupancy p in
      let occupancy := occupancy_by_class p in
      '(total_projections, occupancy) ←
        (if with_projections
         then foldO add_projections (0, occupancy) (map_to_list (projections_by_class p))
         else Ok (0, occupancy));
      '(subscriptions, occupancy, total_subscriptions, _) ←
        (if with_subscriptions
         then foldO add_subscriptions (∅, occupancy, 0, 0)
                    (map_to_list (sub_view (subscriptions_by_class p)))
         else Ok (∅, occupancy, 0, 0));
      if decide (current_capacity ≠ ∅) then
        current_capacity ←
          foldO (subtract_occupancy error with_subscriptions subscriptions)
                current_capacity (map_to_list occupancy);
        match vclass with
        | Some c =>
            match current_capacity !! c with
            | Some remainder => Ok (FreeTotal remainder)
            | None => Ok (FreeByClass current_capacity)
            end
        | None => Ok (FreeByClass current_capacity)
        end
      else
        Ok (FreeTotal (total_capacity p - total_occupancy - total_projections
                       - total_subscriptions + error))
  end.

(** ** Rerouters (source lines 583-601) *)

Record RerouterInfo : Type := mkRerouterInfo {
  info_id : string;
  info_edges : list string;
  info : option (list (string * bool));
}.

(** The inner loop, [current] being the loop variable.  [not current] holds
    of [None] and of the empty list; leaving by [break] ends the walk. *)
Fixpoint current_interval (step : Q) (current : option (list (string * bool)))
    (intervals : list (Z * list (string * bool))) : option (list (string * bool)) :=
  match intervals with
  | [] => current
  | (end_, parkings) :: rest =>
      let current :=
        match current with
        | None | Some [] => Some parkings
        | Some _ => current
        end in
      if Qle_bool step (inject_Z end_)
      then current_interval step (Some parkings) rest
      else current
  end.

Definition get_rerouter_iterator (step : Q) (st : State) : list RerouterInfo :=
  (λ value, mkRerouterInfo (router_id value) (edges value)
                           (current_interval step None (intervals value)))
    <$> (map_to_list (_routers_db st)).*2.

(** ** Loading and initialization (source lines 164-279)

    The additional file is taken as parsed: a list of child elements.  The
    generic rules of [generic_conf] and the expressions allowed in an
    [uncertainty] entry belong to the rule evaluator and are not part of this
    development: the configurations covered are those with an empty
    [generic_conf] and literal [mu] and [sigma]. *)

Fixpoint lstrip (s : string) : string :=
  match s with
  | String c s' => if Ascii.eqb c " "%char then lstrip s' else s
  | EmptyString => EmptyString
  end.

Fixpoint rstrip (s : string) : string :=
  match s with
  | String c s' =>
      match rstrip s' with
      | EmptyString => if Ascii.eqb c " "%char then EmptyString else String c EmptyString
      | r => String c r
      end
  | EmptyString => EmptyString
  end.

(** [s.split(sep)] for a one-character separator. *)
Fixpoint split (sep : ascii) (s : string) : list string :=
  match s with
  | EmptyString => [EmptyString]
  | String c s' =>
      if Ascii.eqb c sep then EmptyString :: split sep s'
      else match split sep s' with
           | w :: ws => String c w :: ws
           | [] => [String c EmptyString]
           end
  end.

Record XmlArea : Type := mkXmlArea {
  area_id : string;
  area_visible : option string;
}.

Record XmlInterval : Type := mkXmlInterval {
  interval_end : Z;                 (* int(interval.attrib['end']) *)
  interval_areas : list XmlArea;
}.

Inductive XmlChild : Type :=
| XmlParkingArea (attrib : Sumo)
| XmlRerouter (id edges_attr : string) (intervals : list XmlInterval)
| XmlOther.

Definition load_interval (interval : XmlInterval) : Z * list (string * bool) :=
  let _end := interval_end interval * 1000 in
  let parkings :=
    (λ area, match area_visible area with
             | Some "true" => (area_id area, true)
             | _ => (area_id area, false)
             end) <$> interval_areas interval in
  (_end, parkings).

(** The loop variables are the three dictionaries being filled; a parking
    holds only its ['sumo'] entry at this point. *)
Definition load_child (opts : Options)
    (acc : gmap string Sumo * gmap string Router * gmap string (list string))
    (child : XmlChild)
    : gmap string Sumo * gmap string Router * gmap string (list string) :=
  let '(parkings, routers, mapping) := acc in
  match child with
  | XmlParkingArea attrib =>
      if decide (sumo_id attrib ∈ blacklist opts) then acc
      else (<[sumo_id attrib := attrib]> parkings, routers, mapping)
  | XmlRerouter id edges_attr xml_intervals =>
      let router_edges := split " "%char (rstrip (lstrip edges_attr)) in
      let mapping :=
        fold_left (λ mapping edge, <[edge := (default [] (mapping !! edge) ++ [id])%list]> mapping)
                  router_edges mapping in
      (parkings,
       <[id := mkRouter id router_edges (load_interval <$> xml_intervals)]> routers,
       mapping)
  | XmlOther => acc
  end.

Definition _load_parkings_and_routers (opts : Options) (xml_tree : list XmlChild)
    : gmap string Sumo * gmap string Router * gmap string (list string) :=
  fold_left (load_child opts) xml_tree (∅, ∅, ∅).

(** The body of the loop that populates one parking: TraCI values, defaults,
    then the specific values of the parking, which are assigned as given. *)
Definition init_parking (opts : Options) (pid : string) (attrib : Sumo)
    (capacity occupancy : Z) (time : Q) : Parking :=
  let parking :=
    mkParking attrib capacity occupancy [(occupancy, time)]
              (gset_to_gmap ∅ (vclasses opts)) (gset_to_gmap ∅ (vclasses opts))
              ∅ no_subscriptions (mkUncertainty 0 0) in
  match specific_conf opts !! pid with
  | Some conf =>
      let parking :=
        match conf_capacity_by_class conf with
        | Some m => with_capacity_by_class m parking
        | None => parking
        end in
      let parking :=
        match conf_subscriptions_by_class conf with
        | Some s => with_subscriptions_by_class s parking
        | None => parking
        end in
      match conf_uncertainty conf with
      | Some u => with_uncertainty u parking
      | None => parking
      end
  | None => parking
  end.

(** [capacity] and [occupancy] are TraCI's [parkingArea.capacity] and
    [parkingArea.occupancy] of each parking. *)
Definition __init__ (options : Options) (xml_tree : list XmlChild)
    (capacity occupancy : string → Z) (time : Q) : State :=
  let '(parkings, routers, mapping) := _load_parkings_and_routers options xml_tree in
  mkState options
          (map_imap (λ pid attrib,
                       Some (init_parking options pid attrib (capacity pid) (occupancy pid) time))
                    parkings)
          routers ∅ ∅ mapping ∅ ∅ None None.

(** ** Travel times between parkings (source lines 655-718) *)

Record Route : Type := mkRoute {
  route_edges : list string;
  travelTime : Q;
}.

(** Python compares tuples [(cost, pid)] lexicographically. *)
Definition tuple_leb (a b : Q * string) : bool :=
  if Qeq_bool a.1 b.1 then String.leb a.2 b.2 else Qle_bool a.1 b.1.

Fixpoint insert_sorted (x : Q * string) (l : list (Q * string)) : list (Q * string) :=
  match l with
  | [] => [x]
  | y :: l' => if tuple_leb y x then y :: insert_sorted x l' else x :: y :: l'
  end.

(** [distances.sort()]: a stable sort; insertion from the right end keeps
    equal tuples in their order. *)
Definition sort_distances (l : list (Q * string)) : list (Q * string) :=
  foldr insert_sorted [] l.

(** One pass of the inner loop.  [findRoute] is TraCI's routing query for
    vType 'passenger', [None] standing for a [TraCIException].  Reading the
    [defaultdict] at [from_edge] creates the entry. *)
Definition travel_time_pair (findRoute : string → string → option Route)
    (from to : string * string * Q) : M unit :=
  let '(from_pid, from_edge, from_end_pos) := from in
  let '(to_pid, to_edge, to_end_pos) := to in
  if decide (from_pid = to_pid) then mret tt
  else if bool_decide (from_edge = to_edge) && Qle_bool to_end_pos from_end_pos then mret tt
  else
    blacklisted ← gets (λ st, default [] (_blacklisted_edges_pairs st !! from_edge));
    modify (with_blacklisted_edges_pairs <[from_edge := blacklisted]>);;
    if decide (to_edge ∈ blacklisted) then mret tt
    else
      route ← match findRoute from_edge to_edge with
              | Some r => mret (Some r)
              | None =>
                  modify (with_blacklisted_edges_pairs
                            <[from_edge := (blacklisted ++ [to_edge])%list]>);;
                  mret None
              end;
      let cost :=
        match route with
        | Some r => match route_edges r with
                    | [] => None
                    | _ :: _ => Some (travelTime r)
                    end
        | None => None
        end in
      match cost with
      | Some c =>
          if Qeq_bool c 0 then mret tt
          else modify (with_static_parking_travel_time
                         (λ m, <[from_pid := (default [] (m !! from_pid) ++ [(c, to_pid)])%list]> m))
      | None => mret tt
      end.

Definition compute_parking_travel_time (findRoute : string → string → option Route)
    : M unit :=
  modify (with_static_parking_travel_time (λ _, ∅));;
  db ← gets _parking_db;
  let parkings :=
    (λ parking : Parking,
       (sumo_id (sumo parking),
        hd EmptyString (split "_"%char (sumo_lane (sumo parking))),
        sumo_endPos (sumo parking))) <$> (map_to_list db).*2 in
  forM_ (λ from, forM_ (travel_time_pair findRoute from) parkings) parkings;;
  modify (with_static_parking_travel_time (fmap sort_distances)).

(** The loop over the stored distances, [parkings] being the list built so
    far.  [num] is falsy when it is [None] or zero. *)
Fixpoint closest_loop (num : option Z) (parkings items : list (Q * string))
    : list (Q * string) :=
  match items with
  | [] => parkings
  | item :: rest =>
      let full :=
        match num with
        | Some n => negb (n =? 0) && (Z.of_nat (length parkings) =? n)
        | None => false
        end in
      if full then parkings else closest_loop num (parkings ++ [item])%list rest
  end.

Definition get_closest_parkings (parking : string) (num : option Z) (st : State)
    : Outcome (list (Q * string)) :=
  if decide (_static_parking_travel_time st = ∅) then Raise TravelTimeNotInitialized
  else
    match _static_parking_travel_time st !! parking with
    | Some distances => Ok (closest_loop num [] distances)
    | None => Ok []
    end.

(** ** The simulation step (source lines 341-351, 355-371, 385-569)

    What TraCI answers during one step. *)

Record VehicleData : Type := mkVehicleData {
  var_road_id : string;
  var_next_stops : list Stop;
  last_step_person_id_list : list string;
}.

Record Traci : Type := mkTraci {
  getTime : Q;
  getDepartedIDList : list string;
  getVehicleClass : string → string;
  getNextStops : string → list Stop;
  getPersonIDList : string → list string;
  getArrivedIDList : list string;
  vehicle_getAllSubscriptionResults : list (string * VehicleData);
  parkingArea_occupancy : string → Z;
  var_parking_starting_vehicles_ids : list string;
  var_parking_ending_vehicles_ids : list string;
}.

Definition is_parking_area (flags : Z) : bool := Z.land flags 128 =? 128.

(** [current_stops] and [_new_stops] of both monitoring loops. *)
Definition parking_stops (stops : list Stop) : list Stop :=
  List.filter (λ stop, is_parking_area (stop_flags stop)) stops.

Definition stop_places (stops : list Stop) : gset string :=
  list_to_set (stopping_place <$> stops).

Definition vehicle_of (vehicle : string) : M Vehicle := fun st =>
  match _vehicles_db st !! vehicle with
  | Some v => (st, Ok v)
  | None => (st, Raise (KeyError vehicle))
  end.

Definition with_road (road : string) (persons : list string) (v : Vehicle) : Vehicle :=
  mkVehicle (veh_id v) (departure v) road (stops v) (history v) (vClass v)
            persons (arrived v) (final_stop_arrival v).

Definition with_stops (current_stops : list Stop) (v : Vehicle) : Vehicle :=
  mkVehicle (veh_id v) (departure v) (edge v) current_stops (history v ++ [stops v])
            (vClass v) (passengers v) (arrived v) (final_stop_arrival v).

Definition with_arrived (step : Q) (v : Vehicle) : Vehicle :=
  mkVehicle (veh_id v) (departure v) (edge v) (stops v) (history v) (vClass v)
            (passengers v) (Some step) (final_stop_arrival v).

Definition with_final_stop_arrival (step : Q) (v : Vehicle) : Vehicle :=
  mkVehicle (veh_id v) (departure v) (edge v) (stops v) (history v) (vClass v)
            (passengers v) (arrived v) (Some step).

(** [self._parking_db[area]['projections_by_class'][v_class].add(vehicle)] *)
Definition add_projection (v_class vehicle area : string) : M unit :=
  p ← parking_of area;
  match projections_by_class p !! v_class with
  | Some vehicles =>
      update_parking area
        (with_projections_by_class (<[v_class := vehicles ∪ {[vehicle]}]> (projections_by_class p)))
  | None => raise (KeyError v_class)
  end.

(** [self._parking_db[area]['projections_by_class'][v_class].remove(vehicle)] *)
Definition remove_projection (v_class vehicle area : string) : M unit :=
  p ← parking_of area;
  match projections_by_class p !! v_class with
  | Some vehicles =>
      if decide (vehicle ∈ vehicles) then
        update_parking area
          (with_projections_by_class (<[v_class := vehicles ∖ {[vehicle]}]> (projections_by_class p)))
      else raise (KeyError vehicle)
  | None => raise (KeyError v_class)
  end.

Definition monitor_departed (traci : Traci) (step : Q) (vehicle : string) : M unit :=
  let v_class := getVehicleClass traci vehicle in
  only ← gets (λ st, only_parkings (_options st));
  if only && bool_decide (v_class ∈ ["bus"; "rail"]) then mret tt
  else
    let current_stops := parking_stops (getNextStops traci vehicle) in
    let _new_stops := stop_places current_stops in
    if only && bool_decide (current_stops = []) then mret tt
    else
      let passengers := getPersonIDList traci vehicle in
      modify (with_passengers_db (λ db, db ∪ list_to_set passengers));;
      modify (with_vehicles_db
                <[vehicle := mkVehicle vehicle step "" current_stops [] v_class
                                       passengers None None]>);;
      forM_ (add_projection v_class vehicle) (elements _new_stops).

Definition _monitor_vehicles (traci : Traci) (step : Q) : M unit :=
  forM_ (monitor_departed traci step) (getDepartedIDList traci);;
  forM_ (λ vehicle, modify (with_vehicles_db (alter (with_arrived step) vehicle)))
        (getArrivedIDList traci).

Definition _is_same_destinations (a_stops b_stops : list Stop) : bool :=
  if negb (Nat.eqb (length a_stops) (length b_stops)) then false
  else forallb (λ ab : Stop * Stop, String.eqb (stopping_place ab.1) (stopping_place ab.2))
               (zip a_stops b_stops).

Definition update_vehicle (step : Q) (item : string * VehicleData) : M unit :=
  let '(vehicle, data) := item in
  _ ← vehicle_of vehicle;
  modify (with_vehicles_db
            (alter (with_road (var_road_id data) (last_step_person_id_list data)) vehicle));;
  modify (with_passengers_db (λ db, db ∪ list_to_set (last_step_person_id_list data)));;
  let current_stops := parking_stops (var_next_stops data) in
  let _new_stops := stop_places current_stops in
  v ← vehicle_of vehicle;
  if _is_same_destinations (stops v) current_stops then mret tt
  else
    let _old_stops := stop_places (stops v) in
    let v_class := vClass v in
    forM_ (remove_projection v_class vehicle) (elements (_old_stops ∖ _new_stops));;
    forM_ (add_projection v_class vehicle) (elements (_new_stops ∖ _old_stops));;
    modify (with_vehicles_db (alter (with_stops current_stops) vehicle));;
    if bool_decide (final_stop_arrival v = None) && bool_decide (current_stops = [])
    then modify (with_vehicles_db (alter (with_final_stop_arrival step) vehicle))
    else mret tt.

Definition _update_vehicles_db (traci : Traci) (step : Q) : M unit :=
  forM_ (update_vehicle step) (vehicle_getAllSubscriptionResults traci).

Definition _check_occupancy (traci : Traci) (step : Q) : M unit :=
  modify (with_parking_db
            (map_imap (λ parking p,
               let occupancy := parkingArea_occupancy traci parking in
               Some (if decide (total_occupancy p ≠ occupancy)
                     then with_total_occupancy occupancy
                            (occupancy_series p ++ [(occupancy, step)]) p
                     else p)))).

(** [history[-1][0][2]], or [None] when the history is empty. *)
Definition _get_parking_area_from_vehicle (vehicle : string) : M (option string) :=
  v ← vehicle_of vehicle;
  match last (history v) with
  | None => mret None
  | Some [] => raise IndexError
  | Some (stop :: _) => mret (Some (stopping_place stop))
  end.

(** Body of the loop over the ending list of the previous step. *)
Definition ending_stop (_to_validate : gset string) (vehicle : string) : M (gset string) :=
  parking_area ← _get_parking_area_from_vehicle vehicle;
  db ← gets _parking_db;
  match parking_area ≫= λ area, (area,.) <$> db !! area with
  | Some (area, p) =>
      v ← vehicle_of vehicle;
      match occupancy_by_class p !! vClass v with
      | Some vehicles =>
          if decide (vehicle ∈ vehicles) then
            update_parking area
              (with_occupancy_by_class
                 (<[vClass v := vehicles ∖ {[vehicle]}]> (occupancy_by_class p)));;
            mret (_to_validate ∪ {[area]})
          else raise (VehicleCannotBeRemoved vehicle area)
      | None => raise (VehicleCannotBeRemoved vehicle area)
      end
  | None => mret _to_validate
  end.

(** Body of the loop over the fresh starting list. *)
Definition starting_stop (_to_validate : gset string) (vehicle : string) : M (gset string) :=
  parking_area ← _get_parking_area_from_vehicle vehicle;
  db ← gets _parking_db;
  match parking_area ≫= λ area, (area,.) <$> db !! area with
  | Some (area, p) =>
      v ← vehicle_of vehicle;
      match occupancy_by_class p !! vClass v with
      | Some vehicles =>
          update_parking area
            (with_occupancy_by_class
               (<[vClass v := vehicles ∪ {[vehicle]}]> (occupancy_by_class p)));;
          mret (_to_validate ∪ {[area]})
      | None => raise (KeyError (vClass v))
      end
  | None => mret _to_validate
  end.

(** The source returns nothing; the embedding hands back the local
    [_to_validate], the parkings whose occupancy the step has checked. *)
Definition _update_parking_db (traci : Traci) (step : Q) : M (gset string) :=
  _check_occupancy traci step;;
  ending ← gets _traci_ending_stop_subscriptions;
  _to_validate ← foldM ending_stop ∅ (default [] ending);
  modify (with_stop_subscriptions
            (Some (var_parking_starting_vehicles_ids traci))
            (Some (var_parking_ending_vehicles_ids traci)));;
  _to_validate ← foldM starting_stop _to_validate (var_parking_starting_vehicles_ids traci);
  forM_ _validate_parking_occupancy (elements _to_validate);;
  mret _to_validate.

(** [step] returns [True] in the source; here it passes on what
    [_update_parking_db] hands back. *)
Definition step (traci : Traci) : M (gset string) :=
  let time := getTime traci in
  _monitor_vehicles traci time;;
  _update_vehicles_db traci time;;
  _update_parking_db traci time.


(** * Specification-side notions *)

Definition sumZ (l : list Z) : Z := foldr Z.add 0 l.

(** Sum of the values of [capacity_by_class]. *)
Definition capacity_sum (m : gmap string Z) : Z := sumZ (map_to_list m).*2.

(** Sum of the sizes of the sets of [occupancy_by_class]. *)
Definition occupancy_sum (m : gmap string (gset string)) : Z :=
  sumZ ((λ item : string * gset string, Z.of_nat (size item.2)) <$> map_to_list m).

(** The occupancy view of a class: the vehicles inside, with the projected
    and the subscribed ones when these are asked for. *)
Definition occupancy_view (p : Parking) (with_projections with_subscriptions : bool)
    (vclass : string) : gset string :=
  default ∅ (occupancy_by_class p !! vclass)
  ∪ (if with_projections then default ∅ (projections_by_class p !! vclass) else ∅)
  ∪ (if with_subscriptions
     then from_option snd ∅ (sub_lookup (subscriptions_by_class p) vclass)
     else ∅).

(** Reserved slots of a class that no vehicle holds yet. *)
Definition unfilled_slots (p : Parking) (with_subscriptions : bool) (vclass : string) : Z :=
  if with_subscriptions then
    match sub_lookup (subscriptions_by_class p) vclass with
    | Some (num, veh) => num - Z.of_nat (size veh)
    | None => 0
    end
  else 0.

(** The remainder of every class with a capacity. *)
Definition remainders (p : Parking) (error : Z) (with_projections with_subscriptions : bool)
    : gmap string Z :=
  map_imap (λ vclass capacity,
              Some (capacity + error
                    - Z.of_nat (size (occupancy_view p with_projections with_subscriptions vclass))
                    - unfilled_slots p with_subscriptions vclass))
           (capacity_by_class p).

(** The per-class mappings that a query walks talk about the same classes. *)
Definition classes_aligned (p : Parking) (with_projections with_subscriptions : bool) : Prop :=
  dom (occupancy_by_class p) = dom (capacity_by_class p)
  ∧ (with_projections = true →
     dom (projections_by_class p) ⊆ dom (capacity_by_class p))
  ∧ (with_subscriptions = true →
     sub_entries (subscriptions_by_class p) = ∅
     ∨ dom (sub_entries (subscriptions_by_class p)) = dom (capacity_by_class p)).

(** The interval that the specification calls active: the first one of the
    list whose end is not before [step]. *)
Fixpoint first_interval_covering (step : Q) (intervals : list (Z * list (string * bool)))
    : option (list (string * bool)) :=
  match intervals with
  | [] => None
  | (end_, parkings) :: rest =>
      if Qle_bool step (inject_Z end_) then Some parkings
      else first_interval_covering step rest
  end.



(** What a step leaves alone in every parking: a parking is registered
    after the step exactly when it was before, with the same capacities. *)
Definition capacities (p : Parking) : gmap string Z * Z :=
  (capacity_by_class p, total_capacity p).

Definition capacities_kept (st st' : State) : Prop :=
  ∀ pid, capacities <$> _parking_db st' !! pid = capacities <$> _parking_db st !! pid.

(** What the reconciliation of the stops leaves alone: the vehicles and the
    set of registered parkings. *)
Definition vehicles_kept (st st' : State) : Prop :=
  _vehicles_db st' = _vehicles_db st
  ∧ dom (_parking_db st') = dom (_parking_db st).

(** What the monitoring of the vehicles leaves alone: the ending list kept
    from the previous step. *)
Definition ending_list_kept (st st' : State) : Prop :=
  _traci_ending_stop_subscriptions st' = _traci_ending_stop_subscriptions st.

(** The parking that a stop event of a vehicle is booked on: the place of
    the first stop of the last stop list in its history. *)
Definition parking_area_of (vehicles : gmap string Vehicle) (vehicle : string)
    : option string :=
  v ← vehicles !! vehicle;
  stops ← last (history v);
  stop ← head stops;
  Some (stopping_place stop).

(** The parking, if registered, that a stop event of a vehicle touches. *)
Definition touched_by (vehicles : gmap string Vehicle) (registered : gset string)
    (vehicle : string) : gset string :=
  match parking_area_of vehicles vehicle with
  | Some area => if decide (area ∈ registered) then {[area]} else ∅
  | None => ∅
  end.

(** Computations that never raise. *)
Definition total {A} (m : M A) : Prop := ∀ st, ∃ st' a, m st = (st', Ok a).

(** [R] relates every state to the state the computation reaches from it,
    whether it returns or raises. *)
Definition preserves (R : State → State → Prop) {A} (m : M A) : Prop :=
  ∀ st, R st (m st).1.

(** The call returned, and the state it reached is the old one except for
    the set object [ref] in the subscriptions of [parking]. *)
Definition touches_one_set_object (parking : string) (p : Parking) (ref : nat)
    (st : State) (result : State * Outcome bool) : Prop :=
  ∃ (b : bool) (s' : Subscriptions),
    result = (with_parking_db <[parking := with_subscriptions_by_class s' p]> st, Ok b)
    ∧ sub_entries s' = sub_entries (subscriptions_by_class p)
    ∧ (∀ r, r ≠ ref → sub_objects s' !! r = sub_objects (subscriptions_by_class p) !! r)
    ∧ (∀ c n r, sub_entries (subscriptions_by_class p) !! c = Some (n, r) → r ≠ ref →
         sub_lookup s' c = sub_lookup (subscriptions_by_class p) c).

(** * Example data *)

Definition example_options : Options :=
  mkOptions [] {["car"; "truck"]} ∅ false.

(** One parking of capacity 10 with 3 places taken, no capacity by class. *)
Definition example_plain : State :=
  __init__ example_options [XmlParkingArea (mkSumo "P1" "e1_0" 20)]
           (λ _, 10) (λ _, 3) 0.

(** A parking split by class: 8 cars, 2 trucks, two cars inside. *)
Definition example_parking : Parking :=
  mkParking (mkSumo "P1" "e1_0" 20) 10 2 [(0, 0%Q); (2, 5%Q)]
            {["car" := {["v1"; "v2"]}; "truck" := ∅]}
            {["car" := ∅; "truck" := ∅]}
            {["car" := 8; "truck" := 2]}
            no_subscriptions (mkUncertainty 0 0).

Definition example_split : State :=
  mkState example_options {["P1" := example_parking]} ∅ ∅ ∅ ∅ ∅ ∅ None None.

(** One reserved car place, held by "v1"; one reserved truck place, free. *)
Definition example_subscriptions : Subscriptions :=
  mkSubscriptions {["car" := (1, 0%nat); "truck" := (1, 1%nat)]}
                  {[0%nat := {["v1"]}; 1%nat := ∅]}.

Definition example_subscribed : State :=
  mkState example_options
          {["P1" := with_subscriptions_by_class example_subscriptions example_parking]}
          ∅ ∅ ∅ ∅ ∅ ∅ None None.

(** A mapping whose two tuples hold the same set object, as
    [dict.fromkeys(classes, (1, set()))] builds it. *)
Definition shared_subscriptions : Subscriptions :=
  mkSubscriptions {["car" := (1, 0%nat); "truck" := (1, 0%nat)]} {[0%nat := ∅]}.

(** A rerouter over two edges with two intervals in file order: "A" is
    offered until second 1, "B" until second 2. *)
Definition example_rerouter_xml : list XmlChild :=
  [XmlRerouter "R1" " e1 e2 "
     [mkXmlInterval 1 [mkXmlArea "A" (Some "true")];
      mkXmlInterval 2 [mkXmlArea "B" None]]].

Definition example_rerouters : State :=
  __init__ example_options example_rerouter_xml (λ _, 0) (λ _, 0) 0.

(** A configuration whose specific values give "P1" a capacity for cars
    only, although the classes are "car" and "truck". *)
Definition misconfigured_options : Options :=
  mkOptions [] {["car"; "truck"]}
            {["P1" := mkSpecificConf (Some {["car" := 10]}) None None]} false.

Definition example_misconfigured : State :=
  __init__ misconfigured_options [XmlParkingArea (mkSumo "P1" "e1_0" 20)]
           (λ _, 10) (λ _, 0) 0.

(** Three parkings on three edges; from "e1" the edge "e3" is nearer than
    "e2", and nothing leads back to "e1". *)
Definition example_lots_xml : list XmlChild :=
  [XmlParkingArea (mkSumo "P1" "e1_0" 20);
   XmlParkingArea (mkSumo "P2" "e2_0" 20);
   XmlParkingArea (mkSumo "P3" "e3_1" 35)].

Definition example_lots : State :=
  __init__ example_options example_lots_xml (λ _, 10) (λ _, 0) 0.

Definition example_findRoute (from_edge to_edge : string) : option Route :=
  match from_edge, to_edge with
  | "e1", "e2" => Some (mkRoute ["e1"; "e4"; "e2"] 30)
  | "e1", "e3" => Some (mkRoute ["e1"; "e3"] 12)
  | "e2", "e3" => Some (mkRoute ["e2"; "e3"] 7)
  | _, _ => None
  end.

Definition example_built : State :=
  (compute_parking_travel_time example_findRoute example_lots).1.

(** A planned stop at a parking area (flags: parking and parkingarea). *)
Definition stop_at (lane place : string) : Stop := mkStop lane 20 place 130 60 0.

(** Step 1: the car "v1" departs, bound for "P1". *)
Definition example_traci_departure : Traci :=
  mkTraci 1 ["v1"] (λ _, "car") (λ _, [stop_at "e1_0" "P1"]) (λ _, []) []
          [] (λ _, 0) [] [].

(** Step 2: "v1" starts its stop at "P1" with its plan unchanged; TraCI
    counts one vehicle in "P1". *)
Definition example_traci_first_stop : Traci :=
  mkTraci 2 [] (λ _, "car") (λ _, []) (λ _, []) []
          [("v1", mkVehicleData "e1" [stop_at "e1_0" "P1"] [])]
          (λ pid, if String.eqb pid "P1" then 1 else 0) ["v1"] [].

(** Step 2, otherwise: "v1" starts its stop at "P1" while its plan already
    names "P2" only. *)
Definition example_traci_next_stop : Traci :=
  mkTraci 2 [] (λ _, "car") (λ _, []) (λ _, []) []
          [("v1", mkVehicleData "e1" [stop_at "e2_0" "P2"] [])]
          (λ pid, if String.eqb pid "P1" then 1 else 0) ["v1"] [].

Definition example_departed : State := (step example_traci_departure example_lots).1.

(** * Further operations and notions *)

(** [get_parking_access] (source lines 373-381): the lane of a parking. *)
Definition get_parking_access (parking : string) (st : State) : Outcome string :=
  match _parking_db st !! parking with
  | Some p => Ok (sumo_lane (sumo p))
  | None => Raise (ParkingDoesNotExist parking)
  end.

(** [get_vehicle] (source lines 617-624): a copy of the vehicle, or [None]. *)
Definition get_vehicle (vehicle : string) (st : State) : option Vehicle :=
  _vehicles_db st !! vehicle.

(** The flags of a stop as the docstring of [is_parking_area] composes them,
    each argument being 0 or 1. *)
Definition stop_flags_of
    (stopped parking personTriggered containerTriggered
     isBusStop isContainerStop chargingStation parkingarea : bool) : Z :=
  1 * Z.b2z stopped + 2 * Z.b2z parking + 4 * Z.b2z personTriggered
  + 8 * Z.b2z containerTriggered + 16 * Z.b2z isBusStop
  + 32 * Z.b2z isContainerStop + 64 * Z.b2z chargingStation
  + 128 * Z.b2z parkingarea.

(** Sum of the reserved counts of [subscriptions_by_class]. *)
Definition reserved_sum (s : Subscriptions) : Z :=
  sumZ ((λ item : string * (Z * gset string), item.2.1) <$> map_to_list (sub_view s)).

(** What the occupancy check asks of a parking. *)
Definition occupancy_valid (opts : Options) (p : Parking) : Prop :=
  dom (occupancy_by_class p) = vclasses opts
  ∧ (capacity_by_class p ≠ ∅ →
     ∀ v_class vehicles, occupancy_by_class p !! v_class = Some vehicles →
       ∃ capacity, capacity_by_class p !! v_class = Some capacity
                   ∧ Z.of_nat (size vehicles) ≤ capacity)
  ∧ occupancy_sum (occupancy_by_class p) = total_occupancy p.

(** An interval that has not ended at [step]. *)
Definition running (step : Q) (interval : Z * list (string * bool)) : Prop :=
  Qle_bool step (inject_Z interval.1) = true.

(** The part of a parking that only initialization and the setters write. *)
Definition configuration (p : Parking)
    : Sumo * Z * gmap string Z * Subscriptions * Uncertainty :=
  (sumo p, total_capacity p, capacity_by_class p, subscriptions_by_class p, uncertainty p).

(** What a step leaves alone: the options, the rerouters, the travel-time
    structure with its blacklist, the set of registered parkings and the
    configuration of each. *)
Definition configuration_kept (st st' : State) : Prop :=
  _options st' = _options st
  ∧ _routers_db st' = _routers_db st
  ∧ _edges_routers_mapping st' = _edges_routers_mapping st
  ∧ _blacklisted_edges_pairs st' = _blacklisted_edges_pairs st
  ∧ _static_parking_travel_time st' = _static_parking_travel_time st
  ∧ ∀ pid, configuration <$> _parking_db st' !! pid
           = configuration <$> _parking_db st !! pid.

(** What a step only adds to: the tracked vehicles and the passengers. *)
Definition tracking_grows (st st' : State) : Prop :=
  dom (_vehicles_db st) ⊆ dom (_vehicles_db st')
  ∧ _passengers_db st ⊆ _passengers_db st'.

(** TraCI's counter of a parking with the samples taken of it. *)
Definition counter (p : Parking) : Z * list (Z * Q) :=
  (total_occupancy p, occupancy_series p).

Definition counter_kept (st st' : State) : Prop :=
  ∀ pid, counter <$> _parking_db st' !! pid = counter <$> _parking_db st !! pid.

(** The last sample of the series is the current counter. *)
Definition series_up_to_date (p : Parking) : Prop :=
  ∃ time, last (occupancy_series p) = Some (total_occupancy p, time).

(** A run of the driver: one [step] per simulation step, as long as none
    raises. *)
Definition steps (tracis : list Traci) : M unit :=
  forM_ (λ traci, step traci ≫= λ _, mret tt) tracis.

(** The part of a vehicle that its stop plan makes up. *)
Definition plan (v : Vehicle) : list Stop * list (list Stop) * string * option Q :=
  (stops v, history v, vClass v, final_stop_arrival v).

(** Whether [_monitor_vehicles] takes up a departed vehicle: not when only
    vehicles bound for a parking are wanted and the vehicle is a bus, a
    train, or has no stop at a parking area. *)
Definition accepted (opts : Options) (traci : Traci) (vehicle : string) : bool :=
  negb (only_parkings opts
        && (bool_decide (getVehicleClass traci vehicle ∈ ["bus"; "rail"])
            || bool_decide (parking_stops (getNextStops traci vehicle) = []))).

(** What a write to a parking leaves alone. *)
Definition tracking_kept (st st' : State) : Prop :=
  _options st' = _options st
  ∧ _vehicles_db st' = _vehicles_db st
  ∧ _passengers_db st' = _passengers_db st.

(** The set that [projections_by_class] of a parking holds for a class. *)
Definition projected (st : State) (area v_class : string) : option (gset string) :=
  _parking_db st !! area ≫= λ p, projections_by_class p !! v_class.

(** The projections are exact: a vehicle is projected on a parking, under a
    class, exactly when it is tracked with that class and its current stops
    name the parking. *)
Definition projections_exact (st : State) : Prop :=
  ∀ area v_class vehicles vehicle,
    projected st area v_class = Some vehicles →
    (vehicle ∈ vehicles
     ↔ ∃ v, _vehicles_db st !! vehicle = Some v
            ∧ vClass v = v_class ∧ area ∈ stop_places (stops v)).

(** What leaves the projections as they are. *)
Definition projections_kept (st st' : State) : Prop :=
  _vehicles_db st' = _vehicles_db st
  ∧ ∀ area, projections_by_class <$> _parking_db st' !! area
            = projections_by_class <$> _parking_db st !! area.

(** The edge of a parking: its lane up to the first underscore. *)
Definition edge_of (p : Parking) : string :=
  hd EmptyString (split "_"%char (sumo_lane (sumo p))).

(** What an entry [(cost, to_pid)] stored for [from_pid] stands for: two
    registered parkings with these ids, and a route that TraCI finds between
    their edges, with edges of its own and [cost], not zero, as travel time. *)
Definition reachable (findRoute : string → string → option Route)
    (db : gmap string Parking) (from_pid : string) (item : Q * string) : Prop :=
  ∃ from to route,
    from ∈ (map_to_list db).*2 ∧ to ∈ (map_to_list db).*2
    ∧ sumo_id (sumo from) = from_pid ∧ sumo_id (sumo to) = item.2
    ∧ from_pid ≠ item.2
    ∧ findRoute (edge_of from) (edge_of to) = Some route
    ∧ route_edges route ≠ []
    ∧ travelTime route = item.1
    ∧ Qeq_bool item.1 0 = false.

(** The set that [occupancy_by_class] of a parking holds for a class. *)
Definition occupants (st : State) (area v_class : string) : option (gset string) :=
  _parking_db st !! area ≫= λ p, occupancy_by_class p !! v_class.

(** A stop event of a vehicle is booked on a parking, under a class, when
    the vehicle is tracked with that class, its last recorded stop list
    starts at that parking, and the parking is registered. *)
Definition booked (st : State) (vehicle area v_class : string) : Prop :=
  vClass <$> _vehicles_db st !! vehicle = Some v_class
  ∧ parking_area_of (_vehicles_db st) vehicle = Some area
  ∧ area ∈ dom (_parking_db st).

#[global] Instance booked_dec st vehicle area v_class :
  Decision (booked st vehicle area v_class).
Proof. unfold booked. apply _. Defined.

Definition booked_among (st : State) (area v_class : string) (vehicles : list string)
    : gset string :=
  list_to_set (filter (λ vehicle, booked st vehicle area v_class) vehicles).

(** The departed vehicle "v1" has changed its plan, and TraCI has reported
    the end of its stop, which the monitor has never seen to start. *)
Definition example_leaving : State :=
  with_stop_subscriptions None (Some ["v1"])
    (_update_vehicles_db example_traci_next_stop 2 example_departed).1.

(** * Properties *)

(** ** Running computations *)

Lemma bind_Ok {A B} (m : M A) (f : A → M B) st st1 a :
  m st = (st1, Ok a) → (m ≫= f) st = f a st1.
Proof. intros H. unfold mbind, M_bind. by rewrite H. Qed.

Lemma bind_Raise {A B} (m : M A) (f : A → M B) st st1 e :
  m st = (st1, Raise e) → (m ≫= f) st = (st1, Raise e).
Proof. intros H. unfold mbind, M_bind. by rewrite H. Qed.

Lemma bind_Ok_inv {A B} (m : M A) (f : A → M B) st st' b :
  (m ≫= f) st = (st', Ok b) → ∃ st1 a, m st = (st1, Ok a) ∧ f a st1 = (st', Ok b).
Proof.
  unfold mbind, M_bind. destruct (m st) as [st1 [a|e]] eqn:E; [eauto | discriminate].
Qed.

Lemma parking_of_Some parking p st :
  _parking_db st !! parking = Some p → parking_of parking st = (st, Ok p).
Proof. intros H. unfold parking_of. by rewrite H. Qed.

Lemma update_parking_Some parking f p st :
  _parking_db st !! parking = Some p →
  update_parking parking f st = (with_parking_db <[parking := f p]> st, Ok tt).
Proof.
  intros H. unfold update_parking, modify, with_parking_db.
  by rewrite (alter_alt_Some _ _ _ _ H).
Qed.

(** ** Lookup of a parking and of its projections *)

(** C8 (as the code has it): [get_parking] never raises; it returns the
    parking stored under the id, and [None] when the id is not registered. *)
Theorem get_parking_returns_lookup (parking : string) (st : State) :
  get_parking parking st = Ok (_parking_db st !! parking).
Proof. unfold get_parking. by destruct (_parking_db st !! parking). Qed.

(** C3: [get_parking_projections] reads the key ['projection_by_class'],
    which no parking has (the field is ['projections_by_class']): for a
    registered parking the call ends in a [KeyError], and for an unknown one
    in the "does not exist" exception.  It never returns the projections. *)
Theorem get_parking_projections_always_raises (parking : string) (st : State) :
  get_parking_projections parking st =
    match _parking_db st !! parking with
    | Some _ => Raise (KeyError "projection_by_class")
    | None => Raise (ParkingDoesNotExist parking)
    end.
Proof. unfold get_parking_projections. by destruct (_parking_db st !! parking). Qed.

(** The failing input: a parking as [__init__] leaves it has its projections
    under ['projections_by_class'], and the query raises. *)
Example get_parking_projections_registered :
  ∃ p, _parking_db example_plain !! "P1" = Some p
       ∧ getitem p "projections_by_class" = Some (VVehicles {["car" := ∅; "truck" := ∅]})
       ∧ get_parking_projections "P1" example_plain = Raise (KeyError "projection_by_class").
Proof. eexists. repeat split; vm_compute; reflexivity. Qed.

(** ** Set and validate *)

(** C2 (as the code has it): the setters first store the new mapping and
    then validate it, and nothing restores the old one.  For a registered
    parking, when validation of the new mapping raises, the setter raises the
    same exception, the parking holds the new mapping with the rest of the
    state as before, and the getter returns the new mapping afterwards. *)
Theorem setters_store_before_validating
    (parking : string) (p : Parking) (st : State)
    (Hp : _parking_db st !! parking = Some p) :
  (∀ capacities e,
     check_parking_capacity (_options st) parking
       (with_capacity_by_class capacities p) = Raise e →
     set_parking_capacity_vclass parking capacities st
     = (with_parking_db <[parking := with_capacity_by_class capacities p]> st, Raise e)
     ∧ get_parking_capacity_vclass parking
         (set_parking_capacity_vclass parking capacities st).1 = Ok capacities)
  ∧
  (∀ subscriptions e,
     check_parking_subscriptions (_options st) parking
       (with_subscriptions_by_class subscriptions p) = Raise e →
     set_parking_subscriptions parking subscriptions st
     = (with_parking_db <[parking := with_subscriptions_by_class subscriptions p]> st,
        Raise e)
     ∧ get_parking_subscriptions parking
         (set_parking_subscriptions parking subscriptions st).1 = Ok subscriptions).
Proof.
  split.
  - intros capacities e He.
    assert (set_parking_capacity_vclass parking capacities st
            = (with_parking_db <[parking := with_capacity_by_class capacities p]> st,
               Raise e)) as Hrun.
    { unfold set_parking_capacity_vclass.
      rewrite (bind_Ok _ _ st st (_parking_db st)) by done. rewrite Hp.
      erewrite bind_Ok by (by apply update_parking_Some).
      unfold _validate_parking_capacity.
      erewrite bind_Ok by (apply parking_of_Some; cbn; apply lookup_insert_eq).
      erewrite bind_Ok by reflexivity.
      unfold lift. cbn. by rewrite He. }
    split; [done|]. rewrite Hrun. unfold get_parking_capacity_vclass. cbn.
    by rewrite lookup_insert_eq.
  - intros subscriptions e He.
    assert (set_parking_subscriptions parking subscriptions st
            = (with_parking_db
                 <[parking := with_subscriptions_by_class subscriptions p]> st,
               Raise e)) as Hrun.
    { unfold set_parking_subscriptions.
      rewrite (bind_Ok _ _ st st (_parking_db st)) by done. rewrite Hp.
      erewrite bind_Ok by (by apply update_parking_Some).
      unfold _validate_parking_subscriptions.
      erewrite bind_Ok by (apply parking_of_Some; cbn; apply lookup_insert_eq).
      erewrite bind_Ok by reflexivity.
      unfold lift. cbn. by rewrite He. }
    split; [done|]. rewrite Hrun. unfold get_parking_subscriptions. cbn.
    by rewrite lookup_insert_eq.
Qed.

(** ** Free places without a split by class *)

(** C4: for a registered parking without capacities by class, the query
    with uncertainty, projections and subscriptions all off returns
    [total_capacity - total_occupancy], whatever class is asked for. *)
Theorem get_free_places_plain
    (draw : Z) (parking : string) (vclass : option string) (p : Parking) (st : State)
    (Hp : _parking_db st !! parking = Some p)
    (Hcap : capacity_by_class p = ∅) :
  get_free_places draw parking false vclass false false st
  = Ok (FreeTotal (total_capacity p - total_occupancy p)).
Proof.
  unfold get_free_places. rewrite Hp. cbn.
  destruct (decide (capacity_by_class p ≠ ∅)) as [Hne|_]; [done|].
  do 2 f_equal. lia.
Qed.

Lemma get_free_places_plain_witness :
  get_free_places 0 "P1" false None false false example_plain = Ok (FreeTotal 7).
Proof.
  refine (get_free_places_plain 0 "P1" None
            (init_parking example_options "P1" (mkSumo "P1" "e1_0" 20) 10 3 0)
            example_plain _ _); vm_compute; reflexivity.
Defined.

(** ** Subscribing and unsubscribing vehicles *)

Lemma with_parking_db_id (parking : string) (p : Parking) (st : State) :
  _parking_db st !! parking = Some p →
  with_parking_db
    <[parking := with_subscriptions_by_class (subscriptions_by_class p) p]> st = st.
Proof.
  intros Hp. destruct st as [o db r v ps m b t s e]; cbn in *.
  unfold with_parking_db; cbn. f_equal.
  apply insert_id. rewrite Hp. by destruct p.
Qed.

(** C6: for a registered parking, subscribing a vehicle to a class
    - raises the "not initialized" exception when the class has no entry in
      [subscriptions_by_class];
    - returns [False] and leaves the whole state as it is when the vehicle
      already holds a reservation, or when the reservation set holds at least
      the reserved count of vehicles;
    - otherwise returns [True], and the class then reads the same reserved
      count with the vehicle added to its set. *)
Theorem subscribe_vehicle_to_parking_spec
    (parking vclass vehicle : string) (p : Parking) (st : State)
    (Hp : _parking_db st !! parking = Some p) :
  (sub_lookup (subscriptions_by_class p) vclass = None →
   subscribe_vehicle_to_parking parking vclass vehicle st
   = (st, Raise (VClassNotInitialized vclass parking)))
  ∧
  (∀ num vehicles,
     sub_lookup (subscriptions_by_class p) vclass = Some (num, vehicles) →
     vehicle ∈ vehicles ∨ num ≤ Z.of_nat (size vehicles) →
     subscribe_vehicle_to_parking parking vclass vehicle st = (st, Ok false))
  ∧
  (∀ num vehicles,
     sub_lookup (subscriptions_by_class p) vclass = Some (num, vehicles) →
     vehicle ∉ vehicles → Z.of_nat (size vehicles) < num →
     ∃ st' p',
       subscribe_vehicle_to_parking parking vclass vehicle st = (st', Ok true)
       ∧ _parking_db st' !! parking = Some p'
       ∧ sub_lookup (subscriptions_by_class p') vclass
         = Some (num, vehicles ∪ {[vehicle]})).
Proof.
  unfold sub_lookup, subscribe_vehicle_to_parking.
  rewrite (bind_Ok _ _ st st (_parking_db st)) by done. rewrite Hp.
  destruct (sub_entries (subscriptions_by_class p) !! vclass) as [[cap ref]|] eqn:He.
  - split; [done|]. split.
    + intros num vehicles [= <- <-] Hfull.
      destruct (decide _) as [|Hnotin]; [done|].
      destruct (decide _) as [Hlt|]; [|done].
      destruct Hfull; [done | lia].
    + intros num vehicles [= <- <-] Hnotin Hlt.
      destruct (decide _) as [|_]; [done|].
      destruct (decide _) as [_|]; [|done].
      erewrite bind_Ok by (by apply update_parking_Some).
      eexists _, _. split; [reflexivity|]. cbn.
      split; [apply lookup_insert_eq|]. cbn.
      by rewrite He, lookup_total_insert_eq.
  - split; [done|]. split; intros; discriminate.
Qed.

Lemma subscribe_vehicle_to_parking_witness :
  subscribe_vehicle_to_parking "P1" "car" "v9" example_subscribed
  = (example_subscribed, Ok false).
Proof.
  refine (proj1 (proj2 (subscribe_vehicle_to_parking_spec "P1" "car" "v9"
            (with_subscriptions_by_class example_subscriptions example_parking)
            example_subscribed _)) 1 {["v1"]} _ _).
  - vm_compute; reflexivity.
  - vm_compute; reflexivity.
  - right. vm_compute. discriminate.
Defined.

(** C10 (as the code has it): for a registered parking and a class with an
    entry [(num, ref)], subscribing and unsubscribing a vehicle never raise
    and change at most the set object [ref] of that parking: the result state
    is the old one with [subscriptions_by_class] of that parking replaced by
    a mapping with the same tuples (reserved counts and references) in which
    every other set object is as before.  So every class whose tuple does
    not refer to the same set object reads as before. *)
Theorem subscriptions_touch_one_set_object
    (parking vclass vehicle : string) (p : Parking) (st : State) (num : Z) (ref : nat)
    (Hp : _parking_db st !! parking = Some p)
    (He : sub_entries (subscriptions_by_class p) !! vclass = Some (num, ref)) :
  touches_one_set_object parking p ref st
    (subscribe_vehicle_to_parking parking vclass vehicle st)
  ∧ touches_one_set_object parking p ref st
      (remove_subscribed_vehicle parking vclass vehicle st).
Proof.
  assert (Hsame : ∀ b, touches_one_set_object parking p ref st (st, Ok b)).
  { intros b. exists b, (subscriptions_by_class p).
    by rewrite with_parking_db_id. }
  assert (Hset : ∀ b vehicles',
    touches_one_set_object parking p ref st
      (with_parking_db
         <[parking := with_subscriptions_by_class
                        (set_object ref vehicles' (subscriptions_by_class p)) p]> st,
       Ok b)).
  { intros b vehicles'. eexists b, _. split; [reflexivity|]. cbn.
    split; [done|]. split.
    - intros r Hr. by rewrite lookup_insert_ne.
    - intros c n r Hc Hr. unfold sub_lookup. cbn. rewrite Hc.
      by rewrite lookup_total_insert_ne. }
  split.
  - unfold subscribe_vehicle_to_parking.
    rewrite (bind_Ok _ _ st st (_parking_db st)) by done. rewrite Hp, He.
    destruct (decide _); [apply Hsame|].
    destruct (decide _); [|apply Hsame].
    erewrite bind_Ok by (by apply update_parking_Some). apply Hset.
  - unfold remove_subscribed_vehicle.
    rewrite (bind_Ok _ _ st st (_parking_db st)) by done. rewrite Hp, He.
    destruct (decide _); [|apply Hsame].
    erewrite bind_Ok by (by apply update_parking_Some). apply Hset.
Qed.

Lemma subscriptions_touch_one_set_object_witness :
  ∃ (b : bool) (s' : Subscriptions),
    subscribe_vehicle_to_parking "P1" "truck" "v7" example_subscribed
    = (with_parking_db
         <[ "P1" := with_subscriptions_by_class s'
                      (with_subscriptions_by_class example_subscriptions example_parking) ]>
         example_subscribed, Ok b)
    ∧ sub_lookup s' "car" = Some (1, {["v1"]}).
Proof.
  destruct (proj1 (subscriptions_touch_one_set_object "P1" "truck" "v7"
              (with_subscriptions_by_class example_subscriptions example_parking)
              example_subscribed 1 1%nat eq_refl eq_refl))
    as (b & s' & Hrun & _ & _ & Hothers).
  exists b, s'. split; [exact Hrun|].
  rewrite (Hothers "car" 1 0%nat eq_refl); [reflexivity | discriminate].
Defined.

(** C10, as stated, fails: when the mapping handed to the setter holds one
    set object under two classes, the stored copy shares it too; a vehicle
    subscribed to "car" then shows up in the reservation set of "truck". *)
Lemma shared_set_object_counterexample :
  ∃ st1 st2 s1 s2,
    set_parking_subscriptions "P1" shared_subscriptions example_split = (st1, Ok tt)
    ∧ subscribe_vehicle_to_parking "P1" "car" "v1" st1 = (st2, Ok true)
    ∧ get_parking_subscriptions "P1" st1 = Ok s1
    ∧ get_parking_subscriptions "P1" st2 = Ok s2
    ∧ sub_lookup s1 "truck" = Some (1, ∅)
    ∧ sub_lookup s2 "truck" = Some (1, {["v1"]})
    ∧ sub_lookup s2 "truck" ≠ sub_lookup s1 "truck".
Proof.
  eexists _, _, _, _.
  split; [vm_compute; reflexivity|].
  split; [vm_compute; reflexivity|].
  split; [vm_compute; reflexivity|].
  split; [vm_compute; reflexivity|].
  split; [vm_compute; reflexivity|].
  split; [vm_compute; reflexivity|].
  vm_compute. discriminate.
Qed.

(** C2, as stated, fails: a capacity mapping without the class "truck" is
    rejected, and yet it is what the getter returns afterwards. *)
Lemma setter_keeps_rejected_mapping_counterexample :
  ∃ st',
    set_parking_capacity_vclass "P1" {["car" := 10]} example_split
    = (st', Raise (VClassesMismatch "capacity_by_class" "P1"))
    ∧ get_parking_capacity_vclass "P1" example_split = Ok {["car" := 8; "truck" := 2]}
    ∧ get_parking_capacity_vclass "P1" st' = Ok {["car" := 10]}.
Proof.
  eexists. split; [vm_compute; reflexivity|].
  split; vm_compute; reflexivity.
Qed.

Lemma setters_store_before_validating_witness :
  set_parking_capacity_vclass "P1" {["car" := 10]} example_split
  = (with_parking_db
       <[ "P1" := with_capacity_by_class {["car" := 10]} example_parking ]> example_split,
     Raise (VClassesMismatch "capacity_by_class" "P1")).
Proof.
  refine (proj1 (proj1 (setters_store_before_validating "P1" example_parking
                          example_split _) {["car" := 10]} _ _));
    vm_compute; reflexivity.
Defined.

(** C8, as stated, fails: looking up an id that is not registered returns
    [None]; no exception is raised. *)
Lemma get_parking_absent_counterexample :
  _parking_db example_plain !! "P2" = None
  ∧ get_parking "P2" example_plain = Ok None
  ∧ ¬ is_Raise (get_parking "P2" example_plain).
Proof.
  split; [vm_compute; reflexivity|].
  split; [vm_compute; reflexivity|].
  intros [e He]. vm_compute in He. discriminate.
Qed.

(** ** Rerouters *)

(** When the first interval has ended before [step], the loop stops there
    and yields that interval. *)
Lemma current_interval_ended (step : Q) end_ parkings rest :
  Qle_bool step (inject_Z end_) = false → parkings ≠ [] →
  current_interval step None ((end_, parkings) :: rest) = Some parkings.
Proof. intros Hle Hne. cbn. rewrite Hle. by destruct parkings. Qed.

(** While [step] is not after the end of an interval, the loop takes its
    offer and moves on to the next one. *)
Lemma current_interval_running (step : Q) end_ parkings rest current :
  Qle_bool step (inject_Z end_) = true →
  current_interval step current ((end_, parkings) :: rest)
  = current_interval step (Some parkings) rest.
Proof. intros Hle. cbn. by rewrite Hle. Qed.

(** C9: the loop over the intervals keeps overwriting [current] while
    [step <= end] holds and stops at the first interval that ended before
    [step], so on intervals in time order it does not yield the first
    interval that covers [step].  With "A" until 1000 and "B" until 2000 the
    iterator yields the rerouter's id and edges, but offers "B" at step 500
    and "A" at step 1500; the first interval whose end is not before the step
    is "A" at 500 and "B" at 1500. *)
Theorem get_rerouter_iterator_wrong_interval :
  _routers_db example_rerouters !! "R1"
  = Some (mkRouter "R1" ["e1"; "e2"] [(1000, [("A", true)]); (2000, [("B", false)])])
  ∧ get_rerouter_iterator 500 example_rerouters
    = [mkRerouterInfo "R1" ["e1"; "e2"] (Some [("B", false)])]
  ∧ first_interval_covering 500 [(1000, [("A", true)]); (2000, [("B", false)])]
    = Some [("A", true)]
  ∧ get_rerouter_iterator 1500 example_rerouters
    = [mkRerouterInfo "R1" ["e1"; "e2"] (Some [("A", true)])]
  ∧ first_interval_covering 1500 [(1000, [("A", true)]); (2000, [("B", false)])]
    = Some [("B", false)].
Proof. repeat split; vm_compute; reflexivity. Qed.

(** ** Free places by class *)

Lemma sub_view_lookup (s : Subscriptions) (vclass : string) :
  sub_view s !! vclass = sub_lookup s vclass.
Proof.
  unfold sub_view, sub_lookup. rewrite lookup_fmap.
  by destruct (sub_entries s !! vclass) as [[num ref]|].
Qed.

Lemma sub_view_empty (s : Subscriptions) : sub_view s = ∅ ↔ sub_entries s = ∅.
Proof. unfold sub_view. apply fmap_empty_iff. Qed.

Lemma foldO_add_projections (items : list (string * gset string)) :
  ∀ (total : Z) (occupancy : gmap string (gset string)),
    NoDup items.*1 →
    (∀ k, k ∈ items.*1 → is_Some (occupancy !! k)) →
    ∃ total' occupancy',
      foldO add_projections (total, occupancy) items = Ok (total', occupancy')
      ∧ ∀ k, occupancy' !! k
             = (λ o, o ∪ default ∅ ((list_to_map items : gmap string (gset string)) !! k))
                 <$> occupancy !! k.
Proof.
  induction items as [|[k0 v0] rest IH]; intros total occupancy Hnd Hdom.
  - exists total, occupancy. split; [done|]. intros k. cbn. rewrite lookup_empty. cbn.
    destruct (occupancy !! k); cbn; [|done]. by rewrite (right_id_L ∅ (∪)).
  - apply NoDup_cons in Hnd as [Hk0 Hnd].
    destruct (Hdom k0) as [o0 Ho0]; [apply list_elem_of_here|].
    cbn [foldO add_projections]. rewrite Ho0.
    destruct (IH (total + Z.of_nat (size v0)) (<[k0 := o0 ∪ v0]> occupancy) Hnd)
      as (total' & occupancy' & Hrun & Hlook).
    { intros k Hk. apply lookup_insert_is_Some'. right. apply Hdom. by apply list_elem_of_further. }
    exists total', occupancy'. split; [done|]. intros k. rewrite Hlook.
    cbn [list_to_map foldr]. cbn.
    destruct (decide (k = k0)) as [->|Hne].
    + rewrite !lookup_insert_eq, Ho0. cbn.
      rewrite (not_elem_of_list_to_map_1 _ _ Hk0). cbn. by rewrite (right_id_L ∅ (∪)).
    + by rewrite !lookup_insert_ne.
Qed.

Lemma foldO_add_subscriptions (items : list (string * (Z * gset string))) :
  ∀ (subscriptions : gmap string Z) (occupancy : gmap string (gset string))
    (total partial : Z),
    NoDup items.*1 →
    (∀ k, k ∈ items.*1 → is_Some (occupancy !! k)) →
    ∃ subscriptions' occupancy' total' partial',
      foldO add_subscriptions (subscriptions, occupancy, total, partial) items
      = Ok (subscriptions', occupancy', total', partial')
      ∧ (∀ k, subscriptions' !! k
              = match (list_to_map items : gmap string (Z * gset string)) !! k with
                | Some (num, veh) => Some (num - Z.of_nat (size veh))
                | None => subscriptions !! k
                end)
      ∧ (∀ k, occupancy' !! k
              = (λ o, o ∪ from_option snd ∅
                            ((list_to_map items : gmap string (Z * gset string)) !! k))
                  <$> occupancy !! k).
Proof.
  induction items as [|[k0 [num0 veh0]] rest IH];
    intros subscriptions occupancy total partial Hnd Hdom.
  - exists subscriptions, occupancy, total, partial. split; [done|].
    split; intros k; cbn; rewrite lookup_empty; [done|]. cbn.
    destruct (occupancy !! k); cbn; [|done]. by rewrite (right_id_L ∅ (∪)).
  - apply NoDup_cons in Hnd as [Hk0 Hnd].
    destruct (Hdom k0) as [o0 Ho0]; [apply list_elem_of_here|].
    cbn [foldO add_subscriptions]. rewrite Ho0.
    destruct (IH (<[k0 := num0 - Z.of_nat (size veh0)]> subscriptions)
                 (<[k0 := o0 ∪ veh0]> occupancy)
                 (total + num0) (partial + (num0 - Z.of_nat (size veh0))) Hnd)
      as (subscriptions' & occupancy' & total' & partial' & Hrun & Hsub & Hocc).
    { intros k Hk. apply lookup_insert_is_Some'. right. apply Hdom. by apply list_elem_of_further. }
    exists subscriptions', occupancy', total', partial'. split; [done|].
    split; intros k; [rewrite Hsub | rewrite Hocc]; cbn [list_to_map foldr]; cbn.
    + destruct (decide (k = k0)) as [->|Hne].
      * by rewrite (not_elem_of_list_to_map_1 _ _ Hk0), !lookup_insert_eq.
      * by rewrite !lookup_insert_ne.
    + destruct (decide (k = k0)) as [->|Hne].
      * rewrite !lookup_insert_eq, Ho0. cbn.
        rewrite (not_elem_of_list_to_map_1 _ _ Hk0). cbn. by rewrite (right_id_L ∅ (∪)).
      * by rewrite !lookup_insert_ne.
Qed.

Lemma foldO_subtract_occupancy (error : Z) (with_subscriptions : bool)
    (subscriptions : gmap string Z) (items : list (string * gset string)) :
  ∀ (current_capacity : gmap string Z),
    NoDup items.*1 →
    (∀ k, k ∈ items.*1 → is_Some (current_capacity !! k)) →
    (with_subscriptions && bool_decide (subscriptions ≠ ∅) = true →
     ∀ k, k ∈ items.*1 → is_Some (subscriptions !! k)) →
    ∃ current_capacity',
      foldO (subtract_occupancy error with_subscriptions subscriptions)
            current_capacity items = Ok current_capacity'
      ∧ ∀ k, current_capacity' !! k
             = match (list_to_map items : gmap string (gset string)) !! k with
               | Some vehicles =>
                   (λ capacity,
                      capacity + error - Z.of_nat (size vehicles)
                      - (if with_subscriptions && bool_decide (subscriptions ≠ ∅)
                         then default 0 (subscriptions !! k) else 0))
                     <$> current_capacity !! k
               | None => current_capacity !! k
               end.
Proof.
  induction items as [|[k0 v0] rest IH]; intros current_capacity Hnd Hdom Hsub.
  - exists current_capacity. split; [done|]. intros k. cbn. by rewrite lookup_empty.
  - apply NoDup_cons in Hnd as [Hk0 Hnd].
    destruct (Hdom k0) as [c0 Hc0]; [apply list_elem_of_here|].
    cbn [foldO subtract_occupancy]. rewrite Hc0.
    destruct (with_subscriptions && bool_decide (subscriptions ≠ ∅)) eqn:Huse.
    + destruct (Hsub eq_refl k0) as [r0 Hr0]; [apply list_elem_of_here|]. rewrite Hr0.
      destruct (IH (<[k0 := c0 + error - Z.of_nat (size v0) - r0]> current_capacity) Hnd)
        as (current_capacity' & Hrun & Hlook).
      { intros k Hk. apply lookup_insert_is_Some'. right. apply Hdom. by apply list_elem_of_further. }
      { intros _ k Hk. apply Hsub; [done | by apply list_elem_of_further]. }
      exists current_capacity'. split; [done|]. intros k. rewrite Hlook.
      cbn [list_to_map foldr]. cbn.
      destruct (decide (k = k0)) as [->|Hne].
      * rewrite (not_elem_of_list_to_map_1 _ _ Hk0), !lookup_insert_eq, Hc0, Hr0. done.
      * by rewrite !lookup_insert_ne.
    + destruct (IH (<[k0 := c0 + error - Z.of_nat (size v0)]> current_capacity) Hnd)
        as (current_capacity' & Hrun & Hlook).
      { intros k Hk. apply lookup_insert_is_Some'. right. apply Hdom. by apply list_elem_of_further. }
      { intros [=]. }
      exists current_capacity'. split; [done|]. intros k. rewrite Hlook.
      cbn [list_to_map foldr]. cbn.
      destruct (decide (k = k0)) as [->|Hne].
      * rewrite (not_elem_of_list_to_map_1 _ _ Hk0), !lookup_insert_eq, Hc0. cbn.
        f_equal. lia.
      * by rewrite !lookup_insert_ne.
Qed.

Lemma keys_map_to_list {A} (m : gmap string A) (k : string) :
  k ∈ (map_to_list m).*1 ↔ k ∈ dom m.
Proof.
  rewrite elem_of_dom, list_elem_of_fmap. split.
  - intros [[k' v] [-> Hin]]. apply elem_of_map_to_list in Hin. by exists v.
  - intros [v Hv]. exists (k, v). split; [done|]. by apply elem_of_map_to_list.
Qed.

(** C5 (as the code has it): for a registered parking with capacities by
    class whose per-class mappings talk about the same classes, the query
    never raises; every class gets
    capacity + error - |occupancy view| - unfilled reserved slots,
    and the answer is the remainder of the class asked for when that class
    has a capacity, and the whole mapping otherwise. *)
Theorem get_free_places_by_class
    (draw : Z) (parking : string) (with_uncertainty : bool) (vclass : option string)
    (with_projections with_subscriptions : bool) (p : Parking) (st : State)
    (Hp : _parking_db st !! parking = Some p)
    (Hcap : capacity_by_class p ≠ ∅)
    (Haligned : classes_aligned p with_projections with_subscriptions) :
  let error := if with_uncertainty then draw else 0 in
  let result := remainders p error with_projections with_subscriptions in
  get_free_places draw parking with_uncertainty vclass
                  with_projections with_subscriptions st
  = Ok (match vclass ≫= (result !!.) with
        | Some remainder => FreeTotal remainder
        | None => FreeByClass result
        end).
Proof.
  intros error result. destruct Haligned as (Hocc & Hproj & Hsubs).
  assert (Hin_occ : ∀ k, k ∈ dom (capacity_by_class p) →
                         is_Some (occupancy_by_class p !! k)).
  { intros k Hk. apply elem_of_dom. by rewrite Hocc. }
  (* the loop over the projections *)
  assert (∃ total_projections occupancy1,
    (if with_projections
     then foldO add_projections (0, occupancy_by_class p)
                (map_to_list (projections_by_class p))
     else Ok (0, occupancy_by_class p)) = Ok (total_projections, occupancy1)
    ∧ ∀ k, occupancy1 !! k
           = (λ o, o ∪ (if with_projections
                        then default ∅ (projections_by_class p !! k) else ∅))
               <$> occupancy_by_class p !! k)
    as (total_projections & occupancy1 & Hrun1 & Hocc1).
  { destruct with_projections.
    - destruct (foldO_add_projections (map_to_list (projections_by_class p))
                  0 (occupancy_by_class p)) as (t & o & Hrun & Hlook).
      + apply NoDup_fst_map_to_list.
      + intros k Hk%keys_map_to_list. apply Hin_occ. by apply Hproj.
      + exists t, o. split; [done|]. intros k.
        by rewrite Hlook, list_to_map_to_list.
    - exists 0, (occupancy_by_class p). split; [done|]. intros k.
      destruct (occupancy_by_class p !! k); cbn; [|done].
      by rewrite (right_id_L ∅ (∪)). }
  (* the loop over the subscriptions *)
  assert (∃ subscriptions occupancy2 total_subscriptions partial_subscriptions,
    (if with_subscriptions
     then foldO add_subscriptions (∅, occupancy1, 0, 0)
                (map_to_list (sub_view (subscriptions_by_class p)))
     else Ok (∅, occupancy1, 0, 0))
    = Ok (subscriptions, occupancy2, total_subscriptions, partial_subscriptions)
    ∧ (∀ k, subscriptions !! k
            = if with_subscriptions
              then (λ e : Z * gset string, e.1 - Z.of_nat (size e.2))
                     <$> sub_lookup (subscriptions_by_class p) k
              else None)
    ∧ (∀ k, occupancy2 !! k
            = (λ o, o ∪ (if with_subscriptions
                         then from_option snd ∅ (sub_lookup (subscriptions_by_class p) k)
                         else ∅))
                <$> occupancy1 !! k))
    as (subscriptions & occupancy2 & total_subscriptions & partial_subscriptions
        & Hrun2 & Hsub2 & Hocc2).
  { destruct with_subscriptions.
    - destruct (foldO_add_subscriptions
                  (map_to_list (sub_view (subscriptions_by_class p)))
                  ∅ occupancy1 0 0) as (s & o & t & q & Hrun & Hs & Ho).
      + apply NoDup_fst_map_to_list.
      + intros k Hk%keys_map_to_list. rewrite Hocc1. apply fmap_is_Some.
        apply Hin_occ. unfold sub_view in Hk. rewrite dom_fmap_L in Hk.
        destruct (Hsubs eq_refl) as [Hempty | Hdom].
        * rewrite Hempty, dom_empty_L in Hk. by apply not_elem_of_empty in Hk.
        * by rewrite <- Hdom.
      + exists s, o, t, q. split; [done|].
        split; intros k; [rewrite Hs | rewrite Ho];
          rewrite list_to_map_to_list, sub_view_lookup; [|done].
        rewrite lookup_empty.
        by destruct (sub_lookup (subscriptions_by_class p) k) as [[num veh]|].
    - exists ∅, occupancy1, 0, 0. split; [done|]. split; intros k; [done|].
      destruct (occupancy1 !! k); cbn; [|done].
      by rewrite (right_id_L ∅ (∪)). }
  assert (Hsome2 : ∀ k, is_Some (occupancy2 !! k) ↔ k ∈ dom (capacity_by_class p)).
  { intros k. rewrite Hocc2, Hocc1, !fmap_is_Some, <- Hocc. symmetry. apply elem_of_dom. }
  (* the loop over the occupancy view *)
  destruct (foldO_subtract_occupancy error with_subscriptions subscriptions
              (map_to_list occupancy2) (capacity_by_class p))
    as (current_capacity & Hrun3 & Hcc).
  { apply NoDup_fst_map_to_list. }
  { intros k Hk%keys_map_to_list. apply elem_of_dom, Hsome2. by apply elem_of_dom. }
  { intros [Hws Hne%bool_decide_eq_true]%andb_true_iff k Hk%keys_map_to_list.
    apply elem_of_dom, Hsome2 in Hk. rewrite Hsub2, Hws. apply fmap_is_Some.
    unfold sub_lookup. destruct (Hsubs Hws) as [Hempty | Hdom].
    - exfalso. apply Hne. apply map_eq. intros j.
      rewrite Hsub2, Hws, lookup_empty. unfold sub_lookup.
      by rewrite Hempty, lookup_empty.
    - rewrite <- Hdom in Hk. apply elem_of_dom in Hk as [[num ref] Hk].
      rewrite Hk. eauto. }
  assert (Hresult : current_capacity = result).
  { apply map_eq. intros k. rewrite Hcc, list_to_map_to_list.
    unfold result, remainders. rewrite map_lookup_imap.
    destruct (capacity_by_class p !! k) as [c|] eqn:Hc; cbn.
    2: { by destruct (occupancy2 !! k). }
    destruct (Hin_occ k) as [o Ho]; [apply elem_of_dom; eauto|].
    rewrite Hocc2, Hocc1, Ho. cbn. f_equal.
    unfold occupancy_view, unfilled_slots. rewrite Ho. cbn.
    assert (Hunfilled :
      (if with_subscriptions && bool_decide (subscriptions ≠ ∅)
       then default 0 (subscriptions !! k) else 0)
      = if with_subscriptions
        then match sub_lookup (subscriptions_by_class p) k with
             | Some (num, veh) => num - Z.of_nat (size veh)
             | None => 0
             end
        else 0).
    { destruct with_subscriptions; cbn; [|done].
      case_bool_decide as Hne.
      - rewrite Hsub2. by destruct (sub_lookup _ k) as [[num veh]|].
      - specialize (Hsub2 k).
        rewrite Hne, lookup_empty in Hsub2.
        by destruct (sub_lookup _ k) as [[num veh]|]. }
    rewrite Hunfilled. done. }
  unfold get_free_places. rewrite Hp. cbv zeta. fold error.
  rewrite Hrun1. cbn [mbind Outcome_bind]. rewrite Hrun2. cbn [mbind Outcome_bind].
  destruct (decide (capacity_by_class p ≠ ∅)) as [_|]; [|done].
  rewrite Hrun3. cbn [mbind Outcome_bind]. rewrite Hresult.
  destruct vclass as [c|]; cbn; [|done]. by destruct (result !! c).
Qed.

Lemma get_free_places_by_class_witness :
  get_free_places 0 "P1" false (Some "car") false false example_split
  = Ok (FreeTotal 6).
Proof.
  etransitivity.
  - apply (get_free_places_by_class 0 "P1" false (Some "car") false false
             example_parking example_split).
    + vm_compute; reflexivity.
    + intros H. vm_compute in H. discriminate.
    + split; [vm_compute; reflexivity|]. split; intros H; discriminate.
  - vm_compute; reflexivity.
Defined.

(** With projections and subscriptions counted: "v1" is inside and holds the
    car reservation, the truck reservation is free. *)
Example get_free_places_with_subscriptions :
  get_free_places 0 "P1" false (Some "car") true true example_subscribed
  = Ok (FreeTotal 6)
  ∧ get_free_places 0 "P1" false (Some "truck") true true example_subscribed
    = Ok (FreeTotal 1).
Proof. split; vm_compute; reflexivity. Qed.

(** C5, as stated, fails: the specific values of a parking are stored
    without validation, so a registered parking can have capacities for some
    classes only; the query then ends in a [KeyError]. *)
Lemma get_free_places_misaligned_counterexample :
  ∃ p,
    _parking_db example_misconfigured !! "P1" = Some p
    ∧ capacity_by_class p = {["car" := 10]}
    ∧ capacity_by_class p ≠ ∅
    ∧ get_free_places 0 "P1" false (Some "car") false false example_misconfigured
      = Raise (KeyError "truck").
Proof.
  eexists. split; [vm_compute; reflexivity|].
  split; [vm_compute; reflexivity|].
  split; [intros H; vm_compute in H; discriminate|].
  vm_compute; reflexivity.
Qed.

(** ** Travel times and closest parkings *)

Lemma total_ret {A} (a : A) : total (mret a).
Proof. intros st. by exists st, a. Qed.

Lemma total_modify (f : State → State) : total (modify f).
Proof. intros st. by exists (f st), tt. Qed.

Lemma total_gets {A} (f : State → A) : total (gets f).
Proof. intros st. by exists st, (f st). Qed.

Lemma total_bind {A B} (m : M A) (f : A → M B) :
  total m → (∀ a, total (f a)) → total (m ≫= f).
Proof.
  intros Hm Hf st. destruct (Hm st) as (st1 & a & Hrun).
  destruct (Hf a st1) as (st2 & b & Hrun2).
  exists st2, b. by rewrite (bind_Ok _ _ _ _ _ Hrun).
Qed.

Lemma total_forM_ {A} (f : A → M unit) (l : list A) :
  (∀ a, total (f a)) → total (forM_ f l).
Proof.
  intros Hf. induction l as [|a l IH]; cbn [forM_].
  - apply total_ret.
  - apply total_bind; [apply Hf | intros _; apply IH].
Qed.

Lemma total_travel_time_pair findRoute from to : total (travel_time_pair findRoute from to).
Proof.
  destruct from as [[from_pid from_edge] from_end_pos].
  destruct to as [[to_pid to_edge] to_end_pos]. unfold travel_time_pair.
  destruct (decide _); [apply total_ret|].
  destruct (_ && _); [apply total_ret|].
  apply total_bind; [apply total_gets | intros blacklisted].
  apply total_bind; [apply total_modify | intros _].
  destruct (decide _); [apply total_ret|].
  apply total_bind.
  - destruct (findRoute from_edge to_edge); [apply total_ret|].
    apply total_bind; [apply total_modify | intros _; apply total_ret].
  - intros [[[|e es] c]|]; cbn; try apply total_ret.
    destruct (Qeq_bool c 0); [apply total_ret | apply total_modify].
Qed.




Lemma insert_sorted_Forall (P : Q * string → Prop) x l :
  P x → Forall P l → Forall P (insert_sorted x l).
Proof.
  intros Hx. induction 1 as [|y l Hy Hl IH]; cbn.
  - by constructor.
  - destruct (tuple_leb y x); repeat constructor; done.
Qed.










(** The stored distances of "P1" after the build, nearest first. *)
Example get_closest_parkings_all :
  get_closest_parkings "P1" None example_built = Ok [(12%Q, "P3"); (30%Q, "P2")].
Proof. vm_compute; reflexivity. Qed.


(** A zero [num] is falsy: the query returns every stored distance. *)
Example get_closest_parkings_zero :
  get_closest_parkings "P1" (Some 0) example_built = Ok [(12%Q, "P3"); (30%Q, "P2")].
Proof. vm_compute; reflexivity. Qed.

(** ** The simulation step *)

(** Frame reasoning: a relation that holds between the state before and
    the state a computation reaches, whether it returns or raises. *)
Section Frame.
Context (R : relation State) `{!Reflexive R, !Transitive R}.

Lemma preserves_ret {A} (a : A) : preserves R (mret a).
Proof. by intros st. Qed.

Lemma preserves_raise {A} (e : Exc) : preserves R (@raise A e).
Proof. by intros st. Qed.

Lemma preserves_gets {A} (f : State → A) : preserves R (gets f).
Proof. by intros st. Qed.

Lemma preserves_lift {A} (o : Outcome A) : preserves R (lift o).
Proof. by intros st. Qed.

Lemma preserves_parking_of parking : preserves R (parking_of parking).
Proof. intros st. unfold parking_of. by destruct (_parking_db st !! parking). Qed.

Lemma preserves_vehicle_of vehicle : preserves R (vehicle_of vehicle).
Proof. intros st. unfold vehicle_of. by destruct (_vehicles_db st !! vehicle). Qed.

Lemma preserves_modify (f : State → State) : (∀ st, R st (f st)) → preserves R (modify f).
Proof. intros Hf st. apply Hf. Qed.

Lemma preserves_bind {A B} (m : M A) (f : A → M B) :
  preserves R m → (∀ a, preserves R (f a)) → preserves R (m ≫= f).
Proof.
  intros Hm Hf st. specialize (Hm st). unfold mbind, M_bind.
  destruct (m st) as [st1 [a|e]]; cbn in *; [|done].
  by etransitivity; [exact Hm | apply Hf].
Qed.

Lemma preserves_forM_ {A} (f : A → M unit) (l : list A) :
  (∀ a, preserves R (f a)) → preserves R (forM_ f l).
Proof.
  intros Hf. induction l as [|a l IH]; cbn [forM_].
  - apply preserves_ret.
  - apply preserves_bind; [apply Hf | intros _; apply IH].
Qed.

Lemma preserves_foldM {A B} (f : B → A → M B) (l : list A) :
  (∀ b a, preserves R (f b a)) → ∀ b, preserves R (foldM f b l).
Proof.
  intros Hf. induction l as [|a l IH]; intros b; cbn [foldM].
  - apply preserves_ret.
  - apply preserves_bind; [apply Hf | intros b'; apply IH].
Qed.
End Frame.

(** Walks a computation down to its writes, which [prim] has to settle. *)
Ltac frame_with prim :=
  repeat lazymatch goal with
  | |- preserves _ (mret _) => apply preserves_ret; apply _
  | |- preserves _ (raise _) => apply preserves_raise; apply _
  | |- preserves _ (gets _) => apply preserves_gets; apply _
  | |- preserves _ (lift _) => apply preserves_lift; apply _
  | |- preserves _ (parking_of _) => apply preserves_parking_of; apply _
  | |- preserves _ (vehicle_of _) => apply preserves_vehicle_of; apply _
  | |- preserves _ (update_parking _ _) => prim
  | |- preserves _ (modify _) => prim
  | |- preserves _ (_ ≫= _) => apply preserves_bind; [apply _| |intros ?]
  | |- preserves _ (forM_ _ _) => apply preserves_forM_; [apply _|apply _|intros ?]
  | |- preserves _ (foldM _ _ _) => apply preserves_foldM; [apply _|apply _|intros ? ?]
  | |- preserves _ (match ?x with _ => _ end) => destruct x
  end.

(** *** The step keeps the capacities *)

#[local] Instance capacities_kept_refl : Reflexive capacities_kept.
Proof. by intros st pid. Qed.

#[local] Instance capacities_kept_trans : Transitive capacities_kept.
Proof. intros st1 st2 st3 H12 H23 pid. by rewrite H23, H12. Qed.

Lemma update_parking_keeps_capacities area (f : Parking → Parking) :
  (∀ p, capacities (f p) = capacities p) →
  preserves capacities_kept (update_parking area f).
Proof.
  intros Hf. apply preserves_modify. intros st pid. cbn.
  destruct (decide (area = pid)) as [->|Hne].
  - rewrite lookup_alter_eq. destruct (_parking_db st !! pid); cbn; [|done].
    by rewrite Hf.
  - by rewrite lookup_alter_ne.
Qed.

Ltac keeps_capacities :=
  frame_with ltac:(first
    [ apply update_parking_keeps_capacities; by intros []
    | apply preserves_modify; intros ? ?; reflexivity ]).

Lemma _check_occupancy_keeps_capacities traci step :
  preserves capacities_kept (_check_occupancy traci step).
Proof.
  apply preserves_modify. intros st pid. cbn. rewrite map_lookup_imap.
  destruct (_parking_db st !! pid); cbn; [|done]. by destruct (decide _).
Qed.

Lemma _monitor_vehicles_keeps_capacities traci step :
  preserves capacities_kept (_monitor_vehicles traci step).
Proof.
  unfold _monitor_vehicles, monitor_departed, add_projection. keeps_capacities.
Qed.

Lemma _update_vehicles_db_keeps_capacities traci step :
  preserves capacities_kept (_update_vehicles_db traci step).
Proof.
  unfold _update_vehicles_db, update_vehicle, remove_projection, add_projection.
  keeps_capacities.
Qed.

Lemma _update_parking_db_keeps_capacities traci step :
  preserves capacities_kept (_update_parking_db traci step).
Proof.
  unfold _update_parking_db.
  apply preserves_bind;
    [apply _ | apply _check_occupancy_keeps_capacities | intros _].
  unfold ending_stop, starting_stop, _get_parking_area_from_vehicle,
    _validate_parking_occupancy. keeps_capacities.
Qed.

Lemma step_keeps_capacities traci : preserves capacities_kept (step traci).
Proof.
  unfold step.
  apply preserves_bind;
    [apply _ | apply _monitor_vehicles_keeps_capacities | intros _].
  apply preserves_bind;
    [apply _ | apply _update_vehicles_db_keeps_capacities | intros _].
  apply _update_parking_db_keeps_capacities.
Qed.

(** *** Which parkings the step touches *)

#[local] Instance vehicles_kept_refl : Reflexive vehicles_kept.
Proof. by intros st. Qed.

#[local] Instance vehicles_kept_trans : Transitive vehicles_kept.
Proof. intros st1 st2 st3 [Hv12 Hd12] [Hv23 Hd23]. split; congruence. Qed.

#[local] Instance ending_list_kept_refl : Reflexive ending_list_kept.
Proof. by intros st. Qed.

#[local] Instance ending_list_kept_trans : Transitive ending_list_kept.
Proof. intros st1 st2 st3 H12 H23. unfold ending_list_kept in *. congruence. Qed.

Lemma update_parking_keeps_vehicles area f :
  preserves vehicles_kept (update_parking area f).
Proof.
  apply preserves_modify. intros st. split; [done|]. cbn. apply dom_alter_L.
Qed.

Ltac keeps_vehicles :=
  frame_with ltac:(first
    [ apply update_parking_keeps_vehicles
    | apply preserves_modify; intros ?; split; reflexivity ]).

Ltac keeps_ending_list :=
  frame_with ltac:(apply preserves_modify; intros ?; reflexivity).

Lemma _check_occupancy_keeps_vehicles traci step :
  preserves vehicles_kept (_check_occupancy traci step).
Proof.
  apply preserves_modify. intros st. split; [done|]. cbn.
  apply dom_imap_L. intros pid. rewrite elem_of_dom. split.
  - intros [p Hp]. exists p. split; [done|]. by destruct (decide _).
  - intros (p & Hp & _). by exists p.
Qed.

Lemma ending_stop_keeps_vehicles tv vehicle :
  preserves vehicles_kept (ending_stop tv vehicle).
Proof. unfold ending_stop, _get_parking_area_from_vehicle. keeps_vehicles. Qed.

Lemma starting_stop_keeps_vehicles tv vehicle :
  preserves vehicles_kept (starting_stop tv vehicle).
Proof. unfold starting_stop, _get_parking_area_from_vehicle. keeps_vehicles. Qed.

Lemma monitoring_keeps_ending_list traci step :
  preserves ending_list_kept
    (_monitor_vehicles traci step;; _update_vehicles_db traci step;;
     _check_occupancy traci step).
Proof.
  unfold _monitor_vehicles, monitor_departed, _update_vehicles_db, update_vehicle,
    remove_projection, add_projection, _check_occupancy, update_parking.
  keeps_ending_list.
Qed.

Lemma _get_parking_area_from_vehicle_Ok vehicle st st' area :
  _get_parking_area_from_vehicle vehicle st = (st', Ok area) →
  st' = st ∧ area = parking_area_of (_vehicles_db st) vehicle.
Proof.
  unfold _get_parking_area_from_vehicle, vehicle_of, parking_area_of, mbind, M_bind.
  destruct (_vehicles_db st !! vehicle) as [v|]; cbn; [|done].
  destruct (last (history v)) as [[|stop stops]|]; cbn; [done| |];
    by intros [= <- <-].
Qed.

Lemma ending_stop_touched tv vehicle st st' tv' :
  ending_stop tv vehicle st = (st', Ok tv') →
  tv' = tv ∪ touched_by (_vehicles_db st) (dom (_parking_db st)) vehicle.
Proof.
  unfold ending_stop, touched_by.
  intros Hrun. apply bind_Ok_inv in Hrun as (st1 & area & Harea & Hrun).
  apply _get_parking_area_from_vehicle_Ok in Harea as [-> ->].
  apply bind_Ok_inv in Hrun as (? & db & [= <- <-] & Hrun).
  destruct (parking_area_of (_vehicles_db st) vehicle) as [area|]; cbn in Hrun.
  2: { injection Hrun as _ <-. by rewrite (right_id_L ∅ (∪)). }
  destruct (_parking_db st !! area) as [p|] eqn:Hp; cbn in Hrun.
  2: { injection Hrun as _ <-. apply not_elem_of_dom in Hp.
       destruct (decide _); [done|]. by rewrite (right_id_L ∅ (∪)). }
  destruct (decide _) as [_|Hno]; [|by apply elem_of_dom_2 in Hp].
  apply bind_Ok_inv in Hrun as (? & v & _ & Hrun).
  destruct (occupancy_by_class p !! vClass v); [|done].
  destruct (decide _); [|done].
  apply bind_Ok_inv in Hrun as (? & [] & _ & Hrun). by injection Hrun as _ <-.
Qed.

Lemma starting_stop_touched tv vehicle st st' tv' :
  starting_stop tv vehicle st = (st', Ok tv') →
  tv' = tv ∪ touched_by (_vehicles_db st) (dom (_parking_db st)) vehicle.
Proof.
  unfold starting_stop, touched_by.
  intros Hrun. apply bind_Ok_inv in Hrun as (st1 & area & Harea & Hrun).
  apply _get_parking_area_from_vehicle_Ok in Harea as [-> ->].
  apply bind_Ok_inv in Hrun as (? & db & [= <- <-] & Hrun).
  destruct (parking_area_of (_vehicles_db st) vehicle) as [area|]; cbn in Hrun.
  2: { injection Hrun as _ <-. by rewrite (right_id_L ∅ (∪)). }
  destruct (_parking_db st !! area) as [p|] eqn:Hp; cbn in Hrun.
  2: { injection Hrun as _ <-. apply not_elem_of_dom in Hp.
       destruct (decide _); [done|]. by rewrite (right_id_L ∅ (∪)). }
  destruct (decide _) as [_|Hno]; [|by apply elem_of_dom_2 in Hp].
  apply bind_Ok_inv in Hrun as (? & v & _ & Hrun).
  destruct (occupancy_by_class p !! vClass v); [|done].
  apply bind_Ok_inv in Hrun as (? & [] & _ & Hrun). by injection Hrun as _ <-.
Qed.

(** A loop over stop events collects the parkings its vehicles touch. *)
Lemma foldM_touched (f : gset string → string → M (gset string)) :
  (∀ tv vehicle, preserves vehicles_kept (f tv vehicle)) →
  (∀ tv vehicle st st' tv', f tv vehicle st = (st', Ok tv') →
     tv' = tv ∪ touched_by (_vehicles_db st) (dom (_parking_db st)) vehicle) →
  ∀ l tv st st' tv', foldM f tv l st = (st', Ok tv') →
    tv' = tv ∪ ⋃ (touched_by (_vehicles_db st) (dom (_parking_db st)) <$> l).
Proof.
  intros Hkeeps Htouched. induction l as [|vehicle l IH]; intros tv st st' tv'; cbn.
  - intros [= _ <-]. by rewrite (right_id_L ∅ (∪)).
  - intros (st1 & tv1 & Hrun & Hrest)%bind_Ok_inv.
    destruct (Hkeeps tv vehicle st) as [Hv Hd]. rewrite Hrun in Hv, Hd. cbn in Hv, Hd.
    apply Htouched in Hrun as ->. apply IH in Hrest as ->.
    by rewrite Hv, Hd, (assoc_L (∪)).
Qed.

Lemma elem_of_touched vehicles registered (l : list string) (pid : string) :
  pid ∈ ⋃ (touched_by vehicles registered <$> l)
  ↔ pid ∈ registered
    ∧ ∃ vehicle, vehicle ∈ l ∧ parking_area_of vehicles vehicle = Some pid.
Proof.
  rewrite elem_of_union_list. split.
  - intros (X & HX & Hpid). apply list_elem_of_fmap in HX as (vehicle & -> & Hin).
    unfold touched_by in Hpid.
    destruct (parking_area_of vehicles vehicle) as [area|] eqn:Harea;
      [|by apply not_elem_of_empty in Hpid].
    destruct (decide _); [|by apply not_elem_of_empty in Hpid].
    apply elem_of_singleton in Hpid as ->. eauto.
  - intros (Hreg & vehicle & Hin & Harea).
    exists (touched_by vehicles registered vehicle).
    split; [apply list_elem_of_fmap; eauto|].
    unfold touched_by. rewrite Harea, decide_True by done. by apply elem_of_singleton.
Qed.

(** What a successful occupancy check establishes. *)
Lemma check_parking_occupancy_Ok opts parking p :
  check_parking_occupancy opts parking p = Ok tt →
  dom (occupancy_by_class p) = vclasses opts
  ∧ occupancy_sum (occupancy_by_class p) = total_occupancy p.
Proof.
  unfold check_parking_occupancy, occupancy_sum.
  destruct (decide _) as [|Hdom]; [done|]. apply dec_stable in Hdom.
  assert (Hloop : ∀ items total total',
    foldO (count_occupancy parking p) total items = Ok total' →
    total' = total + sumZ ((λ item : string * gset string, Z.of_nat (size item.2)) <$> items)).
  { unfold sumZ.
    induction items as [|[v_class value] items IH]; intros total total';
      cbn [foldO count_occupancy fmap list_fmap foldr snd].
    - intros [= <-]. lia.
    - destruct (decide _).
      + destruct (capacity_by_class p !! v_class); [|done].
        destruct (decide _); [done|]. intros ->%IH. lia.
      + intros ->%IH. lia. }
  destruct (foldO _ 0 _) as [total|] eqn:Hrun; cbn; [|done].
  apply Hloop in Hrun as ->.
  destruct (decide _) as [|Htotal]; [done|]. apply dec_stable in Htotal.
  intros _. split; [done|]. lia.
Qed.

Lemma validate_all l st st' :
  forM_ _validate_parking_occupancy l st = (st', Ok tt) →
  st' = st
  ∧ ∀ pid, pid ∈ l →
      ∃ p, _parking_db st !! pid = Some p
           ∧ check_parking_occupancy (_options st) pid p = Ok tt.
Proof.
  revert st. induction l as [|pid0 l IH]; intros st; cbn [forM_].
  - intros [= <-]. split; [done|]. intros pid Hin. by apply elem_of_nil in Hin.
  - intros (st1 & [] & Hrun & Hrest)%bind_Ok_inv.
    unfold _validate_parking_occupancy, parking_of, mbind, M_bind, gets, lift in Hrun.
    destruct (_parking_db st !! pid0) as [p0|] eqn:Hp0; [|done].
    destruct (check_parking_occupancy (_options st) pid0 p0) as [[]|] eqn:Hcheck; [|done].
    injection Hrun as <-. apply IH in Hrest as [-> Hall].
    split; [done|]. intros pid [->|Hin]%elem_of_cons; eauto.
Qed.

(** C1 (as the code has it): a step that completes has validated the
    parkings it touched, and only those.  [touched] is the set
    [_to_validate] of the step: the registered parkings that an ending stop
    of the previous list or a starting stop of the fresh list is booked on.
    For every such parking the classes of [occupancy_by_class] are the
    configured ones and the sizes of its sets sum to [total_occupancy].  The
    step writes neither [capacity_by_class] nor [total_capacity]: if the
    capacities by class of every parking that has some summed to its total
    capacity before the step, they do so after it. *)
Theorem step_validates_touched_parkings
    (traci : Traci) (st st' : State) (touched : gset string)
    (Hstep : step traci st = (st', Ok touched)) :
  (∀ pid, pid ∈ touched ↔
     pid ∈ dom (_parking_db st')
     ∧ ∃ vehicle,
         vehicle ∈ default [] (_traci_ending_stop_subscriptions st)
                   ++ var_parking_starting_vehicles_ids traci
         ∧ parking_area_of (_vehicles_db st') vehicle = Some pid)
  ∧ (∀ pid, pid ∈ touched →
       ∃ p, _parking_db st' !! pid = Some p
            ∧ dom (occupancy_by_class p) = vclasses (_options st')
            ∧ occupancy_sum (occupancy_by_class p) = total_occupancy p)
  ∧ capacities_kept st st'
  ∧ ((∀ pid p, _parking_db st !! pid = Some p → capacity_by_class p ≠ ∅ →
        capacity_sum (capacity_by_class p) = total_capacity p) →
     ∀ pid p, _parking_db st' !! pid = Some p → capacity_by_class p ≠ ∅ →
       capacity_sum (capacity_by_class p) = total_capacity p).
Proof.
  assert (Hkept : capacities_kept st st').
  { pose proof (step_keeps_capacities traci st) as H. by rewrite Hstep in H. }
  pose proof (monitoring_keeps_ending_list traci (getTime traci) st) as Hending.
  unfold step in Hstep.
  apply bind_Ok_inv in Hstep as (st1 & [] & Hmon & Hstep).
  apply bind_Ok_inv in Hstep as (st2 & [] & Hupd & Hstep).
  unfold _update_parking_db in Hstep.
  apply bind_Ok_inv in Hstep as (st3 & [] & Hocc & Hstep).
  erewrite bind_Ok in Hending by exact Hmon.
  erewrite bind_Ok in Hending by exact Hupd.
  rewrite Hocc in Hending. unfold ending_list_kept in Hending. cbn in Hending.
  apply bind_Ok_inv in Hstep as (? & ending & [= <- <-] & Hstep).
  apply bind_Ok_inv in Hstep as (st5 & tv1 & Hend & Hstep).
  apply bind_Ok_inv in Hstep as (? & [] & [= <-] & Hstep).
  apply bind_Ok_inv in Hstep as (st7 & tv2 & Hstart & Hstep).
  apply bind_Ok_inv in Hstep as (st8 & [] & Hvalid & Hret).
  injection Hret as <- <-. apply validate_all in Hvalid as [-> Hall].
  split; [|split; [|split; [done|]]].
  - destruct (preserves_foldM vehicles_kept ending_stop
                (default [] (_traci_ending_stop_subscriptions st3))
                ending_stop_keeps_vehicles ∅ st3) as [Hv35 Hd35].
    rewrite Hend in Hv35, Hd35. cbn in Hv35, Hd35.
    destruct (preserves_foldM vehicles_kept starting_stop
                (var_parking_starting_vehicles_ids traci)
                starting_stop_keeps_vehicles tv1
                (with_stop_subscriptions
                   (Some (var_parking_starting_vehicles_ids traci))
                   (Some (var_parking_ending_vehicles_ids traci)) st5))
      as [Hv57 Hd57].
    rewrite Hstart in Hv57, Hd57. cbn in Hv57, Hd57.
    apply (foldM_touched _ ending_stop_keeps_vehicles ending_stop_touched) in Hend.
    apply (foldM_touched _ starting_stop_keeps_vehicles starting_stop_touched) in Hstart.
    cbn in Hstart. rewrite <- Hv35, <- Hd35, <- Hv57, <- Hd57 in Hend.
    rewrite <- Hv57, <- Hd57 in Hstart. rewrite Hending in Hend.
    intros pid. rewrite Hstart, Hend, (left_id_L ∅ (∪)), elem_of_union.
    rewrite !elem_of_touched. split.
    + intros [(Hreg & vehicle & Hin & Harea) | (Hreg & vehicle & Hin & Harea)];
        (split; [done|]); exists vehicle; (split; [|done]);
        apply elem_of_app; auto.
    + intros (Hreg & vehicle & [Hin|Hin]%elem_of_app & Harea); eauto.
  - intros pid Hpid. destruct (Hall pid) as (p & Hp & Hcheck).
    { by apply elem_of_elements. }
    exists p. split; [done|]. by apply check_parking_occupancy_Ok in Hcheck.
  - intros Hbefore pid p' Hp' Hne. specialize (Hkept pid). rewrite Hp' in Hkept.
    destruct (_parking_db st !! pid) as [p|] eqn:Hp; [|done].
    injection Hkept as Hcap Htot. rewrite Hcap, Htot. apply (Hbefore pid p Hp).
    by rewrite <- Hcap.
Qed.

Lemma step_validates_touched_parkings_witness :
  ∃ p, _parking_db (step example_traci_next_stop example_departed).1 !! "P1" = Some p
       ∧ dom (occupancy_by_class p) = {["car"; "truck"]}
       ∧ occupancy_sum (occupancy_by_class p) = total_occupancy p.
Proof.
  refine (proj1 (proj2 (step_validates_touched_parkings
            example_traci_next_stop example_departed
            (step example_traci_next_stop example_departed).1 {["P1"]} _)) "P1" _).
  - vm_compute; reflexivity.
  - vm_compute; reflexivity.
Defined.

(** The same run, read off: "v1" is counted in "P1", and TraCI's count and
    the tracked set agree. *)
Example step_counts_started_vehicle :
  ∃ p, _parking_db (step example_traci_next_stop example_departed).1 !! "P1" = Some p
       ∧ occupancy_by_class p !! "car" = Some {["v1"]}
       ∧ total_occupancy p = 1.
Proof. eexists. repeat split; vm_compute; reflexivity. Qed.

(** C1, as stated, fails: a vehicle that starts its first stop has an empty
    stop history, so no parking is resolved for it and none is validated.
    The step completes with TraCI's count of "P1" at 1 and no vehicle in its
    sets. *)
Lemma step_skips_untouched_parking_counterexample :
  ∃ st1 st2 p,
    step example_traci_departure example_lots = (st1, Ok ∅)
    ∧ step example_traci_first_stop st1 = (st2, Ok ∅)
    ∧ _parking_db st2 !! "P1" = Some p
    ∧ total_occupancy p = 1
    ∧ occupancy_sum (occupancy_by_class p) = 0
    ∧ occupancy_sum (occupancy_by_class p) ≠ total_occupancy p.
Proof.
  eexists _, _, _.
  split; [vm_compute; reflexivity|].
  split; [vm_compute; reflexivity|].
  split; [vm_compute; reflexivity|].
  split; [vm_compute; reflexivity|].
  split; [vm_compute; reflexivity|].
  vm_compute. discriminate.
Qed.

(** * Further properties *)

(** ** Stop flags and stop lists *)

(** X1: [is_parking_area] tests bit 7 of the flags, for every integer; on
    flags composed as its docstring says, the answer is the [parkingarea]
    component, whatever the seven other components are. *)
Theorem is_parking_area_bit :
  (∀ flags, is_parking_area flags = Z.testbit flags 7)
  ∧ (∀ stopped parking personTriggered containerTriggered
       isBusStop isContainerStop chargingStation parkingarea,
       is_parking_area
         (stop_flags_of stopped parking personTriggered containerTriggered
                        isBusStop isContainerStop chargingStation parkingarea)
       = parkingarea).
Proof.
  split.
  - intros flags. unfold is_parking_area.
    assert (Z.land flags 128 = if Z.testbit flags 7 then 128 else 0) as ->.
    { apply Z.bits_inj'. intros n Hn. rewrite Z.land_spec.
      change 128 with (2 ^ 7). rewrite Z.pow2_bits_eqb by lia.
      destruct (Z.eqb_spec 7 n) as [<-|Hne].
      - rewrite andb_true_r. destruct (Z.testbit flags 7); [|by rewrite Z.bits_0].
        by rewrite Z.pow2_bits_true.
      - rewrite andb_false_r. destruct (Z.testbit flags 7); [|by rewrite Z.bits_0].
        by rewrite Z.pow2_bits_false. }
    by destruct (Z.testbit flags 7).
  - by intros [] [] [] [] [] [] [] [].
Qed.

(** X2: [_is_same_destinations] holds exactly when the two stop lists name
    the same stopping places in the same order; nothing else of a stop
    (lane, position, flags, duration) is compared. *)
Theorem _is_same_destinations_places (a_stops b_stops : list Stop) :
  _is_same_destinations a_stops b_stops = true
  ↔ stopping_place <$> a_stops = stopping_place <$> b_stops.
Proof.
  unfold _is_same_destinations.
  destruct (Nat.eqb_spec (length a_stops) (length b_stops)) as [Hlen|Hlen]; cbn.
  - revert b_stops Hlen. induction a_stops as [|a a_stops IH]; intros [|b b_stops] Hlen;
      try done; cbn in *.
    rewrite andb_true_iff, String.eqb_eq, IH by lia. split.
    + by intros [-> ->].
    + by intros [= -> ->].
  - split; [done|]. intros Heq. destruct Hlen.
    by rewrite <- (length_fmap stopping_place a_stops), Heq, length_fmap.
Qed.

(** ** Reservations *)

(** X3: for a registered parking, unsubscribing a vehicle from a class
    raises the "not initialized" exception when the class has no entry,
    returns [False] and leaves the state as it is when the vehicle holds no
    reservation, and otherwise returns [True], the class then reading the
    same reserved count without the vehicle. *)
Theorem remove_subscribed_vehicle_spec
    (parking vclass vehicle : string) (p : Parking) (st : State)
    (Hp : _parking_db st !! parking = Some p) :
  (sub_lookup (subscriptions_by_class p) vclass = None →
   remove_subscribed_vehicle parking vclass vehicle st
   = (st, Raise (VClassNotInitialized vclass parking)))
  ∧
  (∀ num vehicles,
     sub_lookup (subscriptions_by_class p) vclass = Some (num, vehicles) →
     vehicle ∉ vehicles →
     remove_subscribed_vehicle parking vclass vehicle st = (st, Ok false))
  ∧
  (∀ num vehicles,
     sub_lookup (subscriptions_by_class p) vclass = Some (num, vehicles) →
     vehicle ∈ vehicles →
     ∃ st' p',
       remove_subscribed_vehicle parking vclass vehicle st = (st', Ok true)
       ∧ _parking_db st' !! parking = Some p'
       ∧ sub_lookup (subscriptions_by_class p') vclass
         = Some (num, vehicles ∖ {[vehicle]})).
Proof.
  unfold sub_lookup, remove_subscribed_vehicle.
  rewrite (bind_Ok _ _ st st (_parking_db st)) by done. rewrite Hp.
  destruct (sub_entries (subscriptions_by_class p) !! vclass) as [[cap ref]|] eqn:He.
  - split; [done|]. split.
    + intros num vehicles [= <- <-] Hnotin. by destruct (decide _).
    + intros num vehicles [= <- <-] Hin.
      destruct (decide _) as [_|]; [|done].
      erewrite bind_Ok by (by apply update_parking_Some).
      eexists _, _. split; [reflexivity|]. cbn.
      split; [apply lookup_insert_eq|]. cbn.
      by rewrite He, lookup_total_insert_eq.
  - split; [done|]. split; intros; discriminate.
Qed.

Lemma remove_subscribed_vehicle_witness :
  ∃ st' p',
    remove_subscribed_vehicle "P1" "car" "v1" example_subscribed = (st', Ok true)
    ∧ _parking_db st' !! "P1" = Some p'
    ∧ sub_lookup (subscriptions_by_class p') "car" = Some (1, {["v1"]} ∖ {["v1"]}).
Proof.
  refine (proj2 (proj2 (remove_subscribed_vehicle_spec "P1" "car" "v1"
            (with_subscriptions_by_class example_subscriptions example_parking)
            example_subscribed _)) 1 {["v1"]} _ _); vm_compute; reflexivity.
Defined.

(** What the subscriptions of a parking read as, class by class. *)
Lemma sub_lookup_set_object (s : Subscriptions) (ref : nat) (vehicles : gset string)
    (c : string) :
  sub_lookup (set_object ref vehicles s) c
  = match sub_entries s !! c with
    | Some (n, r) => Some (n, if decide (r = ref) then vehicles else sub_objects s !!! r)
    | None => None
    end.
Proof.
  unfold sub_lookup, set_object. cbn.
  destruct (sub_entries s !! c) as [[n r]|]; [|done].
  destruct (decide (r = ref)) as [->|Hne].
  - by rewrite lookup_total_insert_eq.
  - by rewrite lookup_total_insert_ne.
Qed.

(** X4: subscribing a vehicle and then unsubscribing it is a round trip.
    For a registered parking and a class with a free reserved place that
    the vehicle does not hold, both calls return [True], and afterwards
    every class of every parking reads as before the two calls. *)
Theorem subscribe_then_remove
    (parking vclass vehicle : string) (p : Parking) (st : State)
    (num : Z) (vehicles : gset string)
    (Hp : _parking_db st !! parking = Some p)
    (Hsub : sub_lookup (subscriptions_by_class p) vclass = Some (num, vehicles))
    (Hnew : vehicle ∉ vehicles)
    (Hfree : Z.of_nat (size vehicles) < num) :
  ∃ st1 st2,
    subscribe_vehicle_to_parking parking vclass vehicle st = (st1, Ok true)
    ∧ remove_subscribed_vehicle parking vclass vehicle st1 = (st2, Ok true)
    ∧ ∀ parking' c,
        (_parking_db st2 !! parking' ≫= λ p', sub_lookup (subscriptions_by_class p') c)
        = (_parking_db st !! parking' ≫= λ p', sub_lookup (subscriptions_by_class p') c).
Proof.
  unfold sub_lookup in Hsub.
  destruct (sub_entries (subscriptions_by_class p) !! vclass) as [[cap ref]|] eqn:He;
    [|done].
  injection Hsub as -> <-.
  eexists _, _. split; [|split].
  - unfold subscribe_vehicle_to_parking.
    rewrite (bind_Ok _ _ st st (_parking_db st)) by done. rewrite Hp, He.
    destruct (decide _) as [|_]; [done|].
    destruct (decide _) as [_|]; [|done].
    erewrite bind_Ok by (by apply update_parking_Some). reflexivity.
  - unfold remove_subscribed_vehicle.
    erewrite bind_Ok by reflexivity. cbn. rewrite lookup_insert_eq. cbn.
    rewrite He, lookup_total_insert_eq.
    destruct (decide _) as [_|Hno]; [|destruct Hno; set_solver].
    erewrite bind_Ok by (apply update_parking_Some; cbn; apply lookup_insert_eq).
    reflexivity.
  - intros parking' c. cbn. rewrite insert_insert_eq.
    destruct (decide (parking' = parking)) as [->|Hne].
    2: { by rewrite lookup_insert_ne. }
    rewrite lookup_insert_eq, Hp. cbn.
    rewrite sub_lookup_set_object. cbn. unfold sub_lookup.
    destruct (sub_entries (subscriptions_by_class p) !! c) as [[n r]|]; [|done].
    destruct (decide (r = ref)) as [->|Hne]; [|by rewrite lookup_total_insert_ne].
    do 2 f_equal. apply set_eq. intros x.
    rewrite elem_of_difference, elem_of_union, elem_of_singleton. split.
    + by intros [[Hx|Hx] Hne].
    + intros Hx. split; [by left|]. by intros ->.
Qed.

Lemma subscribe_then_remove_witness :
  ∃ st1 st2,
    subscribe_vehicle_to_parking "P1" "truck" "v7" example_subscribed = (st1, Ok true)
    ∧ remove_subscribed_vehicle "P1" "truck" "v7" st1 = (st2, Ok true)
    ∧ ∀ parking' c,
        (_parking_db st2 !! parking' ≫= λ p', sub_lookup (subscriptions_by_class p') c)
        = (_parking_db example_subscribed !! parking'
           ≫= λ p', sub_lookup (subscriptions_by_class p') c).
Proof.
  refine (subscribe_then_remove "P1" "truck" "v7"
            (with_subscriptions_by_class example_subscriptions example_parking)
            example_subscribed 1 ∅ _ _ _ _).
  - vm_compute; reflexivity.
  - vm_compute; reflexivity.
  - apply not_elem_of_empty.
  - vm_compute; reflexivity.
Defined.

(** X5: subscribing never overbooks the class it is called for.  For a
    registered parking and a class whose reservation set holds at most its
    reserved count of vehicles, the call does not raise and the class holds
    at most its reserved count afterwards, whatever the call returns. *)
Theorem subscribe_keeps_reserved_count
    (parking vclass vehicle : string) (p : Parking) (st : State)
    (num : Z) (vehicles : gset string)
    (Hp : _parking_db st !! parking = Some p)
    (Hsub : sub_lookup (subscriptions_by_class p) vclass = Some (num, vehicles))
    (Hwithin : Z.of_nat (size vehicles) ≤ num) :
  ∃ st' b p' vehicles',
    subscribe_vehicle_to_parking parking vclass vehicle st = (st', Ok b)
    ∧ _parking_db st' !! parking = Some p'
    ∧ sub_lookup (subscriptions_by_class p') vclass = Some (num, vehicles')
    ∧ Z.of_nat (size vehicles') ≤ num
    ∧ vehicles ⊆ vehicles'.
Proof.
  unfold sub_lookup in Hsub.
  destruct (sub_entries (subscriptions_by_class p) !! vclass) as [[cap ref]|] eqn:He;
    [|done].
  injection Hsub as -> <-. unfold subscribe_vehicle_to_parking.
  rewrite (bind_Ok _ _ st st (_parking_db st)) by done. rewrite Hp, He.
  destruct (decide _) as [Hin|Hnotin].
  { exists st, false, p, (sub_objects (subscriptions_by_class p) !!! ref).
    unfold sub_lookup. by rewrite He. }
  destruct (decide _) as [Hlt|Hge].
  2: { exists st, false, p, (sub_objects (subscriptions_by_class p) !!! ref).
       unfold sub_lookup. by rewrite He. }
  erewrite bind_Ok by (by apply update_parking_Some).
  eexists _, true, _, _. split; [reflexivity|]. cbn.
  split; [apply lookup_insert_eq|]. unfold sub_lookup. cbn.
  rewrite He, lookup_total_insert_eq. split; [done|]. split.
  - rewrite size_union by set_solver. rewrite size_singleton. lia.
  - set_solver.
Qed.

Lemma subscribe_keeps_reserved_count_witness :
  ∃ st' b p' vehicles',
    subscribe_vehicle_to_parking "P1" "car" "v9" example_subscribed = (st', Ok b)
    ∧ _parking_db st' !! "P1" = Some p'
    ∧ sub_lookup (subscriptions_by_class p') "car" = Some (1, vehicles')
    ∧ Z.of_nat (size vehicles') ≤ 1
    ∧ {["v1"]} ⊆ vehicles'.
Proof.
  refine (subscribe_keeps_reserved_count "P1" "car" "v9"
            (with_subscriptions_by_class example_subscriptions example_parking)
            example_subscribed 1 {["v1"]} _ _ _).
  - vm_compute; reflexivity.
  - vm_compute; reflexivity.
  - vm_compute. discriminate.
Defined.

(** ** Setting capacities and subscriptions *)

Lemma fold_left_sumZ (l : list Z) (a : Z) :
  fold_left (λ total value, total + value) l a = a + sumZ l.
Proof.
  unfold sumZ. revert a. induction l as [|x l IH]; intros a; cbn; [lia|].
  rewrite IH. lia.
Qed.

Lemma check_parking_capacity_Ok opts parking p :
  check_parking_capacity opts parking p = Ok tt
  ↔ dom (capacity_by_class p) = vclasses opts
    ∧ capacity_sum (capacity_by_class p) = total_capacity p.
Proof.
  unfold check_parking_capacity, capacity_sum. rewrite fold_left_sumZ, Z.add_0_l.
  destruct (decide _) as [Hdom|Hdom].
  { split; [done|]. by intros [? _]. }
  apply dec_stable in Hdom. destruct (decide _) as [Hsum|Hsum].
  { split; [done|]. by intros [_ ?]. }
  apply dec_stable in Hsum. done.
Qed.

(** X6: for a registered parking, [set_parking_capacity_vclass] returns
    without raising exactly when the classes of the new mapping are the
    configured ones and its values sum to [total_capacity]; either way the
    parking holds the new mapping afterwards, which the getter returns, and
    nothing else of the state has changed. *)
Theorem set_parking_capacity_vclass_accepts
    (parking : string) (capacities : gmap string Z) (p : Parking) (st : State)
    (Hp : _parking_db st !! parking = Some p) :
  ((set_parking_capacity_vclass parking capacities st).2 = Ok tt
   ↔ dom capacities = vclasses (_options st)
     ∧ capacity_sum capacities = total_capacity p)
  ∧ (set_parking_capacity_vclass parking capacities st).1
    = with_parking_db <[parking := with_capacity_by_class capacities p]> st
  ∧ get_parking_capacity_vclass parking
      (set_parking_capacity_vclass parking capacities st).1 = Ok capacities.
Proof.
  assert (set_parking_capacity_vclass parking capacities st
          = (with_parking_db <[parking := with_capacity_by_class capacities p]> st,
             check_parking_capacity (_options st) parking
               (with_capacity_by_class capacities p))) as ->.
  { unfold set_parking_capacity_vclass.
    rewrite (bind_Ok _ _ st st (_parking_db st)) by done. rewrite Hp.
    erewrite bind_Ok by (by apply update_parking_Some).
    unfold _validate_parking_capacity.
    erewrite bind_Ok by (apply parking_of_Some; cbn; apply lookup_insert_eq).
    by erewrite bind_Ok by reflexivity. }
  cbn [fst snd]. split; [by rewrite check_parking_capacity_Ok|]. split; [done|].
  unfold get_parking_capacity_vclass. cbn. by rewrite lookup_insert_eq.
Qed.

Lemma set_parking_capacity_vclass_witness :
  (set_parking_capacity_vclass "P1" {["car" := 4; "truck" := 6]} example_split).2 = Ok tt.
Proof.
  apply (proj1 (set_parking_capacity_vclass_accepts "P1" {["car" := 4; "truck" := 6]}
                  example_parking example_split ltac:(vm_compute; reflexivity))).
  split; vm_compute; reflexivity.
Defined.

Lemma foldO_check_subscription parking p (items : list (string * (Z * nat))) :
  foldO (check_subscription parking p) tt items = Ok tt
  ↔ ∀ key n ref, (key, (n, ref)) ∈ items →
      ∃ capacity, capacity_by_class p !! key = Some capacity ∧ n ≤ capacity.
Proof.
  induction items as [|[key [n ref]] items IH]; cbn [foldO check_subscription].
  - split; [|done]. intros _ key n ref Hin. by apply elem_of_nil in Hin.
  - destruct (capacity_by_class p !! key) as [capacity|] eqn:Hc.
    2: { split; [done|]. intros Hall.
         destruct (Hall key n ref) as (c & Hc' & _); [apply list_elem_of_here|].
         congruence. }
    cbn. destruct (decide _) as [Hgt|Hle].
    { split; [done|]. intros Hall.
      destruct (Hall key n ref) as (c & Hc' & Hle); [apply list_elem_of_here|].
      rewrite Hc in Hc'. injection Hc' as <-. lia. }
    rewrite IH. split.
    + intros Hall key' n' ref' [[= -> -> ->]|Hin]%elem_of_cons;
        [|by apply (Hall key' n' ref')].
      exists capacity. split; [done|lia].
    + intros Hall key' n' ref' Hin. apply (Hall key' n' ref').
      by apply list_elem_of_further.
Qed.

Lemma check_parking_subscriptions_Ok opts parking p :
  check_parking_subscriptions opts parking p = Ok tt
  ↔ capacity_by_class p ≠ ∅
    ∧ dom (sub_entries (subscriptions_by_class p)) = vclasses opts
    ∧ ∀ key n ref, sub_entries (subscriptions_by_class p) !! key = Some (n, ref) →
        ∃ capacity, capacity_by_class p !! key = Some capacity ∧ n ≤ capacity.
Proof.
  unfold check_parking_subscriptions.
  destruct (decide _) as [Hcap|Hcap].
  { split; [done|]. by intros [? _]. }
  destruct (decide _) as [Hdom|Hdom].
  { split; [done|]. by intros (_ & ? & _). }
  apply dec_stable in Hdom. rewrite foldO_check_subscription. split.
  - intros Hall. split; [done|]. split; [done|]. intros key n ref Hin.
    apply (Hall key n ref). by apply elem_of_map_to_list.
  - intros (_ & _ & Hall) key n ref Hin. apply (Hall key n ref).
    by apply elem_of_map_to_list.
Qed.

(** X7: for a registered parking, [set_parking_subscriptions] returns
    without raising exactly when the parking has capacities by class, the
    classes of the new mapping are the configured ones, and every class has a
    capacity that its reserved count does not exceed; either way the parking
    holds the new mapping afterwards, which the getter returns, and nothing
    else of the state has changed. *)
Theorem set_parking_subscriptions_accepts
    (parking : string) (subscriptions : Subscriptions) (p : Parking) (st : State)
    (Hp : _parking_db st !! parking = Some p) :
  ((set_parking_subscriptions parking subscriptions st).2 = Ok tt
   ↔ capacity_by_class p ≠ ∅
     ∧ dom (sub_entries subscriptions) = vclasses (_options st)
     ∧ ∀ key n ref, sub_entries subscriptions !! key = Some (n, ref) →
         ∃ capacity, capacity_by_class p !! key = Some capacity ∧ n ≤ capacity)
  ∧ (set_parking_subscriptions parking subscriptions st).1
    = with_parking_db <[parking := with_subscriptions_by_class subscriptions p]> st
  ∧ get_parking_subscriptions parking
      (set_parking_subscriptions parking subscriptions st).1 = Ok subscriptions.
Proof.
  assert (set_parking_subscriptions parking subscriptions st
          = (with_parking_db
               <[parking := with_subscriptions_by_class subscriptions p]> st,
             check_parking_subscriptions (_options st) parking
               (with_subscriptions_by_class subscriptions p))) as ->.
  { unfold set_parking_subscriptions.
    rewrite (bind_Ok _ _ st st (_parking_db st)) by done. rewrite Hp.
    erewrite bind_Ok by (by apply update_parking_Some).
    unfold _validate_parking_subscriptions.
    erewrite bind_Ok by (apply parking_of_Some; cbn; apply lookup_insert_eq).
    by erewrite bind_Ok by reflexivity. }
  cbn [fst snd]. split; [by rewrite check_parking_subscriptions_Ok|]. split; [done|].
  unfold get_parking_subscriptions. cbn. by rewrite lookup_insert_eq.
Qed.

Lemma set_parking_subscriptions_witness :
  get_parking_subscriptions "P1"
    (set_parking_subscriptions "P1" example_subscriptions example_split).1
  = Ok example_subscriptions.
Proof.
  apply (set_parking_subscriptions_accepts "P1" example_subscriptions
           example_parking example_split ltac:(vm_compute; reflexivity)).
Defined.

(** X8: an id that is not registered is refused by every accessor of a
    parking with the "does not exist" exception, and the refusing call
    leaves the state exactly as it was. *)
Theorem unknown_parking_is_refused
    (parking : string) (st : State)
    (Hp : _parking_db st !! parking = None) :
  get_parking_access parking st = Raise (ParkingDoesNotExist parking)
  ∧ get_parking_capacity_vclass parking st = Raise (ParkingDoesNotExist parking)
  ∧ get_parking_subscriptions parking st = Raise (ParkingDoesNotExist parking)
  ∧ (∀ draw with_uncertainty vclass with_projections with_subscriptions,
       get_free_places draw parking with_uncertainty vclass
                       with_projections with_subscriptions st
       = Raise (ParkingDoesNotExist parking))
  ∧ (∀ capacities,
       set_parking_capacity_vclass parking capacities st
       = (st, Raise (ParkingDoesNotExist parking)))
  ∧ (∀ subscriptions,
       set_parking_subscriptions parking subscriptions st
       = (st, Raise (ParkingDoesNotExist parking)))
  ∧ (∀ vclass vehicle,
       subscribe_vehicle_to_parking parking vclass vehicle st
       = (st, Raise (ParkingDoesNotExist parking)))
  ∧ (∀ vclass vehicle,
       remove_subscribed_vehicle parking vclass vehicle st
       = (st, Raise (ParkingDoesNotExist parking))).
Proof.
  unfold get_parking_access, get_parking_capacity_vclass, get_parking_subscriptions,
    get_free_places, set_parking_capacity_vclass, set_parking_subscriptions,
    subscribe_vehicle_to_parking, remove_subscribed_vehicle.
  rewrite Hp. repeat split; intros;
    rewrite (bind_Ok _ _ st st (_parking_db st)) by done; by rewrite Hp.
Qed.

Lemma unknown_parking_is_refused_witness :
  subscribe_vehicle_to_parking "P9" "car" "v1" example_split
  = (example_split, Raise (ParkingDoesNotExist "P9")).
Proof.
  apply (unknown_parking_is_refused "P9" example_split ltac:(vm_compute; reflexivity)).
Defined.

(** ** Free places without capacities by class *)

Lemma foldO_add_projections_total (items : list (string * gset string)) :
  ∀ (total : Z) (occupancy : gmap string (gset string)),
    (∀ k, k ∈ items.*1 → is_Some (occupancy !! k)) →
    ∃ occupancy',
      foldO add_projections (total, occupancy) items
      = Ok (total + sumZ ((λ item : string * gset string, Z.of_nat (size item.2))
                            <$> items), occupancy')
      ∧ dom occupancy' = dom occupancy.
Proof.
  unfold sumZ.
  induction items as [|[k0 v0] rest IH]; intros total occupancy Hdom.
  - exists occupancy. split; [|done]. cbn. by rewrite Z.add_0_r.
  - destruct (Hdom k0) as [o0 Ho0]; [apply list_elem_of_here|].
    cbn [foldO add_projections]. rewrite Ho0.
    destruct (IH (total + Z.of_nat (size v0)) (<[k0 := o0 ∪ v0]> occupancy))
      as (occupancy' & Hrun & Hd).
    { intros k Hk. apply lookup_insert_is_Some'. right. apply Hdom.
      by apply list_elem_of_further. }
    exists occupancy'. split.
    + rewrite Hrun. cbn. by rewrite Z.add_assoc.
    + rewrite Hd, dom_insert_L. apply elem_of_dom_2 in Ho0.
      apply set_eq. intros x. rewrite elem_of_union, elem_of_singleton. split.
      * by intros [->|Hx].
      * by right.
Qed.

Lemma foldO_add_subscriptions_total (items : list (string * (Z * gset string))) :
  ∀ (subscriptions : gmap string Z) (occupancy : gmap string (gset string))
    (total partial : Z),
    (∀ k, k ∈ items.*1 → is_Some (occupancy !! k)) →
    ∃ subscriptions' occupancy' partial',
      foldO add_subscriptions (subscriptions, occupancy, total, partial) items
      = Ok (subscriptions', occupancy',
            total + sumZ ((λ item : string * (Z * gset string), item.2.1) <$> items),
            partial')
      ∧ dom occupancy' = dom occupancy.
Proof.
  unfold sumZ.
  induction items as [|[k0 [num0 veh0]] rest IH];
    intros subscriptions occupancy total partial Hdom.
  - exists subscriptions, occupancy, partial. split; [|done]. cbn.
    by rewrite Z.add_0_r.
  - destruct (Hdom k0) as [o0 Ho0]; [apply list_elem_of_here|].
    cbn [foldO add_subscriptions]. rewrite Ho0.
    destruct (IH (<[k0 := num0 - Z.of_nat (size veh0)]> subscriptions)
                 (<[k0 := o0 ∪ veh0]> occupancy)
                 (total + num0) (partial + (num0 - Z.of_nat (size veh0))))
      as (subscriptions' & occupancy' & partial' & Hrun & Hd).
    { intros k Hk. apply lookup_insert_is_Some'. right. apply Hdom.
      by apply list_elem_of_further. }
    exists subscriptions', occupancy', partial'. split.
    + rewrite Hrun. cbn. by rewrite Z.add_assoc.
    + rewrite Hd, dom_insert_L. apply elem_of_dom_2 in Ho0.
      apply set_eq. intros x. rewrite elem_of_union, elem_of_singleton. split.
      * by intros [->|Hx].
      * by right.
Qed.

(** X9: for a registered parking without capacities by class, the query
    returns one number: [total_capacity - total_occupancy], less the number
    of projected vehicles when projections are asked for, less the sum of
    the reserved counts when subscriptions are asked for, plus the drawn
    error when uncertainty is asked for.  The classes of the mappings that
    are asked for have to be classes of [occupancy_by_class]. *)
Theorem get_free_places_total
    (draw : Z) (parking : string) (with_uncertainty : bool) (vclass : option string)
    (with_projections with_subscriptions : bool) (p : Parking) (st : State)
    (Hp : _parking_db st !! parking = Some p)
    (Hcap : capacity_by_class p = ∅)
    (Hproj : with_projections = true →
             dom (projections_by_class p) ⊆ dom (occupancy_by_class p))
    (Hsubs : with_subscriptions = true →
             dom (sub_entries (subscriptions_by_class p)) ⊆ dom (occupancy_by_class p)) :
  get_free_places draw parking with_uncertainty vclass
                  with_projections with_subscriptions st
  = Ok (FreeTotal
          (total_capacity p - total_occupancy p
           - (if with_projections then occupancy_sum (projections_by_class p) else 0)
           - (if with_subscriptions then reserved_sum (subscriptions_by_class p) else 0)
           + (if with_uncertainty then draw else 0))).
Proof.
  assert (∃ occupancy1,
    (if with_projections
     then foldO add_projections (0, occupancy_by_class p)
                (map_to_list (projections_by_class p))
     else Ok (0, occupancy_by_class p))
    = Ok (if with_projections then occupancy_sum (projections_by_class p) else 0,
          occupancy1)
    ∧ dom occupancy1 = dom (occupancy_by_class p)) as (occupancy1 & Hrun1 & Hd1).
  { destruct with_projections; [|by eexists].
    destruct (foldO_add_projections_total (map_to_list (projections_by_class p))
                0 (occupancy_by_class p)) as (o & Hrun & Hd).
    { intros k Hk%keys_map_to_list. by apply elem_of_dom, Hproj. }
    exists o. by rewrite Hrun. }
  assert (∃ subscriptions occupancy2 partial,
    (if with_subscriptions
     then foldO add_subscriptions (∅, occupancy1, 0, 0)
                (map_to_list (sub_view (subscriptions_by_class p)))
     else Ok (∅, occupancy1, 0, 0))
    = Ok (subscriptions, occupancy2,
          if with_subscriptions then reserved_sum (subscriptions_by_class p) else 0,
          partial)) as (subscriptions & occupancy2 & partial & Hrun2).
  { destruct with_subscriptions; [|by eexists _, _, _].
    destruct (foldO_add_subscriptions_total
                (map_to_list (sub_view (subscriptions_by_class p)))
                ∅ occupancy1 0 0) as (s & o & q & Hrun & _).
    { intros k Hk%keys_map_to_list. apply elem_of_dom. rewrite Hd1.
      apply Hsubs; [done|]. unfold sub_view in Hk. by rewrite dom_fmap_L in Hk. }
    exists s, o, q. by rewrite Hrun. }
  unfold get_free_places. rewrite Hp. cbv zeta.
  rewrite Hrun1. cbn [mbind Outcome_bind]. rewrite Hrun2. cbn [mbind Outcome_bind].
  by destruct (decide (capacity_by_class p ≠ ∅)).
Qed.

Lemma get_free_places_total_witness :
  get_free_places 2 "P1" true None true true
    (with_parking_db
       (alter (with_projections_by_class {["car" := {["v5"; "v6"]}; "truck" := ∅]}) "P1")
       example_plain)
  = Ok (FreeTotal 7).
Proof.
  etransitivity.
  - apply (get_free_places_total 2 "P1" true None true true
             (with_projections_by_class {["car" := {["v5"; "v6"]}; "truck" := ∅]}
                (init_parking example_options "P1" (mkSumo "P1" "e1_0" 20) 10 3 0))).
    + vm_compute; reflexivity.
    + vm_compute; reflexivity.
    + intros _. compute_done.
    + intros _. compute_done.
  - vm_compute; reflexivity.
Defined.

(** ** The occupancy check *)

Lemma foldO_count_occupancy parking p (items : list (string * gset string)) :
  ∀ total total',
    foldO (count_occupancy parking p) total items = Ok total'
    ↔ (capacity_by_class p ≠ ∅ →
       ∀ v_class vehicles, (v_class, vehicles) ∈ items →
         ∃ capacity, capacity_by_class p !! v_class = Some capacity
                     ∧ Z.of_nat (size vehicles) ≤ capacity)
      ∧ total' = total + sumZ ((λ item : string * gset string, Z.of_nat (size item.2))
                                 <$> items).
Proof.
  unfold sumZ.
  induction items as [|[v_class value] items IH]; intros total total';
    cbn [foldO count_occupancy fmap list_fmap foldr snd].
  - split.
    + intros [= <-]. split; [|lia]. intros _ c v Hin. by apply elem_of_nil in Hin.
    + intros [_ ->]. f_equal. lia.
  - destruct (decide (capacity_by_class p ≠ ∅)) as [Hne|He].
    + destruct (capacity_by_class p !! v_class) as [capacity|] eqn:Hc.
      2: { split; [done|]. intros [Hall _].
           destruct (Hall Hne v_class value) as (c & Hc' & _);
             [apply list_elem_of_here | congruence]. }
      destruct (decide _) as [Hgt|Hle].
      { split; [done|]. intros [Hall _].
        destruct (Hall Hne v_class value) as (c & Hc' & Hle); [apply list_elem_of_here|].
        rewrite Hc in Hc'. injection Hc' as <-. lia. }
      rewrite IH. split.
      * intros [Hall ->]. split; [|lia].
        intros _ c v [[= -> ->]|Hin]%elem_of_cons; [|by apply Hall].
        exists capacity. split; [done|lia].
      * intros [Hall ->]. split; [|lia].
        intros _ c v Hin. apply Hall; [done|]. by apply list_elem_of_further.
    + rewrite IH. split; intros [_ ->]; (split; [done|lia]).
Qed.

(** X10: for a registered parking, [_validate_parking_occupancy] changes
    nothing and returns without raising exactly when the classes of
    [occupancy_by_class] are the configured ones, every class holds at most
    its capacity when the parking has capacities by class, and the sizes of
    the sets sum to [total_occupancy]. *)
Theorem _validate_parking_occupancy_spec
    (parking : string) (p : Parking) (st : State)
    (Hp : _parking_db st !! parking = Some p) :
  (_validate_parking_occupancy parking st).1 = st
  ∧ ((_validate_parking_occupancy parking st).2 = Ok tt
     ↔ occupancy_valid (_options st) p).
Proof.
  assert (_validate_parking_occupancy parking st
          = (st, check_parking_occupancy (_options st) parking p)) as ->.
  { unfold _validate_parking_occupancy.
    erewrite bind_Ok by (by apply parking_of_Some).
    by erewrite bind_Ok by reflexivity. }
  split; [done|]. cbn [snd]. unfold check_parking_occupancy, occupancy_valid, occupancy_sum.
  destruct (decide _) as [Hdom|Hdom].
  { split; [done|]. by intros [? _]. }
  apply dec_stable in Hdom.
  destruct (foldO _ 0 _) as [total|e] eqn:Hrun; cbn.
  - apply foldO_count_occupancy in Hrun as [Hall ->]. rewrite Z.add_0_l.
    destruct (decide _) as [Hsum|Hsum].
    + split; [done|]. by intros (_ & _ & ?).
    + apply dec_stable in Hsum. split; [|done]. intros _.
      split; [done|]. split; [|done].
      intros Hne c v Hin. apply Hall; [done|]. by apply elem_of_map_to_list.
  - split; [done|]. intros (_ & Hall & Hsum).
    assert (foldO (count_occupancy parking p) 0 (map_to_list (occupancy_by_class p))
            = Ok (0 + sumZ ((λ item : string * gset string, Z.of_nat (size item.2))
                              <$> map_to_list (occupancy_by_class p)))) as Hok.
    { apply foldO_count_occupancy. split; [|done].
      intros Hne c v Hin%elem_of_map_to_list. by apply Hall. }
    congruence.
Qed.

Lemma _validate_parking_occupancy_witness :
  (_validate_parking_occupancy "P1" example_lots).2 = Ok tt.
Proof.
  apply (proj2 (_validate_parking_occupancy_spec "P1"
                  (init_parking example_options "P1" (mkSumo "P1" "e1_0" 20) 10 0 0)
                  example_lots ltac:(vm_compute; reflexivity))).
  split; [vm_compute; reflexivity|]. split; [|vm_compute; reflexivity].
  intros Hne. destruct Hne. vm_compute; reflexivity.
Defined.

(** ** Loading and initialization *)





Lemma __init___parking_db options xml_tree capacity occupancy time (pid : string) :
  _parking_db (__init__ options xml_tree capacity occupancy time) !! pid
  = (λ attrib, init_parking options pid attrib (capacity pid) (occupancy pid) time)
      <$> (_load_parkings_and_routers options xml_tree).1.1 !! pid.
Proof.
  unfold __init__.
  destruct (_load_parkings_and_routers options xml_tree) as [[parkings routers] mapping].
  cbn. rewrite map_lookup_imap. by destruct (parkings !! pid).
Qed.

Lemma init_parking_fields opts pid attrib capacity occupancy time :
  ∃ capacities subscriptions u,
    init_parking opts pid attrib capacity occupancy time
    = mkParking attrib capacity occupancy [(occupancy, time)]
                (gset_to_gmap ∅ (vclasses opts)) (gset_to_gmap ∅ (vclasses opts))
                capacities subscriptions u
    ∧ capacities = default ∅ (specific_conf opts !! pid ≫= conf_capacity_by_class)
    ∧ subscriptions
      = default no_subscriptions
          (specific_conf opts !! pid ≫= conf_subscriptions_by_class).
Proof.
  unfold init_parking.
  destruct (specific_conf opts !! pid) as [[[c|] [s|] [u|]]|]; cbn;
    by eexists _, _, _.
Qed.




(** ** What the rerouter iterator yields *)

Lemma current_interval_all_running step current init end_ parkings :
  Forall (running step) (init ++ [(end_, parkings)]) →
  current_interval step current (init ++ [(end_, parkings)]) = Some parkings.
Proof.
  revert current. induction init as [|[e p] init IH]; intros current Hall.
  - cbn [app] in Hall. apply Forall_inv in Hall. unfold running in Hall.
    cbn [fst] in Hall.
    cbn [app current_interval]. by rewrite Hall.
  - cbn [app] in Hall. pose proof (Forall_inv Hall) as He.
    apply Forall_inv_tail in Hall. unfold running in He. cbn [fst] in He.
    cbn [app current_interval]. rewrite He. by apply IH.
Qed.

Lemma current_interval_then_ended step current init e1 p1 e2 p2 rest :
  Forall (running step) (init ++ [(e1, p1)]) →
  ¬ running step (e2, p2) →
  current_interval step current (init ++ [(e1, p1)] ++ (e2, p2) :: rest)
  = Some (match p1 with [] => p2 | _ :: _ => p1 end).
Proof.
  intros Hall Hended. apply not_true_is_false in Hended.
  unfold running in Hended. cbn [fst] in Hended.
  revert current Hall. induction init as [|[e p] init IH]; intros current Hall.
  - cbn [app] in Hall. apply Forall_inv in Hall. unfold running in Hall.
    cbn [fst] in Hall.
    cbn [app current_interval]. rewrite Hall, Hended. by destruct p1.
  - cbn [app] in Hall. pose proof (Forall_inv Hall) as He.
    apply Forall_inv_tail in Hall. unfold running in He. cbn [fst] in He.
    cbn [app current_interval]. rewrite He. by apply IH.
Qed.

(** X13: [get_rerouter_iterator] yields one record per rerouter, with its id
    and its edges.  The offer of a record is [None] for a rerouter without
    intervals; the offer of the first interval when that interval has ended
    before [step]; the offer of the last interval when no interval has ended;
    and, when the intervals up to one are still running and the next has
    ended, the offer of the last running one, or that of the ended one if the
    last running interval offers nothing. *)
Theorem get_rerouter_iterator_yields (step : Q) (st : State) :
  (∀ record,
     record ∈ get_rerouter_iterator step st
     ↔ ∃ id router,
         _routers_db st !! id = Some router
         ∧ record = mkRerouterInfo (router_id router) (edges router)
                      (current_interval step None (intervals router)))
  ∧ length (get_rerouter_iterator step st) = size (_routers_db st)
  ∧ current_interval step None [] = None
  ∧ (∀ end_ parkings rest,
       ¬ running step (end_, parkings) →
       current_interval step None ((end_, parkings) :: rest) = Some parkings)
  ∧ (∀ init end_ parkings,
       Forall (running step) (init ++ [(end_, parkings)]) →
       current_interval step None (init ++ [(end_, parkings)]) = Some parkings)
  ∧ (∀ init e1 p1 e2 p2 rest,
       Forall (running step) (init ++ [(e1, p1)]) →
       ¬ running step (e2, p2) →
       current_interval step None (init ++ [(e1, p1)] ++ (e2, p2) :: rest)
       = Some (match p1 with [] => p2 | _ :: _ => p1 end)).
Proof.
  split; [|split; [|split; [done|split; [|split]]]].
  - intros record. unfold get_rerouter_iterator.
    rewrite list_elem_of_fmap. split.
    + intros (router & -> & Hin). apply list_elem_of_fmap in Hin as ([id r] & -> & Hin).
      apply elem_of_map_to_list in Hin. by exists id, r.
    + intros (id & router & Hl & ->). exists router. split; [done|].
      apply list_elem_of_fmap. exists (id, router). split; [done|].
      by apply elem_of_map_to_list.
  - unfold get_rerouter_iterator. by rewrite !length_fmap, length_map_to_list.
  - intros end_ parkings rest Hended%not_true_is_false. unfold running in Hended.
    cbn [fst] in Hended. cbn [current_interval]. by rewrite Hended.
  - intros init end_ parkings. apply current_interval_all_running.
  - intros init e1 p1 e2 p2 rest. apply current_interval_then_ended.
Qed.

Lemma get_rerouter_iterator_yields_witness :
  current_interval 500 None ([] ++ [(1000, [("A", true)])] ++ (400, [("B", false)]) :: [])
  = Some [("A", true)].
Proof.
  apply (proj2 (proj2 (proj2 (proj2 (proj2
           (get_rerouter_iterator_yields 500 example_rerouters)))))
           [] 1000 [("A", true)] 400 [("B", false)] []).
  - constructor; [vm_compute; reflexivity | constructor].
  - vm_compute. discriminate.
Defined.

(** ** What a step leaves alone *)

#[local] Instance configuration_kept_refl : Reflexive configuration_kept.
Proof. by intros st. Qed.

#[local] Instance configuration_kept_trans : Transitive configuration_kept.
Proof.
  intros st1 st2 st3 (Ho & Hr & He & Hb & Ht & Hp) (Ho' & Hr' & He' & Hb' & Ht' & Hp').
  repeat split; try congruence; intros pid; by rewrite Hp', Hp.
Qed.

Lemma update_parking_keeps_configuration area (f : Parking → Parking) :
  (∀ p, configuration (f p) = configuration p) →
  preserves configuration_kept (update_parking area f).
Proof.
  intros Hf. apply preserves_modify. intros st. repeat split. intros pid. cbn.
  destruct (decide (area = pid)) as [->|Hne].
  - rewrite lookup_alter_eq. destruct (_parking_db st !! pid); cbn; [|done].
    by rewrite Hf.
  - by rewrite lookup_alter_ne.
Qed.

Ltac keeps_configuration :=
  frame_with ltac:(first
    [ apply update_parking_keeps_configuration; by intros []
    | apply preserves_modify; intros ?; by repeat split ]).

Lemma step_keeps_configuration traci : preserves configuration_kept (step traci).
Proof.
  unfold step, _monitor_vehicles, monitor_departed, _update_vehicles_db, update_vehicle,
    remove_projection, add_projection, _update_parking_db.
  apply preserves_bind; [apply _|keeps_configuration|intros _].
  apply preserves_bind; [apply _|keeps_configuration|intros _].
  apply preserves_bind; [apply _| |intros _].
  { apply preserves_modify. intros st. repeat split. intros pid. cbn.
    rewrite map_lookup_imap. destruct (_parking_db st !! pid); cbn; [|done].
    by destruct (decide _). }
  unfold ending_stop, starting_stop, _get_parking_area_from_vehicle,
    _validate_parking_occupancy. keeps_configuration.
Qed.

(** X14: a step, whether it completes or raises, never registers or drops
    a parking and never writes the configuration of one (its [sumo]
    attributes, total capacity, capacities by class, subscriptions and
    uncertainty), the options, the rerouters, or the travel-time structure
    and its blacklist.  So the rerouter iterator, the closest-parkings query
    and the capacity and subscription getters answer after the step as they
    did before. *)
Theorem step_keeps_the_configuration (traci : Traci) (st : State) :
  let st' := (step traci st).1 in
  configuration_kept st st'
  ∧ dom (_parking_db st') = dom (_parking_db st)
  ∧ (∀ t, get_rerouter_iterator t st' = get_rerouter_iterator t st)
  ∧ (∀ parking num, get_closest_parkings parking num st'
                    = get_closest_parkings parking num st)
  ∧ (∀ parking, get_parking_capacity_vclass parking st'
                = get_parking_capacity_vclass parking st)
  ∧ (∀ parking, get_parking_subscriptions parking st'
                = get_parking_subscriptions parking st)
  ∧ (∀ parking, get_parking_access parking st' = get_parking_access parking st).
Proof.
  intros st'. pose proof (step_keeps_configuration traci st) as Hkept.
  fold st' in Hkept. split; [done|].
  destruct Hkept as (Ho & Hr & He & Hb & Ht & Hp).
  assert (Hfield : ∀ parking, configuration <$> _parking_db st' !! parking
                              = configuration <$> _parking_db st !! parking) by done.
  split; [|split; [|split; [|split; [|split]]]].
  - apply set_eq. intros pid. rewrite !elem_of_dom, <- !(fmap_is_Some configuration).
    by rewrite Hp.
  - intros t. unfold get_rerouter_iterator. by rewrite Hr.
  - intros parking num. unfold get_closest_parkings. by rewrite Ht.
  - intros parking. unfold get_parking_capacity_vclass. specialize (Hfield parking).
    destruct (_parking_db st' !! parking), (_parking_db st !! parking);
      unfold configuration in Hfield; cbn in Hfield; simplify_eq; congruence.
  - intros parking. unfold get_parking_subscriptions. specialize (Hfield parking).
    destruct (_parking_db st' !! parking), (_parking_db st !! parking);
      unfold configuration in Hfield; cbn in Hfield; simplify_eq; congruence.
  - intros parking. unfold get_parking_access. specialize (Hfield parking).
    destruct (_parking_db st' !! parking), (_parking_db st !! parking);
      unfold configuration in Hfield; cbn in Hfield; simplify_eq; congruence.
Qed.

#[local] Instance tracking_grows_refl : Reflexive tracking_grows.
Proof. by intros st. Qed.

#[local] Instance tracking_grows_trans : Transitive tracking_grows.
Proof. intros st1 st2 st3 [Hv Hp] [Hv' Hp']. split; by etransitivity. Qed.

Ltac keeps_tracking :=
  frame_with ltac:(apply preserves_modify; intros ?; split; cbn;
                   first [ reflexivity
                         | apply union_subseteq_l
                         | rewrite dom_insert_L; apply union_subseteq_r
                         | by rewrite dom_alter_L ]).

Lemma step_tracking_grows traci : preserves tracking_grows (step traci).
Proof.
  unfold step, _monitor_vehicles, monitor_departed, _update_vehicles_db, update_vehicle,
    remove_projection, add_projection, _update_parking_db, _check_occupancy,
    ending_stop, starting_stop, _get_parking_area_from_vehicle,
    _validate_parking_occupancy, update_parking.
  keeps_tracking.
Qed.

(** X15: a step, whether it completes or raises, never drops a tracked
    vehicle and never removes a passenger: every vehicle tracked before the
    step is tracked after it, arrived or not, and every passenger recorded
    before is still recorded. *)
Theorem step_never_forgets (traci : Traci) (st : State) :
  let st' := (step traci st).1 in
  (∀ vehicle, is_Some (get_vehicle vehicle st) → is_Some (get_vehicle vehicle st'))
  ∧ _passengers_db st ⊆ _passengers_db st'.
Proof.
  intros st'. destruct (step_tracking_grows traci st) as [Hv Hp]. split; [|done].
  intros vehicle. unfold get_vehicle. rewrite <- !elem_of_dom. apply Hv.
Qed.

(** ** The occupancy counter and its series *)

#[local] Instance counter_kept_refl : Reflexive counter_kept.
Proof. by intros st pid. Qed.

#[local] Instance counter_kept_trans : Transitive counter_kept.
Proof. intros st1 st2 st3 H12 H23 pid. by rewrite H23, H12. Qed.

Lemma update_parking_keeps_counter area (f : Parking → Parking) :
  (∀ p, counter (f p) = counter p) →
  preserves counter_kept (update_parking area f).
Proof.
  intros Hf. apply preserves_modify. intros st pid. cbn.
  destruct (decide (area = pid)) as [->|Hne].
  - rewrite lookup_alter_eq. destruct (_parking_db st !! pid); cbn; [|done].
    by rewrite Hf.
  - by rewrite lookup_alter_ne.
Qed.

Ltac keeps_counter :=
  frame_with ltac:(first
    [ apply update_parking_keeps_counter; by intros []
    | apply preserves_modify; intros ? ?; reflexivity ]).

Lemma step_counter
    (traci : Traci) (st st' : State) (touched : gset string)
    (Hstep : step traci st = (st', Ok touched))
    (pid : string) (p' : Parking)
    (Hp' : _parking_db st' !! pid = Some p') :
  ∃ p, _parking_db st !! pid = Some p
       ∧ total_occupancy p' = parkingArea_occupancy traci pid
       ∧ occupancy_series p'
         = occupancy_series p
           ++ (if decide (total_occupancy p ≠ parkingArea_occupancy traci pid)
               then [(parkingArea_occupancy traci pid, getTime traci)] else []).
Proof.
  unfold step in Hstep.
  assert (Hbefore : preserves counter_kept
            (_monitor_vehicles traci (getTime traci);;
             _update_vehicles_db traci (getTime traci);; mret tt)).
  { unfold _monitor_vehicles, monitor_departed, _update_vehicles_db, update_vehicle,
      remove_projection, add_projection. keeps_counter. }
  specialize (Hbefore st).
  apply bind_Ok_inv in Hstep as (st1 & [] & Hmon & Hstep).
  apply bind_Ok_inv in Hstep as (st2 & [] & Hupd & Hstep).
  erewrite bind_Ok in Hbefore by exact Hmon.
  erewrite bind_Ok in Hbefore by exact Hupd. cbn in Hbefore.
  unfold _update_parking_db in Hstep.
  apply bind_Ok_inv in Hstep as (st3 & [] & Hocc & Hstep).
  match type of Hstep with
  | ?m st3 = _ => assert (Hafter : preserves counter_kept m)
  end.
  { unfold ending_stop, starting_stop, _get_parking_area_from_vehicle,
      _validate_parking_occupancy. keeps_counter. }
  specialize (Hafter st3). rewrite Hstep in Hafter. cbn in Hafter.
  specialize (Hafter pid). specialize (Hbefore pid). rewrite Hp' in Hafter.
  injection Hocc as <-. cbn in Hafter. rewrite map_lookup_imap in Hafter.
  destruct (_parking_db st2 !! pid) as [p2|] eqn:Hp2; [|done].
  destruct (_parking_db st !! pid) as [p|] eqn:Hp; [|done].
  exists p. split; [done|]. cbn in Hafter, Hbefore.
  injection Hbefore as Hto Hseries. rewrite <- Hto, <- Hseries.
  destruct (decide (total_occupancy p2 ≠ parkingArea_occupancy traci pid)) as [Hne|He];
    cbn in Hafter; injection Hafter as -> ->; [done|].
  apply dec_stable in He. by rewrite app_nil_r.
Qed.

(** X16: a completed step brings the counter of every parking up to date:
    [total_occupancy] is TraCI's count of this step, and the series is the
    one before the step, followed by the sample (count, time of the step)
    exactly when the count differs from the one held before. *)
Theorem step_samples_the_occupancy
    (traci : Traci) (st st' : State) (touched : gset string)
    (Hstep : step traci st = (st', Ok touched))
    (pid : string) (p' : Parking)
    (Hp' : _parking_db st' !! pid = Some p') :
  ∃ p, _parking_db st !! pid = Some p
       ∧ total_occupancy p' = parkingArea_occupancy traci pid
       ∧ occupancy_series p'
         = occupancy_series p
           ++ (if decide (total_occupancy p ≠ parkingArea_occupancy traci pid)
               then [(parkingArea_occupancy traci pid, getTime traci)] else []).
Proof. exact (step_counter traci st st' touched Hstep pid p' Hp'). Qed.

Lemma step_samples_the_occupancy_witness :
  ∃ p', _parking_db (step example_traci_next_stop example_departed).1 !! "P1" = Some p'
        ∧ total_occupancy p' = 1
        ∧ occupancy_series p' = [(0, 0%Q); (1, 2%Q)].
Proof.
  assert (∃ p', _parking_db (step example_traci_next_stop example_departed).1 !! "P1"
                = Some p') as [p' Hp'] by (eexists; vm_compute; reflexivity).
  assert (Hstep : step example_traci_next_stop example_departed
                  = ((step example_traci_next_stop example_departed).1, Ok {["P1"]}))
    by (vm_compute; reflexivity).
  destruct (step_samples_the_occupancy _ _ _ _ Hstep "P1" p' Hp')
    as (p & Hp & Htotal & Hseries).
  exists p'. split; [exact Hp'|]. split; [exact Htotal|]. rewrite Hseries.
  vm_compute in Hp. injection Hp as <-. vm_compute. reflexivity.
Defined.

Lemma steps_keep_series_up_to_date tracis :
  ∀ st st',
    steps tracis st = (st', Ok tt) →
    (∀ pid p, _parking_db st !! pid = Some p → series_up_to_date p) →
    ∀ pid p, _parking_db st' !! pid = Some p → series_up_to_date p.
Proof.
  unfold steps. induction tracis as [|traci tracis IH]; intros st st' Hrun Hinv; cbn in Hrun.
  - by injection Hrun as <-.
  - apply bind_Ok_inv in Hrun as (st1 & [] & Hstep & Hrun).
    apply bind_Ok_inv in Hstep as (st1' & touched & Hstep & [= <-]).
    apply (IH st1' st' Hrun). intros pid p' Hp'.
    destruct (step_counter traci st st1' touched Hstep pid p' Hp')
      as (p & Hp & Htotal & Hseries).
    destruct (Hinv pid p Hp) as [time Hlast]. unfold series_up_to_date.
    rewrite Hseries, Htotal. destruct (decide _) as [Hne|He].
    + exists (getTime traci). by rewrite last_snoc.
    + apply dec_stable in He. exists time. by rewrite app_nil_r, <- He.
Qed.

(** X17: along every run of completed steps that starts from [__init__],
    the last sample of the occupancy series of every parking is its current
    [total_occupancy]. *)
Theorem series_always_up_to_date
    (options : Options) (xml_tree : list XmlChild) (capacity occupancy : string → Z)
    (time : Q) (tracis : list Traci) (st' : State)
    (Hrun : steps tracis (__init__ options xml_tree capacity occupancy time)
            = (st', Ok tt))
    (pid : string) (p : Parking)
    (Hp : _parking_db st' !! pid = Some p) :
  series_up_to_date p.
Proof.
  eapply steps_keep_series_up_to_date; [exact Hrun| |exact Hp].
  intros pid0 p0 Hp0. rewrite __init___parking_db in Hp0.
  destruct (_ !! pid0) as [attrib|]; [|done]. injection Hp0 as <-.
  destruct (init_parking_fields options pid0 attrib (capacity pid0) (occupancy pid0) time)
    as (cs & ss & u & -> & _). by exists time.
Qed.

Lemma series_always_up_to_date_witness :
  series_up_to_date
    (with_total_occupancy 1 [(0, 0%Q); (1, 2%Q)]
       (with_projections_by_class {["car" := {["v1"]}; "truck" := ∅]}
          (init_parking example_options "P1" (mkSumo "P1" "e1_0" 20) 10 0 0))).
Proof.
  apply (series_always_up_to_date example_options example_lots_xml (λ _, 10) (λ _, 0) 0
           [example_traci_departure; example_traci_first_stop]
           (steps [example_traci_departure; example_traci_first_stop] example_lots).1
           ltac:(vm_compute; reflexivity) "P1").
  vm_compute; reflexivity.
Defined.

(** ** Monitoring the vehicles *)

Lemma update_vehicle_same step vehicle data v st :
  _vehicles_db st !! vehicle = Some v →
  _is_same_destinations (stops v) (parking_stops (var_next_stops data)) = true →
  update_vehicle step (vehicle, data) st
  = (with_passengers_db (λ db, db ∪ list_to_set (last_step_person_id_list data))
       (with_vehicles_db
          (alter (with_road (var_road_id data) (last_step_person_id_list data)) vehicle)
          st), Ok tt).
Proof.
  intros Hv Hsame. unfold update_vehicle, vehicle_of.
  unfold mbind at 1, M_bind at 1. rewrite Hv.
  erewrite bind_Ok by reflexivity. erewrite bind_Ok by reflexivity.
  unfold mbind at 1, M_bind at 1. cbn. rewrite lookup_alter_eq, Hv. cbn.
  by rewrite Hsame.
Qed.

(** X18: when every vehicle that TraCI reports on is tracked and its list
    of parking stops names the same places as its current stops,
    [_update_vehicles_db] completes, writes no parking, and leaves the stops,
    the history, the class and the final-stop stamp of every vehicle as they
    are: only roads and passengers are refreshed. *)
Theorem _update_vehicles_db_unchanged_plans (traci : Traci) (step : Q) (st : State)
    (Hsame : ∀ vehicle data,
       (vehicle, data) ∈ vehicle_getAllSubscriptionResults traci →
       ∃ v, _vehicles_db st !! vehicle = Some v
            ∧ _is_same_destinations (stops v) (parking_stops (var_next_stops data))
              = true) :
  ∃ st',
    _update_vehicles_db traci step st = (st', Ok tt)
    ∧ _parking_db st' = _parking_db st
    ∧ ∀ vehicle, plan <$> _vehicles_db st' !! vehicle = plan <$> _vehicles_db st !! vehicle.
Proof.
  unfold _update_vehicles_db.
  induction (vehicle_getAllSubscriptionResults traci) as [|[vehicle data] results IH]
    in st, Hsame |- *.
  - by exists st.
  - destruct (Hsame vehicle data) as (v & Hv & Hs); [apply list_elem_of_here|].
    cbn [forM_]. rewrite (bind_Ok _ _ _ _ _ (update_vehicle_same step _ _ _ _ Hv Hs)).
    set (st1 := with_passengers_db _ _).
    assert (Hplan : ∀ vehicle', plan <$> _vehicles_db st1 !! vehicle'
                                = plan <$> _vehicles_db st !! vehicle').
    { intros vehicle'. cbn. destruct (decide (vehicle = vehicle')) as [<-|Hne].
      - rewrite lookup_alter_eq. by destruct (_vehicles_db st !! vehicle).
      - by rewrite lookup_alter_ne. }
    destruct (IH st1) as (st' & Hrun & Hdb & Hplans).
    { intros vehicle' data' Hin.
      destruct (Hsame vehicle' data') as (v' & Hv' & Hs'); [by apply list_elem_of_further|].
      specialize (Hplan vehicle'). rewrite Hv' in Hplan.
      destruct (_vehicles_db st1 !! vehicle') as [v1|]; [|done].
      exists v1. split; [done|]. injection Hplan as Hstops _ _ _. by rewrite Hstops. }
    exists st'. split; [done|]. split; [by rewrite Hdb|].
    intros vehicle'. by rewrite Hplans, Hplan.
Qed.

Lemma _update_vehicles_db_unchanged_plans_witness :
  ∃ st',
    _update_vehicles_db example_traci_first_stop 2 example_departed = (st', Ok tt)
    ∧ _parking_db st' = _parking_db example_departed
    ∧ ∀ vehicle, plan <$> _vehicles_db st' !! vehicle
                 = plan <$> _vehicles_db example_departed !! vehicle.
Proof.
  apply (_update_vehicles_db_unchanged_plans example_traci_first_stop 2 example_departed).
  intros vehicle data Hin. apply list_elem_of_singleton in Hin. injection Hin as -> ->.
  eexists. split; vm_compute; reflexivity.
Defined.

#[local] Instance tracking_kept_refl : Reflexive tracking_kept.
Proof. by intros st. Qed.

#[local] Instance tracking_kept_trans : Transitive tracking_kept.
Proof.
  intros st1 st2 st3 (Ho12 & Hv12 & Hp12) (Ho23 & Hv23 & Hp23).
  repeat split; congruence.
Qed.

Lemma add_projection_keeps_tracking v_class vehicle area :
  preserves tracking_kept (add_projection v_class vehicle area).
Proof.
  unfold add_projection.
  frame_with ltac:(apply preserves_modify; intros ?; repeat split; reflexivity).
Qed.

Lemma monitor_departed_tracks traci step vehicle st st' :
  monitor_departed traci step vehicle st = (st', Ok tt) →
  _options st' = _options st
  ∧ dom (_vehicles_db st')
    = dom (_vehicles_db st)
      ∪ (if accepted (_options st) traci vehicle then {[vehicle]} else ∅)
  ∧ _passengers_db st'
    = _passengers_db st
      ∪ (if accepted (_options st) traci vehicle
         then list_to_set (getPersonIDList traci vehicle) else ∅).
Proof.
  unfold monitor_departed, accepted. erewrite bind_Ok by reflexivity.
  assert (Hskip : (mret () : M unit) st = (st', Ok ()) →
    _options st' = _options st
    ∧ dom (_vehicles_db st') = dom (_vehicles_db st) ∪ ∅
    ∧ _passengers_db st' = _passengers_db st ∪ ∅).
  { intros [= <-]. by rewrite !(right_id_L ∅ (∪)). }
  assert (Htake :
    ((modify (with_passengers_db (λ db, db ∪ list_to_set (getPersonIDList traci vehicle)));;
     modify (with_vehicles_db
               <[vehicle := mkVehicle vehicle step "" (parking_stops (getNextStops traci vehicle))
                              [] (getVehicleClass traci vehicle)
                              (getPersonIDList traci vehicle) None None]>);;
     forM_ (add_projection (getVehicleClass traci vehicle) vehicle)
           (elements (stop_places (parking_stops (getNextStops traci vehicle))))) : M unit) st
    = (st', Ok ()) →
    _options st' = _options st
    ∧ dom (_vehicles_db st') = dom (_vehicles_db st) ∪ {[vehicle]}
    ∧ _passengers_db st'
      = _passengers_db st ∪ list_to_set (getPersonIDList traci vehicle)).
  { intros Hrun.
    apply bind_Ok_inv in Hrun as (? & [] & [= <-] & Hrun).
    apply bind_Ok_inv in Hrun as (? & [] & [= <-] & Hrun).
    match type of Hrun with
    | forM_ ?f ?l ?s = _ =>
        pose proof (preserves_forM_ tracking_kept f l
                      (add_projection_keeps_tracking _ _) s) as Hkept
    end.
    rewrite Hrun in Hkept. cbn [fst] in Hkept. destruct Hkept as (-> & -> & ->). cbn.
    split; [done|]. split; [|done]. rewrite dom_insert_L. apply (comm_L (∪)). }
  destruct (only_parkings (_options st)); cbn [andb orb negb]; [|exact Htake].
  destruct (bool_decide (getVehicleClass traci vehicle ∈ ["bus"; "rail"]));
    cbn [andb orb negb]; [exact Hskip|].
  destruct (bool_decide (parking_stops (getNextStops traci vehicle) = []));
    cbn [andb orb negb]; [exact Hskip | exact Htake].
Qed.

(** X19: when [_monitor_vehicles] completes, the tracked vehicles are those
    tracked before and the departed vehicles it takes up (all of them, or,
    when only vehicles bound for a parking are wanted, those that are neither
    bus nor train and have a stop at a parking area), and the passengers
    known are those known before and the ones aboard the vehicles taken up. *)
Theorem _monitor_vehicles_tracks (traci : Traci) (step : Q) (st st' : State)
    (Hrun : _monitor_vehicles traci step st = (st', Ok tt)) :
  let taken := filter (λ vehicle, accepted (_options st) traci vehicle = true)
                      (getDepartedIDList traci) in
  dom (_vehicles_db st') = dom (_vehicles_db st) ∪ list_to_set taken
  ∧ _passengers_db st'
    = _passengers_db st ∪ ⋃ ((λ vehicle, list_to_set (getPersonIDList traci vehicle)) <$> taken).
Proof.
  unfold _monitor_vehicles in Hrun.
  apply bind_Ok_inv in Hrun as (st1 & [] & Hdeparted & Harrived).
  assert (Hst1 : dom (_vehicles_db st') = dom (_vehicles_db st1)
                 ∧ _passengers_db st' = _passengers_db st1).
  { clear Hdeparted. induction (getArrivedIDList traci) as [|vehicle arrived IH] in st1, Harrived |- *.
    - by injection Harrived as <-.
    - cbn [forM_] in Harrived. apply bind_Ok_inv in Harrived as (? & [] & [= <-] & Harrived).
      apply IH in Harrived as [-> ->]. cbn. by rewrite dom_alter_L. }
  destruct Hst1 as [-> ->]. clear Harrived st'. cbn zeta.
  induction (getDepartedIDList traci) as [|vehicle departed IH] in st, Hdeparted |- *.
  - injection Hdeparted as <-. cbn. by rewrite !(right_id_L ∅ (∪)).
  - cbn [forM_] in Hdeparted. apply bind_Ok_inv in Hdeparted as (st0 & [] & Hone & Hdeparted).
    apply monitor_departed_tracks in Hone as (Ho & Hv & Hp).
    apply IH in Hdeparted as [-> ->]. rewrite Ho, Hv, Hp. rewrite filter_cons.
    destruct (accepted (_options st) traci vehicle).
    + rewrite decide_True by done. cbn. split; by rewrite (assoc_L (∪)).
    + rewrite decide_False by done. by rewrite !(right_id_L ∅ (∪)).
Qed.

Lemma _monitor_vehicles_tracks_witness :
  let st' := (_monitor_vehicles example_traci_departure 1 example_lots).1 in
  let taken := filter (λ vehicle, accepted (_options example_lots) example_traci_departure vehicle = true)
                      (getDepartedIDList example_traci_departure) in
  dom (_vehicles_db st') = dom (_vehicles_db example_lots) ∪ list_to_set taken
  ∧ _passengers_db st'
    = _passengers_db example_lots
      ∪ ⋃ ((λ vehicle, list_to_set (getPersonIDList example_traci_departure vehicle)) <$> taken).
Proof.
  refine (_monitor_vehicles_tracks example_traci_departure 1 example_lots _ _).
  vm_compute; reflexivity.
Defined.

(** ** The projections *)

Lemma add_projection_projected v_class vehicle area st st' :
  add_projection v_class vehicle area st = (st', Ok tt) →
  _vehicles_db st' = _vehicles_db st
  ∧ ∀ area' v_class',
      projected st' area' v_class'
      = (if decide (area' = area ∧ v_class' = v_class)
         then (λ vehicles, vehicles ∪ {[vehicle]}) else id) <$> projected st area' v_class'.
Proof.
  unfold add_projection, parking_of. unfold mbind at 1, M_bind at 1.
  destruct (_parking_db st !! area) as [p|] eqn:Hp; [|done].
  destruct (projections_by_class p !! v_class) as [vehicles|] eqn:Hvs; [|done].
  intros [= <-]. split; [done|]. intros area' v_class'. unfold projected. cbn.
  destruct (decide (area' = area)) as [->|Ha].
  - rewrite lookup_alter_eq, Hp. cbn.
    destruct (decide (v_class' = v_class)) as [->|Hc].
    + rewrite lookup_insert_eq, Hvs. by rewrite decide_True.
    + rewrite lookup_insert_ne by done. rewrite decide_False by (by intros [_ ?]).
      by rewrite option_fmap_id.
  - rewrite lookup_alter_ne by done. rewrite decide_False by (by intros [? _]).
    cbn. by rewrite option_fmap_id.
Qed.

Lemma remove_projection_projected v_class vehicle area st st' :
  remove_projection v_class vehicle area st = (st', Ok tt) →
  _vehicles_db st' = _vehicles_db st
  ∧ ∀ area' v_class',
      projected st' area' v_class'
      = (if decide (area' = area ∧ v_class' = v_class)
         then (λ vehicles, vehicles ∖ {[vehicle]}) else id) <$> projected st area' v_class'.
Proof.
  unfold remove_projection, parking_of. unfold mbind at 1, M_bind at 1.
  destruct (_parking_db st !! area) as [p|] eqn:Hp; [|done].
  destruct (projections_by_class p !! v_class) as [vehicles|] eqn:Hvs; [|done].
  destruct (decide (vehicle ∈ vehicles)); [|done].
  intros [= <-]. split; [done|]. intros area' v_class'. unfold projected. cbn.
  destruct (decide (area' = area)) as [->|Ha].
  - rewrite lookup_alter_eq, Hp. cbn.
    destruct (decide (v_class' = v_class)) as [->|Hc].
    + rewrite lookup_insert_eq, Hvs. by rewrite decide_True.
    + rewrite lookup_insert_ne by done. rewrite decide_False by (by intros [_ ?]).
      by rewrite option_fmap_id.
  - rewrite lookup_alter_ne by done. rewrite decide_False by (by intros [? _]).
    cbn. by rewrite option_fmap_id.
Qed.

Lemma projected_loop (f : string → M unit) (op : gset string → gset string)
    (v_class : string) (l : list string) st st' :
  (∀ area st st', f area st = (st', Ok tt) →
     _vehicles_db st' = _vehicles_db st
     ∧ ∀ area' v_class',
         projected st' area' v_class'
         = (if decide (area' = area ∧ v_class' = v_class) then op else id)
             <$> projected st area' v_class') →
  (∀ vehicles, op (op vehicles) = op vehicles) →
  forM_ f l st = (st', Ok tt) →
  _vehicles_db st' = _vehicles_db st
  ∧ ∀ area' v_class',
      projected st' area' v_class'
      = (if decide (area' ∈ l ∧ v_class' = v_class) then op else id)
          <$> projected st area' v_class'.
Proof.
  intros Hf Hop. induction l as [|area l IH] in st |- *; cbn [forM_].
  - intros [= <-]. split; [done|]. intros area' v_class'.
    rewrite decide_False by (intros [?%elem_of_nil _]; done). by rewrite option_fmap_id.
  - intros Hrun. apply bind_Ok_inv in Hrun as (st1 & [] & Hone & Hrun).
    apply Hf in Hone as [Hv1 Hp1]. apply IH in Hrun as [Hv Hp].
    split; [congruence|]. intros area' v_class'. rewrite Hp, Hp1.
    destruct (projected st area' v_class') as [vehicles|]; [|done]. cbn. f_equal.
    repeat case_decide; rewrite ?elem_of_cons in *; cbn;
      first [done | by rewrite Hop | exfalso; tauto].
Qed.

Lemma projections_exact_ext st st' :
  (∀ area v_class, projected st' area v_class = projected st area v_class) →
  (∀ vehicle, (λ v, (vClass v, stops v)) <$> _vehicles_db st' !! vehicle
              = (λ v, (vClass v, stops v)) <$> _vehicles_db st !! vehicle) →
  projections_exact st → projections_exact st'.
Proof.
  intros Hp Hv Hinv area v_class vehicles vehicle Hvs.
  rewrite Hp in Hvs. rewrite (Hinv _ _ _ vehicle Hvs). specialize (Hv vehicle).
  destruct (_vehicles_db st !! vehicle) as [v|], (_vehicles_db st' !! vehicle) as [v'|];
    [|done..].
  injection Hv as Hc Hs.
  split; intros (? & [= <-] & <- & Ha); eexists; (split; [done|]);
    [by rewrite Hs | by rewrite <- Hs].
Qed.

Lemma projections_kept_exact st st' :
  projections_kept st st' → projections_exact st → projections_exact st'.
Proof.
  intros [Hv Hp]. apply projections_exact_ext.
  - intros area v_class. unfold projected. specialize (Hp area).
    destruct (_parking_db st !! area) as [p|], (_parking_db st' !! area) as [p'|]; try done.
    injection Hp as Hp. cbn. by rewrite Hp.
  - intros vehicle. by rewrite Hv.
Qed.

Lemma monitor_departed_exact traci step vehicle st st' :
  projections_exact st → vehicle ∉ dom (_vehicles_db st) →
  monitor_departed traci step vehicle st = (st', Ok tt) →
  projections_exact st'.
Proof.
  intros Hinv Hnew. unfold monitor_departed. erewrite bind_Ok by reflexivity.
  assert (Hskip : (mret () : M unit) st = (st', Ok ()) → projections_exact st').
  { by intros [= <-]. }
  assert (Htake :
    ((modify (with_passengers_db (λ db, db ∪ list_to_set (getPersonIDList traci vehicle)));;
     modify (with_vehicles_db
               <[vehicle := mkVehicle vehicle step "" (parking_stops (getNextStops traci vehicle))
                              [] (getVehicleClass traci vehicle)
                              (getPersonIDList traci vehicle) None None]>);;
     forM_ (add_projection (getVehicleClass traci vehicle) vehicle)
           (elements (stop_places (parking_stops (getNextStops traci vehicle))))) : M unit) st
    = (st', Ok ()) → projections_exact st').
  { intros Hrun.
    apply bind_Ok_inv in Hrun as (? & [] & [= <-] & Hrun).
    apply bind_Ok_inv in Hrun as (? & [] & [= <-] & Hrun).
    apply (projected_loop _ (λ vehicles, vehicles ∪ {[vehicle]})
             (getVehicleClass traci vehicle)) in Hrun as [Hv Hp];
      [|intros; by apply add_projection_projected
       |intros; by rewrite <- (assoc_L (∪)), (idemp_L (∪))].
    intros area v_class vehicles' vehicle' Hvs'. rewrite Hp in Hvs'.
    change (projected (with_vehicles_db _ _) area v_class)
      with (projected st area v_class) in Hvs'.
    destruct (projected st area v_class) as [vehicles|] eqn:Hvs; [|done].
    injection Hvs' as <-. rewrite Hv. cbn [_vehicles_db with_vehicles_db with_passengers_db].
    specialize (Hinv _ _ _ vehicle' Hvs).
    destruct (decide (vehicle' = vehicle)) as [->|Hne].
    - rewrite lookup_insert_eq.
      assert (Hout : vehicle ∉ vehicles).
      { rewrite Hinv. intros (v & Hv' & _). apply not_elem_of_dom in Hnew. congruence. }
      case_decide as Hcase.
      + destruct Hcase as [Ha%elem_of_elements ->]. split.
        * intros _. eexists. split; [done|]. by split.
        * intros _. apply elem_of_union_r, elem_of_singleton. done.
      + split; [done|]. intros (v & [= <-] & Hc & Ha). cbn in Hc, Ha.
        destruct Hcase. split; [by apply elem_of_elements | done].
    - rewrite lookup_insert_ne by done. rewrite <- Hinv.
      case_decide; cbn; [|done].
      rewrite elem_of_union, elem_of_singleton. tauto. }
  destruct (only_parkings (_options st)); cbn [andb orb negb]; [|exact Htake].
  destruct (bool_decide (getVehicleClass traci vehicle ∈ ["bus"; "rail"]));
    cbn [andb orb negb]; [exact Hskip|].
  destruct (bool_decide (parking_stops (getNextStops traci vehicle) = []));
    cbn [andb orb negb]; [exact Hskip | exact Htake].
Qed.

Lemma projections_exact_restop st st' vehicle v0 current :
  projections_exact st →
  _vehicles_db st !! vehicle = Some v0 →
  (∀ vehicle', vehicle' ≠ vehicle →
     _vehicles_db st' !! vehicle' = _vehicles_db st !! vehicle') →
  (∃ v', _vehicles_db st' !! vehicle = Some v'
         ∧ vClass v' = vClass v0 ∧ stops v' = current) →
  (∀ area v_class,
     projected st' area v_class
     = (if decide (area ∈ elements (stop_places current ∖ stop_places (stops v0))
                   ∧ v_class = vClass v0)
        then (λ vehicles, vehicles ∪ {[vehicle]}) else id)
         <$> ((if decide (area ∈ elements (stop_places (stops v0) ∖ stop_places current)
                          ∧ v_class = vClass v0)
               then (λ vehicles, vehicles ∖ {[vehicle]}) else id)
                <$> projected st area v_class)) →
  projections_exact st'.
Proof.
  intros Hinv Hv0 Hother (v' & Hv' & Hc & Hs) Hp area v_class vehicles' vehicle' Hvs'.
  rewrite Hp in Hvs'. destruct (projected st area v_class) as [vehicles|] eqn:Hvs; [|done].
  injection Hvs' as <-. specialize (Hinv _ _ _ vehicle' Hvs).
  destruct (decide (vehicle' = vehicle)) as [->|Hne].
  - rewrite Hv'. rewrite Hv0 in Hinv.
    assert (Hin : vehicle ∈ vehicles ↔ vClass v0 = v_class ∧ area ∈ stop_places (stops v0)).
    { rewrite Hinv. split; [by intros (v & [= <-] & ?) | intros ?; by exists v0]. }
    transitivity (vClass v0 = v_class ∧ area ∈ stop_places current).
    2: { split.
         - intros [? ?]. exists v'. by rewrite Hc, Hs.
         - intros (v & [= <-] & ? & ?). by rewrite <- Hc, <- Hs. }
    destruct (decide (area ∈ stop_places current)),
             (decide (area ∈ stop_places (stops v0))),
             (decide (v_class = vClass v0)) as [->|];
      repeat case_decide; cbn;
      rewrite ?elem_of_union, ?elem_of_difference, ?elem_of_singleton, ?Hin;
      rewrite ?elem_of_elements, ?elem_of_difference in *;
      try tauto; split; intros; exfalso; intuition congruence.
  - rewrite Hother by done. rewrite <- Hinv.
    repeat case_decide; cbn;
      rewrite ?elem_of_union, ?elem_of_difference, ?elem_of_singleton; tauto.
Qed.

Lemma update_vehicle_exact step item st st' :
  projections_exact st →
  update_vehicle step item st = (st', Ok tt) →
  projections_exact st'.
Proof.
  intros Hinv. destruct item as [vehicle data]. unfold update_vehicle, vehicle_of.
  unfold mbind at 1, M_bind at 1.
  destruct (_vehicles_db st !! vehicle) as [v0|] eqn:Hv0; [|done].
  erewrite bind_Ok by reflexivity. erewrite bind_Ok by reflexivity.
  unfold mbind at 1, M_bind at 1. cbn [_vehicles_db with_vehicles_db with_passengers_db].
  rewrite lookup_alter_eq, Hv0. cbn [fmap option_fmap option_map stops with_road vClass
                                     final_stop_arrival].
  set (st2 := with_passengers_db _ _).
  assert (Hst2 : projections_exact st2).
  { revert Hinv. apply projections_exact_ext; [done|]. intros vehicle'. cbn.
    destruct (decide (vehicle' = vehicle)) as [->|Hne].
    - rewrite lookup_alter_eq. by destruct (_vehicles_db st !! vehicle).
    - by rewrite lookup_alter_ne. }
  destruct (_is_same_destinations _ _); [by intros [= <-]|].
  intros Hrun.
  apply bind_Ok_inv in Hrun as (st3 & [] & Hremove & Hrun).
  apply bind_Ok_inv in Hrun as (st4 & [] & Hadd & Hrun).
  apply bind_Ok_inv in Hrun as (? & [] & [= <-] & Hrun).
  apply (projected_loop _ (λ vehicles, vehicles ∖ {[vehicle]}) (vClass v0))
    in Hremove as [Hv3 Hp3];
    [|intros; by apply remove_projection_projected
     |intros; apply set_eq; intros ?; rewrite !elem_of_difference; tauto].
  apply (projected_loop _ (λ vehicles, vehicles ∪ {[vehicle]}) (vClass v0))
    in Hadd as [Hv4 Hp4];
    [|intros; by apply add_projection_projected
     |intros; by rewrite <- (assoc_L (∪)), (idemp_L (∪))].
  assert (Hv2 : _vehicles_db st2 !! vehicle
                = Some (with_road (var_road_id data) (last_step_person_id_list data) v0)).
  { cbn. by rewrite lookup_alter_eq, Hv0. }
  apply (projections_exact_restop st2 st' vehicle _ (parking_stops (var_next_stops data))
           Hst2 Hv2).
  - intros vehicle' Hne. revert Hrun. destruct (_ && _); intros [= <-]; cbn;
      rewrite ?lookup_alter_ne by done; rewrite Hv4, Hv3; cbn; by rewrite lookup_alter_ne.
  - revert Hrun. destruct (_ && _); intros [= <-]; cbn;
      rewrite ?lookup_alter_eq, Hv4, Hv3, Hv2; cbn; by eexists.
  - intros area v_class.
    assert (projected st' area v_class = projected st4 area v_class) as ->.
    { revert Hrun. by destruct (_ && _); intros [= <-]. }
    by rewrite Hp4, Hp3.
Qed.

Lemma monitor_loop_exact traci step departed st st' :
  projections_exact st → NoDup departed →
  (∀ vehicle, vehicle ∈ departed → vehicle ∉ dom (_vehicles_db st)) →
  forM_ (monitor_departed traci step) departed st = (st', Ok tt) →
  projections_exact st'
  ∧ dom (_vehicles_db st') ⊆ dom (_vehicles_db st) ∪ list_to_set departed.
Proof.
  induction departed as [|vehicle departed IH] in st |- *; cbn [forM_].
  - intros Hinv _ _ [= <-]. split; [done|]. apply union_subseteq_l.
  - intros Hinv [Hnotin Hnodup]%NoDup_cons Hnew Hrun.
    apply bind_Ok_inv in Hrun as (st1 & [] & Hone & Hrun).
    pose proof (monitor_departed_tracks _ _ _ _ _ Hone) as (_ & Hdom & _).
    apply monitor_departed_exact in Hone; [|done|apply Hnew, list_elem_of_here].
    apply IH in Hrun as [Hinv' Hsub]; [|done..|].
    + split; [done|]. rewrite Hdom in Hsub. cbn [list_to_set].
      intros x Hx. apply Hsub in Hx. revert Hx. rewrite !elem_of_union.
      destruct (accepted _ _ _); rewrite ?elem_of_singleton, ?elem_of_empty; tauto.
    + intros vehicle' Hin. rewrite Hdom, not_elem_of_union. split.
      * apply Hnew. by apply list_elem_of_further.
      * destruct (accepted _ _ _); [|apply not_elem_of_empty].
        apply not_elem_of_singleton. by intros ->.
Qed.

#[local] Instance projections_kept_refl : Reflexive projections_kept.
Proof. by intros st. Qed.

#[local] Instance projections_kept_trans : Transitive projections_kept.
Proof.
  intros st1 st2 st3 [Hv12 Hp12] [Hv23 Hp23]. split; [congruence|].
  intros area. by rewrite Hp23, Hp12.
Qed.

Lemma update_parking_keeps_projections area (f : Parking → Parking) :
  (∀ p, projections_by_class (f p) = projections_by_class p) →
  preserves projections_kept (update_parking area f).
Proof.
  intros Hf. apply preserves_modify. intros st. split; [done|]. intros area'. cbn.
  destruct (decide (area' = area)) as [->|Hne].
  - rewrite lookup_alter_eq. destruct (_parking_db st !! area); cbn; by rewrite ?Hf.
  - by rewrite lookup_alter_ne.
Qed.

Lemma _update_parking_db_keeps_projections traci step :
  preserves projections_kept (_update_parking_db traci step).
Proof.
  unfold _update_parking_db, _check_occupancy, ending_stop, starting_stop,
    _get_parking_area_from_vehicle, _validate_parking_occupancy.
  frame_with ltac:(first
    [ apply update_parking_keeps_projections; by intros []
    | apply preserves_modify; intros ?; split; [reflexivity|]; intros ?; cbn;
      rewrite ?map_lookup_imap; try reflexivity ]).
  destruct (_parking_db _ !! _); cbn; [|done]. by destruct (decide _).
Qed.

Lemma update_vehicle_keeps_tracked step item st :
  dom (_vehicles_db (update_vehicle step item st).1) = dom (_vehicles_db st).
Proof.
  destruct item as [vehicle data].
  assert (Hloop : ∀ f : string → M unit,
            (∀ area, preserves vehicles_kept (f area)) →
            ∀ l st, _vehicles_db (forM_ f l st).1 = _vehicles_db st).
  { intros f Hf l st0. by destruct (preserves_forM_ vehicles_kept f l Hf st0). }
  unfold update_vehicle, vehicle_of. unfold mbind at 1, M_bind at 1.
  destruct (_vehicles_db st !! vehicle) as [v0|] eqn:Hv0; [|done].
  erewrite bind_Ok by reflexivity. erewrite bind_Ok by reflexivity.
  unfold mbind at 1, M_bind at 1. cbn [_vehicles_db with_vehicles_db with_passengers_db].
  rewrite lookup_alter_eq, Hv0. cbn [fmap option_fmap option_map].
  destruct (_is_same_destinations _ _); [cbn; by rewrite dom_alter_L|].
  unfold mbind, M_bind.
  match goal with
  | |- context [forM_ (remove_projection ?c ?v) ?l ?s] =>
      pose proof (Hloop (remove_projection c v)
                    ltac:(intros ?; unfold remove_projection; keeps_vehicles) l s) as H3;
      destruct (forM_ (remove_projection c v) l s) as [st3 [[]|e]]; cbn [fst] in *;
      [|by rewrite H3; cbn; rewrite dom_alter_L]
  end.
  match goal with
  | |- context [forM_ (add_projection ?c ?v) ?l ?s] =>
      pose proof (Hloop (add_projection c v)
                    ltac:(intros ?; unfold add_projection; keeps_vehicles) l s) as H4;
      destruct (forM_ (add_projection c v) l s) as [st4 [[]|e]]; cbn [fst] in *;
      [|by rewrite H4, H3; cbn; rewrite dom_alter_L]
  end.
  destruct (_ && _); cbn; rewrite ?dom_alter_L, H4, H3; cbn; by rewrite dom_alter_L.
Qed.

Lemma step_exact traci st st' touched :
  projections_exact st → NoDup (getDepartedIDList traci) →
  (∀ vehicle, vehicle ∈ getDepartedIDList traci → vehicle ∉ dom (_vehicles_db st)) →
  step traci st = (st', Ok touched) →
  projections_exact st'
  ∧ dom (_vehicles_db st') ⊆ dom (_vehicles_db st) ∪ list_to_set (getDepartedIDList traci).
Proof.
  intros Hinv Hnodup Hnew Hrun. unfold step, _monitor_vehicles in Hrun.
  apply bind_Ok_inv in Hrun as (st2 & [] & Hmonitor & Hrun).
  apply bind_Ok_inv in Hmonitor as (st1 & [] & Hdeparted & Harrived).
  apply bind_Ok_inv in Hrun as (st3 & [] & Hupdate & Hrun).
  apply monitor_loop_exact in Hdeparted as [Hinv1 Hdom1]; [|done..].
  assert (Hst2 : projections_exact st2 ∧ dom (_vehicles_db st2) = dom (_vehicles_db st1)).
  { clear Hdom1 Hupdate. induction (getArrivedIDList traci) as [|vehicle arrived IH]
      in st1, Hinv1, Harrived |- *; cbn [forM_] in Harrived.
    - by injection Harrived as <-.
    - apply bind_Ok_inv in Harrived as (? & [] & [= <-] & Harrived).
      apply IH in Harrived as [Hinv2 ->].
      + split; [done|]. cbn. by rewrite dom_alter_L.
      + revert Hinv1. apply projections_exact_ext; [done|]. intros vehicle'. cbn.
        destruct (decide (vehicle' = vehicle)) as [->|Hne].
        * rewrite lookup_alter_eq. by destruct (_vehicles_db st1 !! vehicle).
        * by rewrite lookup_alter_ne. }
  destruct Hst2 as [Hinv2 Hdom2].
  assert (Hst3 : projections_exact st3 ∧ dom (_vehicles_db st3) = dom (_vehicles_db st2)).
  { clear Hdom2 Harrived. unfold _update_vehicles_db in Hupdate.
    induction (vehicle_getAllSubscriptionResults traci) as [|item results IH]
      in st2, Hinv2, Hupdate |- *; cbn [forM_] in Hupdate.
    - by injection Hupdate as <-.
    - apply bind_Ok_inv in Hupdate as (st2' & [] & Hone & Hupdate).
      pose proof (update_vehicle_keeps_tracked (getTime traci) item st2) as Hd.
      rewrite Hone in Hd. cbn [fst] in Hd.
      apply update_vehicle_exact in Hone; [|done].
      apply IH in Hupdate as [Hinv3 ->]; [|done]. by split. }
  destruct Hst3 as [Hinv3 Hdom3].
  pose proof (_update_parking_db_keeps_projections traci (getTime traci) st3) as Hkept.
  rewrite Hrun in Hkept. cbn [fst] in Hkept. split.
  - by apply (projections_kept_exact st3).
  - destruct Hkept as [-> _]. by rewrite Hdom3, Hdom2.
Qed.

Lemma __init___exact options xml_tree capacity occupancy time :
  projections_exact (__init__ options xml_tree capacity occupancy time).
Proof.
  intros area v_class vehicles vehicle Hvs. unfold projected in Hvs.
  rewrite __init___parking_db in Hvs.
  destruct (_ !! area) as [attrib|]; [|done]. cbn in Hvs.
  destruct (init_parking_fields options area attrib (capacity area) (occupancy area) time)
    as (cs & ss & u & Hp & _).
  rewrite Hp in Hvs. cbn in Hvs. apply lookup_gset_to_gmap_Some in Hvs as [_ <-].
  split; [by intros ?%elem_of_empty|]. intros (v & Hv & _). revert Hv.
  unfold __init__. destruct (_load_parkings_and_routers options xml_tree) as [[? ?] ?].
  cbn. by rewrite lookup_empty.
Qed.


(** X20: a completed [step] keeps the projections exact, provided that no
    vehicle departs twice in it and none that departs is tracked already:
    under every class, the set that [projections_by_class] of a parking
    holds is the set of the tracked vehicles of that class whose current
    stops name the parking. *)
Theorem step_keeps_projections_exact (traci : Traci) (st st' : State)
    (touched : gset string)
    (Hexact : projections_exact st)
    (Hnodup : NoDup (getDepartedIDList traci))
    (Hnew : ∀ vehicle, vehicle ∈ getDepartedIDList traci →
                       vehicle ∉ dom (_vehicles_db st))
    (Hstep : step traci st = (st', Ok touched)) :
  projections_exact st'.
Proof. by destruct (step_exact traci st st' touched Hexact Hnodup Hnew Hstep). Qed.

Lemma step_keeps_projections_exact_witness : projections_exact example_departed.
Proof.
  assert (Hstep : ∃ touched,
            step example_traci_departure example_lots = (example_departed, Ok touched)).
  { eexists. vm_compute. reflexivity. }
  destruct Hstep as [touched Hstep].
  apply (step_keeps_projections_exact example_traci_departure example_lots
           example_departed touched).
  - apply __init___exact.
  - apply NoDup_singleton.
  - intros vehicle _.
    assert (_vehicles_db example_lots = ∅) as -> by (vm_compute; reflexivity).
    rewrite dom_empty_L. apply not_elem_of_empty.
  - exact Hstep.
Defined.



(** ** The travel times *)

Lemma forM__invariant {A} (J : State → Prop) (f : A → M unit) (l : list A) :
  (∀ a, a ∈ l → ∀ st, J st → J (f a st).1) →
  ∀ st, J st → J (forM_ f l st).1.
Proof.
  induction l as [|a l IH]; intros Hf st HJ; cbn [forM_]; [done|].
  unfold mbind, M_bind. pose proof (Hf a (list_elem_of_here _ _) st HJ) as H1.
  destruct (f a st) as [st1 [[]|e]]; [|done].
  apply IH; [|done]. intros a' Ha'. apply Hf. by apply list_elem_of_further.
Qed.

Lemma insert_sorted_not_nil x l : insert_sorted x l ≠ [].
Proof. destruct l as [|y l]; cbn; [done|]. by destruct (tuple_leb y x). Qed.

Lemma sort_distances_Forall (P : Q * string → Prop) l :
  Forall P l → Forall P (sort_distances l).
Proof.
  induction 1 as [|x l Hx Hl IH]; cbn; [constructor|]. by apply insert_sorted_Forall.
Qed.

Lemma travel_time_pair_sound findRoute db (from to : Parking) st :
  from ∈ (map_to_list db).*2 → to ∈ (map_to_list db).*2 →
  (∀ from_pid distances,
     _static_parking_travel_time st !! from_pid = Some distances →
     distances ≠ [] ∧ Forall (reachable findRoute db from_pid) distances) →
  ∀ from_pid distances,
    _static_parking_travel_time
      (travel_time_pair findRoute
         (sumo_id (sumo from), edge_of from, sumo_endPos (sumo from))
         (sumo_id (sumo to), edge_of to, sumo_endPos (sumo to)) st).1
      !! from_pid = Some distances →
    distances ≠ [] ∧ Forall (reachable findRoute db from_pid) distances.
Proof.
  intros Hfrom Hto HJ. unfold travel_time_pair.
  destruct (decide _) as [|Hne]; [exact HJ|].
  destruct (_ && _); [exact HJ|].
  erewrite bind_Ok by reflexivity. erewrite bind_Ok by reflexivity.
  destruct (decide _); [exact HJ|].
  destruct (findRoute (edge_of from) (edge_of to)) as [route|] eqn:Hroute.
  - erewrite bind_Ok by reflexivity. cbv beta iota.
    destruct (route_edges route) as [|e es] eqn:Hedges; [exact HJ|].
    destruct (Qeq_bool (travelTime route) 0) eqn:Hcost; [exact HJ|].
    intros from_pid distances. cbn.
    destruct (decide (from_pid = sumo_id (sumo from))) as [->|Hother].
    + rewrite lookup_insert_eq. intros [= <-]. split; [by intros [_ [=]]%app_eq_nil|].
      apply Forall_app. split.
      * destruct (_static_parking_travel_time st !! sumo_id (sumo from)) as [ds|] eqn:Hds;
          [by apply (HJ _ _ Hds) | constructor].
      * apply Forall_singleton. exists from, to, route. rewrite Hedges. by repeat split.
    + rewrite lookup_insert_ne by done. apply HJ.
  - erewrite bind_Ok by reflexivity. cbv beta iota. exact HJ.
Qed.

Lemma travel_time_pair_parking_db findRoute from to st :
  _parking_db (travel_time_pair findRoute from to st).1 = _parking_db st.
Proof.
  destruct from as [[from_pid from_edge] from_end_pos].
  destruct to as [[to_pid to_edge] to_end_pos]. unfold travel_time_pair.
  destruct (decide _); [done|]. destruct (_ && _); [done|].
  erewrite bind_Ok by reflexivity. erewrite bind_Ok by reflexivity.
  destruct (decide _); [done|].
  destruct (findRoute from_edge to_edge) as [route|];
    erewrite bind_Ok by reflexivity; cbv beta iota; [|done].
  destruct (route_edges route); [done|]. by destruct (Qeq_bool _ _).
Qed.

Lemma compute_parking_travel_time_stores
    (findRoute : string → string → option Route) (st : State) :
  ∃ st',
    compute_parking_travel_time findRoute st = (st', Ok tt)
    ∧ _parking_db st' = _parking_db st
    ∧ ∀ from_pid distances,
        _static_parking_travel_time st' !! from_pid = Some distances →
        distances ≠ []
        ∧ Forall (reachable findRoute (_parking_db st) from_pid) distances.
Proof.
  unfold compute_parking_travel_time.
  erewrite bind_Ok by reflexivity. erewrite bind_Ok by reflexivity.
  cbn [_parking_db with_static_parking_travel_time].
  set (st0 := with_static_parking_travel_time (λ _, ∅) st).
  set (tuple := λ parking : Parking,
         (sumo_id (sumo parking),
          hd EmptyString (split "_"%char (sumo_lane (sumo parking))),
          sumo_endPos (sumo parking))).
  set (J := λ st1 : State,
         _parking_db st1 = _parking_db st
         ∧ ∀ from_pid distances,
             _static_parking_travel_time st1 !! from_pid = Some distances →
             distances ≠ []
             ∧ Forall (reachable findRoute (_parking_db st) from_pid) distances).
  match goal with |- context [forM_ ?f ?l] =>
    destruct (total_forM_ f l) with (st := st0) as (st1 & [] & Hrun);
    [intros from; apply total_forM_; intros to; apply total_travel_time_pair|];
    assert (HJ : J (forM_ f l st0).1)
  end.
  { apply forM__invariant.
    - intros ? (from & -> & Hfrom)%list_elem_of_fmap st2 HJ2.
      apply forM__invariant; [|done].
      intros ? (to & -> & Hto)%list_elem_of_fmap st3 [Hdb HJ3]. split.
      + rewrite <- Hdb. apply travel_time_pair_parking_db.
      + by apply travel_time_pair_sound.
    - split; [done|]. intros from_pid distances. cbn. by rewrite lookup_empty. }
  rewrite Hrun in HJ. destruct HJ as [Hdb HJ]. cbn [fst] in Hdb, HJ.
  erewrite bind_Ok by exact Hrun. eexists. split; [reflexivity|]. split; [done|].
  intros from_pid distances. cbn. rewrite lookup_fmap.
  destruct (_static_parking_travel_time st1 !! from_pid) as [ds|] eqn:Hds; [|done].
  intros [= <-]. destruct (HJ _ _ Hds) as [Hne Hall]. split.
  - destruct ds as [|d ds]; [done|]. cbn. apply insert_sorted_not_nil.
  - by apply sort_distances_Forall.
Qed.


Lemma closest_loop_sublist num parkings items (P : Q * string → Prop) :
  Forall P parkings → Forall P items → Forall P (closest_loop num parkings items).
Proof.
  intros Hparkings Hitems. revert parkings Hparkings.
  induction Hitems as [|item rest Hitem Hrest IH]; intros parkings Hparkings; cbn; [done|].
  destruct (_ : bool); [done|]. apply IH, Forall_app. split; [done|]. by constructor.
Qed.

(** X23: after a build of the travel times, whatever [get_closest_parkings]
    returns for a parking are parkings that TraCI has a route to: every
    (cost, id) returned is the travel time of a route from the edge of the
    parking asked for to the edge of the registered parking [id]. *)
Theorem closest_parkings_are_reachable
    (findRoute : string → string → option Route) (st : State)
    (parking : string) (num : option Z) (items : list (Q * string))
    (Hclosest : get_closest_parkings parking num
                  (compute_parking_travel_time findRoute st).1 = Ok items) :
  Forall (reachable findRoute (_parking_db st) parking) items.
Proof.
  destruct (compute_parking_travel_time_stores findRoute st) as (st' & Hrun & _ & Hsound).
  rewrite Hrun in Hclosest. cbn [fst] in Hclosest. unfold get_closest_parkings in Hclosest.
  destruct (decide _); [done|].
  destruct (_static_parking_travel_time st' !! parking) as [distances|] eqn:Hd.
  - injection Hclosest as <-. apply closest_loop_sublist; [constructor|].
    by apply (Hsound _ _ Hd).
  - injection Hclosest as <-. constructor.
Qed.

Lemma closest_parkings_are_reachable_witness :
  ∃ items,
    get_closest_parkings "P1" (Some 1) example_built = Ok items
    ∧ items ≠ []
    ∧ Forall (reachable example_findRoute (_parking_db example_lots) "P1") items.
Proof.
  eexists. split; [vm_compute; reflexivity|]. split; [done|].
  apply (closest_parkings_are_reachable example_findRoute example_lots "P1" (Some 1)).
  vm_compute; reflexivity.
Defined.

(** ** The occupancy by class *)

Lemma booked_ext st st' vehicle area v_class :
  _vehicles_db st' = _vehicles_db st → dom (_parking_db st') = dom (_parking_db st) →
  booked st' vehicle area v_class ↔ booked st vehicle area v_class.
Proof. intros Hv Hd. unfold booked. by rewrite Hv, Hd. Qed.

Lemma ending_stop_occupants tv w st st' tv' :
  ending_stop tv w st = (st', Ok tv') →
  _vehicles_db st' = _vehicles_db st
  ∧ dom (_parking_db st') = dom (_parking_db st)
  ∧ ∀ area v_class,
      occupants st' area v_class
      = (if decide (booked st w area v_class) then (λ vehicles, vehicles ∖ {[w]}) else id)
          <$> occupants st area v_class.
Proof.
  unfold ending_stop. intros Hrun.
  apply bind_Ok_inv in Hrun as (st1 & parking_area & Harea & Hrun).
  apply _get_parking_area_from_vehicle_Ok in Harea as [-> ->].
  apply bind_Ok_inv in Hrun as (? & db & [= <- <-] & Hrun).
  destruct (parking_area_of (_vehicles_db st) w) as [area0|] eqn:Harea; cbn in Hrun.
  2: { injection Hrun as <- _. do 2 (split; [done|]). intros area v_class.
       rewrite decide_False; [by rewrite option_fmap_id|].
       intros (_ & Ha & _). by rewrite Harea in Ha. }
  destruct (_parking_db st !! area0) as [p|] eqn:Hp; cbn in Hrun.
  2: { injection Hrun as <- _. do 2 (split; [done|]). intros area v_class.
       rewrite decide_False; [by rewrite option_fmap_id|].
       intros (_ & Ha & Hd). rewrite Harea in Ha. injection Ha as <-.
       by apply not_elem_of_dom in Hp. }
  apply bind_Ok_inv in Hrun as (? & v & Hv & Hrun). unfold vehicle_of in Hv.
  destruct (_vehicles_db st !! w) as [v0|] eqn:Hw; [|done]. injection Hv as <- <-.
  destruct (occupancy_by_class p !! vClass v0) as [vehicles|] eqn:Hvs; [|done].
  destruct (decide (w ∈ vehicles)); [|done].
  apply bind_Ok_inv in Hrun as (? & [] & [= <-] & [= <- _]).
  split; [done|]. split; [cbn; apply dom_alter_L|].
  intros area v_class. unfold occupants. cbn.
  destruct (decide (booked st w area v_class)) as [(Hc & Ha & _)|Hnot].
  - rewrite Hw in Hc. rewrite Harea in Ha. injection Hc as <-. injection Ha as <-.
    rewrite lookup_alter_eq, Hp. cbn. by rewrite lookup_insert_eq, Hvs.
  - rewrite option_fmap_id. destruct (decide (area = area0)) as [->|Hne].
    + rewrite lookup_alter_eq, Hp. cbn. destruct (decide (v_class = vClass v0)) as [->|Hc].
      * destruct Hnot. split; [by rewrite Hw|]. split; [done|]. by apply elem_of_dom_2 in Hp.
      * by rewrite lookup_insert_ne.
    + by rewrite lookup_alter_ne.
Qed.

Lemma starting_stop_occupants tv w st st' tv' :
  starting_stop tv w st = (st', Ok tv') →
  _vehicles_db st' = _vehicles_db st
  ∧ dom (_parking_db st') = dom (_parking_db st)
  ∧ ∀ area v_class,
      occupants st' area v_class
      = (if decide (booked st w area v_class) then (λ vehicles, vehicles ∪ {[w]}) else id)
          <$> occupants st area v_class.
Proof.
  unfold starting_stop. intros Hrun.
  apply bind_Ok_inv in Hrun as (st1 & parking_area & Harea & Hrun).
  apply _get_parking_area_from_vehicle_Ok in Harea as [-> ->].
  apply bind_Ok_inv in Hrun as (? & db & [= <- <-] & Hrun).
  destruct (parking_area_of (_vehicles_db st) w) as [area0|] eqn:Harea; cbn in Hrun.
  2: { injection Hrun as <- _. do 2 (split; [done|]). intros area v_class.
       rewrite decide_False; [by rewrite option_fmap_id|].
       intros (_ & Ha & _). by rewrite Harea in Ha. }
  destruct (_parking_db st !! area0) as [p|] eqn:Hp; cbn in Hrun.
  2: { injection Hrun as <- _. do 2 (split; [done|]). intros area v_class.
       rewrite decide_False; [by rewrite option_fmap_id|].
       intros (_ & Ha & Hd). rewrite Harea in Ha. injection Ha as <-.
       by apply not_elem_of_dom in Hp. }
  apply bind_Ok_inv in Hrun as (? & v & Hv & Hrun). unfold vehicle_of in Hv.
  destruct (_vehicles_db st !! w) as [v0|] eqn:Hw; [|done]. injection Hv as <- <-.
  destruct (occupancy_by_class p !! vClass v0) as [vehicles|] eqn:Hvs; [|done].
  apply bind_Ok_inv in Hrun as (? & [] & [= <-] & [= <- _]).
  split; [done|]. split; [cbn; apply dom_alter_L|].
  intros area v_class. unfold occupants. cbn.
  destruct (decide (booked st w area v_class)) as [(Hc & Ha & _)|Hnot].
  - rewrite Hw in Hc. rewrite Harea in Ha. injection Hc as <-. injection Ha as <-.
    rewrite lookup_alter_eq, Hp. cbn. by rewrite lookup_insert_eq, Hvs.
  - rewrite option_fmap_id. destruct (decide (area = area0)) as [->|Hne].
    + rewrite lookup_alter_eq, Hp. cbn. destruct (decide (v_class = vClass v0)) as [->|Hc].
      * destruct Hnot. split; [by rewrite Hw|]. split; [done|]. by apply elem_of_dom_2 in Hp.
      * by rewrite lookup_insert_ne.
    + by rewrite lookup_alter_ne.
Qed.

Lemma occupants_loop (f : gset string → string → M (gset string))
    (op : string → gset string → gset string) :
  (∀ tv w st st' tv', f tv w st = (st', Ok tv') →
     _vehicles_db st' = _vehicles_db st
     ∧ dom (_parking_db st') = dom (_parking_db st)
     ∧ ∀ area v_class,
         occupants st' area v_class
         = (if decide (booked st w area v_class) then op w else id)
             <$> occupants st area v_class) →
  ∀ l tv st st' tv', foldM f tv l st = (st', Ok tv') →
    _vehicles_db st' = _vehicles_db st
    ∧ dom (_parking_db st') = dom (_parking_db st)
    ∧ ∀ area v_class,
        occupants st' area v_class
        = (λ vehicles, foldl (λ acc w, op w acc) vehicles
                         (filter (λ w, booked st w area v_class) l))
            <$> occupants st area v_class.
Proof.
  intros Hf. induction l as [|w l IH]; intros tv st st' tv'; cbn [foldM].
  - intros [= <- _]. do 2 (split; [done|]). intros area v_class.
    by destruct (occupants st area v_class).
  - intros (st1 & tv1 & Hone & Hrest)%bind_Ok_inv.
    apply Hf in Hone as (Hv1 & Hd1 & Ho1). apply IH in Hrest as (Hv & Hd & Ho).
    split; [congruence|]. split; [congruence|]. intros area v_class.
    rewrite Ho, Ho1, filter_cons.
    rewrite (list_filter_iff _ (λ w, booked st w area v_class))
      by (intros ?; by apply booked_ext).
    destruct (occupants st area v_class) as [vehicles|]; [|done]. cbn.
    by destruct (decide (booked st w area v_class)).
Qed.

Lemma foldl_difference (vehicles : gset string) l :
  foldl (λ acc w, acc ∖ {[w]}) vehicles l = vehicles ∖ list_to_set l.
Proof.
  induction l as [|w l IH] in vehicles |- *; cbn.
  - by rewrite difference_empty_L.
  - by rewrite IH, difference_difference_l_L.
Qed.

Lemma foldl_union (vehicles : gset string) l :
  foldl (λ acc w, acc ∪ {[w]}) vehicles l = vehicles ∪ list_to_set l.
Proof.
  induction l as [|w l IH] in vehicles |- *; cbn.
  - by rewrite (right_id_L ∅ (∪)).
  - by rewrite IH, (assoc_L (∪)).
Qed.

(** X24: what a completed [_update_parking_db] does to the occupancy by
    class.  The set of a class at a parking is the one before, without the
    vehicles of the ending list kept from the previous step whose stop is
    booked on that parking under that class, and with those of the fresh
    starting list whose stop is; an entry that was not there is not
    created. *)
Theorem _update_parking_db_occupancy
    (traci : Traci) (step : Q) (st st' : State) (touched : gset string)
    (Hrun : _update_parking_db traci step st = (st', Ok touched))
    (area v_class : string) :
  occupants st' area v_class
  = (λ vehicles,
       vehicles
         ∖ booked_among st area v_class (default [] (_traci_ending_stop_subscriptions st))
         ∪ booked_among st area v_class (var_parking_starting_vehicles_ids traci))
      <$> occupants st area v_class.
Proof.
  unfold _update_parking_db in Hrun.
  apply bind_Ok_inv in Hrun as (st1 & [] & [= <-] & Hrun).
  apply bind_Ok_inv in Hrun as (? & ending & [= <- <-] & Hrun).
  apply bind_Ok_inv in Hrun as (st2 & tv2 & Hending & Hrun).
  apply bind_Ok_inv in Hrun as (? & [] & [= <-] & Hrun).
  apply bind_Ok_inv in Hrun as (st3 & tv3 & Hstarting & Hrun).
  apply bind_Ok_inv in Hrun as (? & [] & [-> _]%validate_all & [= <- _]).
  apply (occupants_loop _ (λ w vehicles, vehicles ∖ {[w]}) ending_stop_occupants)
    in Hending as (Hv2 & Hd2 & Ho2).
  apply (occupants_loop _ (λ w vehicles, vehicles ∪ {[w]}) starting_stop_occupants)
    in Hstarting as (Hv3 & Hd3 & Ho3).
  set (st1 := with_parking_db _ st) in *.
  assert (Hv1 : _vehicles_db st1 = _vehicles_db st) by done.
  assert (Hd1 : dom (_parking_db st1) = dom (_parking_db st)).
  { by destruct (_check_occupancy_keeps_vehicles traci step st). }
  assert (Ho1 : occupants st1 area v_class = occupants st area v_class).
  { unfold occupants. cbn. rewrite map_lookup_imap.
    destruct (_parking_db st !! area) as [p|]; [|done]. cbn. by destruct (decide _). }
  rewrite Ho3. change (occupants (with_stop_subscriptions _ _ st2) area v_class)
    with (occupants st2 area v_class).
  rewrite Ho2, Ho1. cbn [_traci_ending_stop_subscriptions with_parking_db].
  unfold booked_among.
  rewrite (list_filter_iff _ (λ w, booked st w area v_class)
             (var_parking_starting_vehicles_ids traci))
    by (intros ?; apply booked_ext; cbn; congruence).
  rewrite (list_filter_iff _ (λ w, booked st w area v_class)
             (default [] (_traci_ending_stop_subscriptions st)))
    by (intros ?; by apply booked_ext).
  destruct (occupants st area v_class) as [vehicles|]; [|done]. cbn.
  by rewrite foldl_union, foldl_difference.
Qed.

Lemma _update_parking_db_occupancy_witness :
  let st := (_update_vehicles_db example_traci_next_stop 2 example_departed).1 in
  occupants (_update_parking_db example_traci_next_stop 2 st).1 "P1" "car"
  = (λ vehicles,
       vehicles
         ∖ booked_among st "P1" "car" (default [] (_traci_ending_stop_subscriptions st))
         ∪ booked_among st "P1" "car"
             (var_parking_starting_vehicles_ids example_traci_next_stop))
      <$> occupants st "P1" "car".
Proof.
  intros st.
  refine (_update_parking_db_occupancy example_traci_next_stop 2 st _ {["P1"]} _ "P1" "car").
  vm_compute; reflexivity.
Defined.

Lemma _get_parking_area_from_vehicle_run vehicle v area st :
  _vehicles_db st !! vehicle = Some v →
  parking_area_of (_vehicles_db st) vehicle = Some area →
  _get_parking_area_from_vehicle vehicle st = (st, Ok (Some area)).
Proof.
  intros Hv. unfold parking_area_of, _get_parking_area_from_vehicle. rewrite Hv. cbn.
  intros Harea. erewrite bind_Ok by (unfold vehicle_of; by rewrite Hv).
  destruct (last (history v)) as [[|stop stops]|]; cbn in Harea; [done| |done].
  by injection Harea as <-.
Qed.

(** X25: the end of a stop that the monitor has not seen to start is fatal.
    When the first vehicle of the ending list kept from the previous step is
    booked on a registered parking whose set for the class of the vehicle
    does not hold it (or has no such set), [_update_parking_db] raises
    "cannot be removed" for that vehicle and parking; nothing but the
    occupancy counters has been written, and the ending list stays. *)
Theorem _update_parking_db_cannot_remove
    (traci : Traci) (step : Q) (st : State)
    (vehicle : string) (rest : list string) (area : string) (p : Parking) (v : Vehicle)
    (Hending : _traci_ending_stop_subscriptions st = Some (vehicle :: rest))
    (Hv : _vehicles_db st !! vehicle = Some v)
    (Harea : parking_area_of (_vehicles_db st) vehicle = Some area)
    (Hp : _parking_db st !! area = Some p)
    (Hout : ∀ vehicles, occupancy_by_class p !! vClass v = Some vehicles →
                        vehicle ∉ vehicles) :
  _update_parking_db traci step st
  = ((_check_occupancy traci step st).1, Raise (VehicleCannotBeRemoved vehicle area)).
Proof.
  unfold _update_parking_db. erewrite bind_Ok by reflexivity.
  erewrite bind_Ok by reflexivity. cbn [_traci_ending_stop_subscriptions with_parking_db].
  rewrite Hending. cbn [default foldM]. apply bind_Raise. apply bind_Raise.
  set (st1 := with_parking_db _ st).
  assert (Hp1 : ∃ p1, _parking_db st1 !! area = Some p1
                      ∧ occupancy_by_class p1 = occupancy_by_class p).
  { cbn. rewrite map_lookup_imap, Hp. cbn. eexists. split; [done|]. by destruct (decide _). }
  destruct Hp1 as (p1 & Hp1 & Hocc).
  unfold ending_stop.
  rewrite (bind_Ok _ _ _ _ _ (_get_parking_area_from_vehicle_run vehicle v area st1 Hv Harea)).
  erewrite bind_Ok by reflexivity. cbn [mbind option_bind]. rewrite Hp1. cbn [fmap option_fmap option_map].
  erewrite bind_Ok by (unfold vehicle_of; change (_vehicles_db st1) with (_vehicles_db st);
                       by rewrite Hv).
  rewrite Hocc. destruct (occupancy_by_class p !! vClass v) as [vehicles|] eqn:Hvs; [|done].
  by rewrite decide_False by (by apply Hout).
Qed.

Lemma _update_parking_db_cannot_remove_witness :
  _update_parking_db example_traci_first_stop 3 example_leaving
  = ((_check_occupancy example_traci_first_stop 3 example_leaving).1,
     Raise (VehicleCannotBeRemoved "v1" "P1")).
Proof.
  assert (Hp : ∃ p, _parking_db example_leaving !! "P1" = Some p
                    ∧ occupancy_by_class p !! "car" = Some ∅)
    by (eexists; split; vm_compute; reflexivity).
  destruct Hp as (p & Hp & Hcar).
  assert (Hv : ∃ v, _vehicles_db example_leaving !! "v1" = Some v ∧ vClass v = "car")
    by (eexists; split; vm_compute; reflexivity).
  destruct Hv as (v & Hv & Hclass).
  apply (_update_parking_db_cannot_remove example_traci_first_stop 3 example_leaving
           "v1" [] "P1" p v).
  - vm_compute; reflexivity.
  - exact Hv.
  - vm_compute; reflexivity.
  - exact Hp.
  - intros vehicles. rewrite Hclass, Hcar. intros [= <-]. apply not_elem_of_empty.
Defined.

(** ** The stops of a vehicle *)

Lemma update_vehicle_restops step w data st st' :
  update_vehicle step (w, data) st = (st', Ok tt) →
  (∀ vehicle, vehicle ≠ w → _vehicles_db st' !! vehicle = _vehicles_db st !! vehicle)
  ∧ ∃ v v',
      _vehicles_db st !! w = Some v ∧ _vehicles_db st' !! w = Some v'
      ∧ edge v' = var_road_id data
      ∧ passengers v' = last_step_person_id_list data
      ∧ vClass v' = vClass v
      ∧ if _is_same_destinations (stops v) (parking_stops (var_next_stops data))
        then plan v' = plan v
        else stops v' = parking_stops (var_next_stops data)
             ∧ history v' = history v ++ [stops v]
             ∧ final_stop_arrival v'
               = match final_stop_arrival v with
                 | Some time => Some time
                 | None => if bool_decide (parking_stops (var_next_stops data) = [])
                           then Some step else None
                 end.
Proof.
  unfold update_vehicle, vehicle_of. unfold mbind at 1, M_bind at 1.
  destruct (_vehicles_db st !! w) as [v0|] eqn:Hv0; [|done].
  erewrite bind_Ok by reflexivity. erewrite bind_Ok by reflexivity.
  unfold mbind at 1, M_bind at 1. cbn [_vehicles_db with_vehicles_db with_passengers_db].
  rewrite lookup_alter_eq, Hv0. cbn [fmap option_fmap option_map stops with_road vClass
                                     final_stop_arrival].
  set (st2 := with_passengers_db _ _).
  assert (Hother2 : ∀ vehicle, vehicle ≠ w →
            _vehicles_db st2 !! vehicle = _vehicles_db st !! vehicle).
  { intros vehicle Hne. cbn. by rewrite lookup_alter_ne. }
  assert (Hv2 : _vehicles_db st2 !! w
                = Some (with_road (var_road_id data) (last_step_person_id_list data) v0)).
  { cbn. by rewrite lookup_alter_eq, Hv0. }
  destruct (_is_same_destinations _ _) eqn:Hsame.
  { intros [= <-]. split; [done|]. eexists v0, _. split; [done|]. split; [exact Hv2|].
    by rewrite Hsame. }
  intros Hrun.
  apply bind_Ok_inv in Hrun as (st3 & [] & Hremove & Hrun).
  apply bind_Ok_inv in Hrun as (st4 & [] & Hadd & Hrun).
  apply bind_Ok_inv in Hrun as (? & [] & [= <-] & Hrun).
  match type of Hremove with
  | forM_ ?f ?l ?s = _ =>
      destruct (preserves_forM_ vehicles_kept f l
                  ltac:(intros ?; unfold remove_projection; keeps_vehicles) s) as [Hv3 _]
  end.
  match type of Hadd with
  | forM_ ?f ?l ?s = _ =>
      destruct (preserves_forM_ vehicles_kept f l
                  ltac:(intros ?; unfold add_projection; keeps_vehicles) s) as [Hv4 _]
  end.
  rewrite Hremove in Hv3. rewrite Hadd in Hv4. cbn [fst] in Hv3, Hv4. split.
  - intros vehicle Hne. revert Hrun.
    destruct (_ && _); intros [= <-]; cbn [_vehicles_db with_vehicles_db];
      rewrite ?lookup_alter_ne by done; rewrite Hv4, Hv3; by apply Hother2.
  - exists v0. revert Hrun. destruct (final_stop_arrival v0) as [time|] eqn:Hfinal.
    + rewrite bool_decide_eq_false_2 by done. cbn [andb]. intros [= <-].
      cbn [_vehicles_db with_vehicles_db]. rewrite lookup_alter_eq, Hv4, Hv3, Hv2.
      eexists. split; [done|]. split; [done|]. cbn. by rewrite Hsame, Hfinal.
    + rewrite bool_decide_eq_true_2 by done. cbn [andb].
      destruct (bool_decide (parking_stops (var_next_stops data) = [])); intros [= <-];
        cbn [_vehicles_db with_vehicles_db]; rewrite ?lookup_alter_eq, Hv4, Hv3, Hv2;
        (eexists; split; [done|]; split; [done|]); cbn; by rewrite Hsame, ?Hfinal.
Qed.

Lemma update_loop_others step results vehicle st st' :
  vehicle ∉ results.*1 →
  forM_ (update_vehicle step) results st = (st', Ok tt) →
  _vehicles_db st' !! vehicle = _vehicles_db st !! vehicle.
Proof.
  induction results as [|[w data] results IH] in st |- *; cbn [forM_].
  - by intros _ [= <-].
  - intros [Hne Hnotin]%not_elem_of_cons Hrun.
    apply bind_Ok_inv in Hrun as (st1 & [] & Hone & Hrun).
    apply update_vehicle_restops in Hone as [Hother _].
    rewrite (IH st1) by done. by apply Hother.
Qed.

(** X26: what a completed [_update_vehicles_db] does to a vehicle that
    TraCI reports on.  Its edge and passengers are the reported ones and
    its class stays.  When the reported parking stops name the same places
    as its stops, its stops, history and final-stop stamp stay as they are;
    otherwise the stops are replaced by the reported parking stops, the old
    stops are appended to the history, and the final-stop stamp, if not set
    yet, is set to the time of the step when no parking stop is left. *)
Theorem _update_vehicles_db_restops
    (traci : Traci) (step : Q) (st st' : State)
    (Hrun : _update_vehicles_db traci step st = (st', Ok tt))
    (Hnodup : NoDup (vehicle_getAllSubscriptionResults traci).*1)
    (vehicle : string) (data : VehicleData)
    (Hin : (vehicle, data) ∈ vehicle_getAllSubscriptionResults traci) :
  ∃ v v',
    _vehicles_db st !! vehicle = Some v ∧ _vehicles_db st' !! vehicle = Some v'
    ∧ edge v' = var_road_id data
    ∧ passengers v' = last_step_person_id_list data
    ∧ vClass v' = vClass v
    ∧ if _is_same_destinations (stops v) (parking_stops (var_next_stops data))
      then plan v' = plan v
      else stops v' = parking_stops (var_next_stops data)
           ∧ history v' = history v ++ [stops v]
           ∧ final_stop_arrival v'
             = match final_stop_arrival v with
               | Some time => Some time
               | None => if bool_decide (parking_stops (var_next_stops data) = [])
                         then Some step else None
               end.
Proof.
  unfold _update_vehicles_db in Hrun.
  induction (vehicle_getAllSubscriptionResults traci) as [|[w d] results IH]
    in st, Hrun, Hnodup, Hin |- *; [by apply elem_of_nil in Hin|].
  cbn [forM_] in Hrun. apply bind_Ok_inv in Hrun as (st1 & [] & Hone & Hrun).
  cbn [fmap list_fmap fst] in Hnodup. apply NoDup_cons in Hnodup as [Hnotin Hnodup].
  apply update_vehicle_restops in Hone as [Hother Hself].
  apply elem_of_cons in Hin as [[= -> ->]|Hin].
  - destruct Hself as (v & v' & Hv & Hv' & Hfields). exists v, v'.
    split; [done|]. split; [|done]. by rewrite (update_loop_others _ _ _ _ _ Hnotin Hrun).
  - destruct (IH st1 Hrun Hnodup Hin) as (v & v' & Hv & Hfields). exists v, v'.
    split; [|done]. rewrite <- Hother; [done|]. intros ->. apply Hnotin.
    apply list_elem_of_fmap. by exists (w, data).
Qed.

Lemma _update_vehicles_db_restops_witness :
  ∃ v v',
    _vehicles_db example_departed !! "v1" = Some v
    ∧ _vehicles_db (_update_vehicles_db example_traci_next_stop 2 example_departed).1 !! "v1"
      = Some v'
    ∧ stops v' = [stop_at "e2_0" "P2"]
    ∧ history v' = [[stop_at "e1_0" "P1"]].
Proof.
  destruct (_update_vehicles_db_restops example_traci_next_stop 2 example_departed
              (_update_vehicles_db example_traci_next_stop 2 example_departed).1
              ltac:(vm_compute; reflexivity) ltac:(apply NoDup_singleton)
              "v1" (mkVehicleData "e1" [stop_at "e2_0" "P2"] [])
              ltac:(apply list_elem_of_here))
    as (v & v' & Hv & Hv' & _ & _ & _ & Hplan).
  exists v, v'. split; [exact Hv|]. split; [exact Hv'|].
  vm_compute in Hv. injection Hv as <-.
  destruct Hplan as (Hstops & Hhistory & _). split; [exact Hstops | exact Hhistory].
Defined.

(** ** The rerouters *)

Lemma mapping_fold (id : string) (router_edges : list string)
    (mapping : gmap string (list string)) :
  let mapping' :=
    fold_left (λ mapping edge, <[edge := (default [] (mapping !! edge) ++ [id])%list]> mapping)
              router_edges mapping in
  (∀ edge ids, mapping !! edge = Some ids →
     ∃ ids', mapping' !! edge = Some ids' ∧ ids ⊆ ids')
  ∧ (∀ edge, edge ∈ router_edges → ∃ ids', mapping' !! edge = Some ids' ∧ id ∈ ids')
  ∧ (∀ edge ids' rid, mapping' !! edge = Some ids' → rid ∈ ids' →
       rid = id ∨ ∃ ids, mapping !! edge = Some ids ∧ rid ∈ ids).
Proof.
  induction router_edges as [|e es IH] in mapping |- *; cbn.
  - split; [|split].
    + intros edge ids Hids. by exists ids.
    + intros edge Hin. by apply elem_of_nil in Hin.
    + intros edge ids' rid Hids Hin. right. by exists ids'.
  - destruct (IH (<[e := (default [] (mapping !! e) ++ [id])%list]> mapping))
      as (Hgrow & Hnew & Hold).
    split; [|split].
    + intros edge ids Hids. destruct (decide (edge = e)) as [->|Hne].
      * destruct (Hgrow e (ids ++ [id])%list) as (ids' & Hids' & Hsub).
        { by rewrite lookup_insert_eq, Hids. }
        exists ids'. split; [done|]. intros x Hx. apply Hsub, elem_of_app. by left.
      * apply Hgrow. by rewrite lookup_insert_ne.
    + intros edge [->|Hin]%elem_of_cons; [|by apply Hnew].
      destruct (Hgrow e (default [] (mapping !! e) ++ [id])%list) as (ids' & Hids' & Hsub).
      { by rewrite lookup_insert_eq. }
      exists ids'. split; [done|]. apply Hsub, elem_of_app. right. apply list_elem_of_here.
    + intros edge ids' rid Hids' Hin.
      destruct (Hold edge ids' rid Hids' Hin) as [->|(ids & Hids & Hin')]; [by left|].
      destruct (decide (edge = e)) as [->|Hne].
      * rewrite lookup_insert_eq in Hids. injection Hids as <-.
        apply elem_of_app in Hin' as [Hin'|Hin'];
          [|apply list_elem_of_singleton in Hin' as ->; by left].
        right. destruct (mapping !! e) as [ids|]; [by exists ids|].
        by apply elem_of_nil in Hin'.
      * rewrite lookup_insert_ne in Hids by done. right. by exists ids.
Qed.

(** X27: the rerouters that [_load_parkings_and_routers] registers and its
    map from edges to rerouters agree.  A rerouter is registered under its
    own id, and it is listed under each of its edges; whatever id is listed
    under an edge is the id of a registered rerouter. *)
Theorem _load_parkings_and_routers_rerouters (opts : Options) (xml_tree : list XmlChild) :
  let routers := (_load_parkings_and_routers opts xml_tree).1.2 in
  let mapping := (_load_parkings_and_routers opts xml_tree).2 in
  (∀ rid router, routers !! rid = Some router →
     router_id router = rid
     ∧ ∀ edge, edge ∈ edges router → ∃ ids, mapping !! edge = Some ids ∧ rid ∈ ids)
  ∧ (∀ edge ids rid, mapping !! edge = Some ids → rid ∈ ids → is_Some (routers !! rid)).
Proof.
  unfold _load_parkings_and_routers. cbn zeta.
  induction xml_tree as [|child xml_tree [IH1 IH2]] using rev_ind.
  - cbn. split; intros ? ?; by rewrite ?lookup_empty.
  - rewrite fold_left_app. cbn [fold_left].
    destruct (fold_left (load_child opts) xml_tree (∅, ∅, ∅)) as [[parkings routers] mapping].
    cbn [fst snd] in IH1, IH2.
    destruct child as [attrib|id edges_attr ivs|]; cbn [load_child]; [| |done].
    { by destruct (decide _). }
    cbn [fst snd].
    destruct (mapping_fold id (split " "%char (rstrip (lstrip edges_attr))) mapping)
      as (Hgrow & Hnew & Hold).
    split.
    + intros rid router. destruct (decide (rid = id)) as [->|Hne].
      * rewrite lookup_insert_eq. intros [= <-]. split; [done|]. exact Hnew.
      * rewrite lookup_insert_ne by done. intros Hrouter.
        destruct (IH1 rid router Hrouter) as [Hid Hedges]. split; [done|].
        intros edge Hin. destruct (Hedges edge Hin) as (ids & Hids & Hrid).
        destruct (Hgrow edge ids Hids) as (ids' & Hids' & Hsub).
        exists ids'. split; [done|]. by apply Hsub.
    + intros edge ids' rid Hids' Hin.
      destruct (Hold edge ids' rid Hids' Hin) as [->|(ids & Hids & Hin')].
      * rewrite lookup_insert_eq. eauto.
      * apply lookup_insert_is_Some'. right. by apply (IH2 edge ids rid).
Qed.
